(** * The floating-point ray caster (raycaster_float.c)

    A shallow embedding of [RayCasterFloatIsWall], [RayCasterFloatDistance],
    [RayCasterFloatTrace], [RayCasterFloatStart], [RayCasterFloatConstruct]
    and [RayCasterFloatDestruct], with the C [float] and [double] values
    carried as IEEE 754 binary32 and binary64 numbers ([spec_float] with
    the operations of the Standard Library's [SpecFloat]). *)

From Stdlib Require Import ZArith Bool List Lia.
From Stdlib Require Import Floats.SpecFloat.
From stdpp Require Import base option list gmap.

Local Open Scope Z_scope.

(** ** Constants of raycaster.h *)

(** Modelled from the spec: raycaster.h is not part of the sources at hand;
    the spec fixes SCREEN_WIDTH = 320, SCREEN_HEIGHT = 200,
    HORIZON_HEIGHT = SCREEN_HEIGHT / 2, MAP_X = MAP_Y = 64 (a power of two,
    so MAP_XS = 6 is its binary logarithm) and INV_FACTOR = 288. *)
Definition SCREEN_WIDTH : Z := 320.
Definition SCREEN_HEIGHT : Z := 200.
Definition HORIZON_HEIGHT : Z := SCREEN_HEIGHT / 2.
Definition MAP_X : Z := 64.
Definition MAP_XS : Z := 6.
Definition MAP_Y : Z := 64.
Definition INV_FACTOR_value : Z := 288.

(** ** C floating point *)

Abbreviation float32 := spec_float.
Abbreviation float64 := spec_float.

(** Change of format: the value is rounded to the target precision. *)
Definition SFconv (prec emax : Z) (x : spec_float) : spec_float :=
  match x with
  | S754_finite s m e => binary_round prec emax s m e
  | _ => x
  end.

Module F32.
Definition prec : Z := 24.
Definition emax : Z := 128.
Definition add : float32 -> float32 -> float32 := SFadd prec emax.
Definition sub : float32 -> float32 -> float32 := SFsub prec emax.
Definition mul : float32 -> float32 -> float32 := SFmul prec emax.
Definition div : float32 -> float32 -> float32 := SFdiv prec emax.
Definition of_Z (z : Z) : float32 := binary_normalize prec emax z 0 false.
Definition ltb : float32 -> float32 -> bool := SFltb.
Definition eqb : float32 -> float32 -> bool := SFeqb.
End F32.

Module F64.
Definition prec : Z := 53.
Definition emax : Z := 1024.
Definition add : float64 -> float64 -> float64 := SFadd prec emax.
Definition sub : float64 -> float64 -> float64 := SFsub prec emax.
Definition mul : float64 -> float64 -> float64 := SFmul prec emax.
Definition div : float64 -> float64 -> float64 := SFdiv prec emax.
Definition sqrt : float64 -> float64 := SFsqrt prec emax.
Definition of_Z (z : Z) : float64 := binary_normalize prec emax z 0 false.
Definition ltb : float64 -> float64 -> bool := SFltb.
Definition leb : float64 -> float64 -> bool := SFleb.
(** A literal [m * 2^e]. *)
Definition lit (m e : Z) : float64 := binary_normalize prec emax m e false.
End F64.

(** Promotion [float -> double] and the rounding store [double -> float]. *)
Definition F2D : float32 -> float64 := SFconv F64.prec F64.emax.
Definition D2F : float64 -> float32 := SFconv F32.prec F32.emax.

(** The literals [0.001] and [M_PI] of the source (both of type double). *)
Definition lit_0_001 : float64 := F64.lit 4611686018427388 (-62).
Definition M_PI : float64 := F64.lit 7074237752028440 (-51).

(** The integral part of a float, rounded toward zero; [None] for an
    infinity or a NaN. *)
Definition trunc_Z (x : spec_float) : option Z :=
  match x with
  | S754_zero _ => Some 0
  | S754_finite s m e =>
      let a := match e with
               | Zneg p => Z.shiftr (Zpos m) (Zpos p)
               | _ => Z.shiftl (Zpos m) e
               end in
      Some (cond_Zopp s a)
  | _ => None
  end.

(** [(int) x].  C leaves the conversion undefined when the integral part
    does not fit; the value taken here for that case is the one the x86
    conversion instruction delivers, INT_MIN. *)
Definition INT_MIN : Z := - 2 ^ 31.
Definition float_to_int (x : float32) : Z :=
  match trunc_Z x with
  | Some z => if (INT_MIN <=? z) && (z <? 2 ^ 31) then z else INT_MIN
  | None => INT_MIN
  end.

(** [(uint8_t) x] and [(uint16_t) x] for a float [x], as compiled: the
    low bits of [(int) x]. *)
Definition float_to_uint8 (x : float32) : Z := float_to_int x mod 256.
Definition float_to_uint16 (x : float32) : Z := float_to_int x mod 65536.

(** The narrowing is defined by the C standard exactly when the integral
    part is representable in the target type. *)
Definition fits_uint8 (x : float32) : bool :=
  match trunc_Z x with
  | Some z => (0 <=? z) && (z <? 256)
  | None => false
  end.

Definition sign_of (x : spec_float) : bool :=
  match x with
  | S754_zero s | S754_infinity s | S754_finite s _ _ => s
  | S754_nan => false
  end.

(** [modff x] yields the pair (fractional part, integral part), each with
    the sign of [x]. *)
Definition modff (x : float32) : float32 * float32 :=
  match x with
  | S754_nan => (S754_nan, S754_nan)
  | S754_infinity s => (S754_zero s, x)
  | S754_zero s => (x, x)
  | S754_finite s m e =>
      let ip := match trunc_Z x with
                | Some 0 | None => S754_zero s
                | Some z => F32.of_Z z
                end in
      let fr := match F32.sub x ip with
                | S754_zero _ => S754_zero s
                | r => r
                end in
      (fr, ip)
  end.

(** [fmin] of the C library. *)
Definition c_fmin (x y : float64) : float64 :=
  match x, y with
  | S754_nan, _ => y
  | _, S754_nan => x
  | _, _ => if F64.ltb y x then y else x
  end.

(** ** The map *)

Section Map.
(** [g_map] is declared outside the sources at hand: an array of bytes,
    MAP_X * MAP_Y / 8 of them. *)
Variable g_map : list Z.

Definition g_map_at (i : Z) : Z := default 0 (g_map !! Z.to_nat i).

Definition RayCasterFloatIsWall (rayX rayY : float32) : bool :=
  let mapX := snd (modff rayX) in
  let mapY := snd (modff rayY) in
  let tileX := float_to_int mapX in
  let tileY := float_to_int mapY in
  if (tileX <? 0) || (tileY <? 0) || (tileX >=? MAP_X - 1)
     || (tileY >=? MAP_Y - 1)
  then true
  else negb (Z.land (g_map_at (Z.shiftr tileX 3 + Z.shiftl tileY (MAP_XS - 3)))
                    (Z.shiftl 1 (8 - Z.land tileX 7)) =? 0).
End Map.

Definition map_ok (g_map : list Z) : Prop :=
  length g_map = Z.to_nat (MAP_X * MAP_Y / 8) /\ Forall (fun b => 0 <= b < 256) g_map.

(** ** The C library *)

(** [sin], [cos], [tan] (on doubles) and [atanf] (on floats) belong to the
    C library, not to the program: the development is parametric in them.
    [sqrt] is the correctly rounded IEEE operation, [F64.sqrt]. *)
Record Libm := {
  c_sin : float64 -> float64;
  c_cos : float64 -> float64;
  c_tan : float64 -> float64;
  c_atanf : float32 -> float32
}.

(** ** RayCasterFloatDistance *)

Definition maxDepth : Z := 100.

(** [2.0f * M_PI], a double. *)
Definition TWO_PI : float64 := F64.mul (F2D (F32.of_Z 2)) M_PI.

(** [while (rayA < 0) rayA += 2.0f * M_PI;] *)
Fixpoint wrap_up (fuel : nat) (rayA : float32) : option float32 :=
  match fuel with
  | O => None
  | S fuel' =>
      if F32.ltb rayA (F32.of_Z 0)
      then wrap_up fuel' (D2F (F64.add (F2D rayA) TWO_PI))
      else Some rayA
  end.

(** [while (rayA >= 2.0f * M_PI) rayA -= 2.0f * M_PI;] *)
Fixpoint wrap_down (fuel : nat) (rayA : float32) : option float32 :=
  match fuel with
  | O => None
  | S fuel' =>
      if F64.leb TWO_PI (F2D rayA)
      then wrap_down fuel' (D2F (F64.sub (F2D rayA) TWO_PI))
      else Some rayA
  end.

(** [P2P_DISTANCE]: the sum of squares is formed in float, the root is
    taken in double, and the store to a float variable rounds it. *)
Definition P2P_DISTANCE (x1 y1 x2 y2 : float32) : float32 :=
  D2F (F64.sqrt (F2D (F32.add (F32.mul (F32.sub x1 x2) (F32.sub x1 x2))
                              (F32.mul (F32.sub y1 y2) (F32.sub y1 y2))))).

(** What one of the two search loops leaves behind; [s_iters] counts the
    executions of the loop body. *)
Record Search := {
  s_rayX : float32;
  s_rayY : float32;
  s_hitDis : float32;
  s_depth : Z;
  s_iters : nat
}.

(** The state of the two searches and the selection, kept for the
    statements about the loops. *)
Record DistanceRun := {
  d_vert : Search;
  d_hori : Search;
  d_hitOffset : float32;
  d_hitDirection : Z;
  d_result : float32
}.

Section Distance.
Variable libm : Libm.
Variable g_map : list Z.

(** [while (depth < maxDepth) { if (IsWall(rayX, rayY)) { hitDis = ...;
    break; } else { rayX += xOffset; rayY += yOffset; depth += 1; } }],
    entered with [hitDis = 0]. *)
Fixpoint search_loop (fuel : nat) (playerX playerY xOffset yOffset : float32)
    (rayX rayY : float32) (depth : Z) (iters : nat) : option Search :=
  match fuel with
  | O => None
  | S fuel' =>
      if depth <? maxDepth then
        if RayCasterFloatIsWall g_map rayX rayY then
          Some {| s_rayX := rayX; s_rayY := rayY;
                  s_hitDis := P2P_DISTANCE playerX playerY rayX rayY;
                  s_depth := depth; s_iters := S iters |}
        else
          search_loop fuel' playerX playerY xOffset yOffset
            (F32.add rayX xOffset) (F32.add rayY yOffset) (depth + 1) (S iters)
      else
        Some {| s_rayX := rayX; s_rayY := rayY; s_hitDis := F32.of_Z 0;
                s_depth := depth; s_iters := iters |}
  end.

(** The search along the vertical grid lines (lines 146-182). *)
Definition vertical_search (fuel : nat) (playerX playerY rayA cotA : float32)
    : option Search :=
  let sinA := c_sin libm (F2D rayA) in
  if F64.ltb lit_0_001 sinA then
    let rayX := F32.of_Z (float_to_int playerX + 1) in
    let rayY := F32.add (F32.mul (F32.sub rayX playerX) cotA) playerY in
    let xOffset := F32.of_Z 1 in
    let yOffset := F32.mul xOffset cotA in
    search_loop fuel playerX playerY xOffset yOffset rayX rayY 0 0
  else if F64.ltb sinA (SFopp lit_0_001) then
    let rayX := D2F (F64.sub (F64.of_Z (float_to_int playerX)) lit_0_001) in
    let rayY := F32.add (F32.mul (F32.sub rayX playerX) cotA) playerY in
    let xOffset := F32.of_Z (-1) in
    let yOffset := F32.mul xOffset cotA in
    search_loop fuel playerX playerY xOffset yOffset rayX rayY 0 0
  else
    search_loop fuel playerX playerY (F32.of_Z 0) (F32.of_Z 0)
      playerX playerY maxDepth 0.

(** The search along the horizontal grid lines (lines 184-218). *)
Definition horizontal_search (fuel : nat) (playerX playerY rayA tanA : float32)
    : option Search :=
  let cosA := c_cos libm (F2D rayA) in
  if F64.ltb lit_0_001 cosA then
    let rayY := F32.of_Z (float_to_int playerY + 1) in
    let rayX := F32.add (F32.mul (F32.sub rayY playerY) tanA) playerX in
    let yOffset := F32.of_Z 1 in
    let xOffset := F32.mul yOffset tanA in
    search_loop fuel playerX playerY xOffset yOffset rayX rayY 0 0
  else if F64.ltb cosA (SFopp lit_0_001) then
    let rayY := D2F (F64.sub (F64.of_Z (float_to_int playerY)) lit_0_001) in
    let rayX := F32.add (F32.mul (F32.sub rayY playerY) tanA) playerX in
    let yOffset := F32.of_Z (-1) in
    let xOffset := F32.mul yOffset tanA in
    search_loop fuel playerX playerY xOffset yOffset rayX rayY 0 0
  else
    search_loop fuel playerX playerY (F32.of_Z 0) (F32.of_Z 0)
      playerX playerY maxDepth 0.

(** The selection of lines 220-234. *)
Definition select_hit (v h : Search) : DistanceRun :=
  let vertHitDis := s_hitDis v in
  let horiHitDis := s_hitDis h in
  let result := D2F (c_fmin (F2D vertHitDis) (F2D horiHitDis)) in
  if F32.ltb vertHitDis horiHitDis then
    {| d_vert := v; d_hori := h; d_hitOffset := s_rayY v;
       d_hitDirection := 1; d_result := result |}
  else
    {| d_vert := v; d_hori := h; d_hitOffset := s_rayX h;
       d_hitDirection := 0; d_result := result |}.

Definition distance_run (fuel : nat) (playerX playerY rayA : float32)
    : option DistanceRun :=
  rayA ← wrap_up fuel rayA;
  rayA ← wrap_down fuel rayA;
  let tanA := D2F (c_tan libm (F2D rayA)) in
  let cotA := F32.div (F32.of_Z 1) tanA in
  v ← vertical_search fuel playerX playerY rayA cotA;
  h ← horizontal_search fuel playerX playerY rayA tanA;
  Some (select_hit v h).

(** The function as the caller sees it: the returned distance and the
    two out-parameters [*hitOffset] and [*hitDirection]. *)
Definition RayCasterFloatDistance (fuel : nat) (playerX playerY rayA : float32)
    : option (float32 * float32 * Z) :=
  r ← distance_run fuel playerX playerY rayA;
  Some (d_result r, d_hitOffset r, d_hitDirection r).
End Distance.

(** ** RayCasterFloatStart and RayCasterFloatTrace *)

(** The derived state hung off [rayCaster->derived]. *)
Record RayCasterFloat := {
  playerX : float32;
  playerY : float32;
  playerA : float32
}.

(** The five out-parameters of [Trace]. *)
Record TraceResult := {
  screenY : Z;
  textureNo : Z;
  textureX : Z;
  textureY : Z;
  textureStep : Z
}.

(** What [Trace] knows of the ray once the distance is computed. *)
Record Ray := {
  r_deltaAngle : float32;
  r_run : DistanceRun;
  r_distance : float32
}.

(** [(int16_t) screenX] for a [uint16_t screenX]. *)
Definition int16_of_uint16 (x : Z) : Z := if x <? 32768 then x else x - 65536.

(** Modelled from the spec: INV_FACTOR = SCREEN_WIDTH * 0.9 = 288, taken as
    a float. *)
Definition INV_FACTOR : float32 := F32.of_Z INV_FACTOR_value.

(** The float narrowed by [*textureX = (uint8_t) (256.0f * modff(hitOffset, &dum))]. *)
Definition textureX_float (hitOffset : float32) : float32 :=
  F32.mul (F32.of_Z 256) (fst (modff hitOffset)).

(** [tmp = INV_FACTOR / distance], the float narrowed by [*screenY = tmp]. *)
Definition half_height (distance : float32) : float32 :=
  F32.div INV_FACTOR distance.

(** Lines 271-301: the out-parameters from the selected hit and the
    corrected distance. *)
Definition project (hitOffset : float32) (hitDirection : Z) (distance : float32)
    : TraceResult :=
  let tX := float_to_uint8 (textureX_float hitOffset) in
  let tNo := hitDirection mod 256 in
  if F32.ltb (F32.of_Z 0) distance then
    let tmp := half_height distance in
    let txs := F32.mul tmp (F32.of_Z 2) in
    if negb (F32.eqb txs (F32.of_Z 0)) then
      let step := float_to_uint16
                    (F32.mul (F32.div (F32.of_Z 256) txs) (F32.of_Z 256)) in
      if F32.ltb (F32.of_Z SCREEN_HEIGHT) txs then
        let wallHeight :=
          F32.div (F32.sub txs (F32.of_Z SCREEN_HEIGHT)) (F32.of_Z 2) in
        {| screenY := HORIZON_HEIGHT; textureNo := tNo; textureX := tX;
           textureY := float_to_uint16
                         (F32.mul (F32.mul wallHeight (F32.div (F32.of_Z 256) txs))
                                  (F32.of_Z 256));
           textureStep := step |}
      else
        {| screenY := float_to_uint8 tmp; textureNo := tNo; textureX := tX;
           textureY := 0; textureStep := step |}
    else
      {| screenY := float_to_uint8 tmp; textureNo := tNo; textureX := tX;
         textureY := 0; textureStep := 0 |}
  else
    {| screenY := 0; textureNo := tNo; textureX := tX;
       textureY := 0; textureStep := 0 |}.

Section Trace.
Variable libm : Libm.
Variable g_map : list Z.

(** [deltaAngle] of lines 259-260. *)
Definition column_angle (screenX : Z) : float32 :=
  let half := F32.div (F32.of_Z SCREEN_WIDTH) (F32.of_Z 2) in
  let col := F32.div (F32.sub (F32.of_Z (int16_of_uint16 screenX)) half) half in
  c_atanf libm (D2F (F64.div (F64.mul (F2D col) M_PI) (F64.of_Z 4))).

(** Lines 259-271. *)
Definition cast_ray (fuel : nat) (rc : RayCasterFloat) (screenX : Z)
    : option Ray :=
  let deltaAngle := column_angle screenX in
  run ← distance_run libm g_map fuel (playerX rc) (playerY rc)
          (F32.add (playerA rc) deltaAngle);
  let distance :=
    D2F (F64.mul (F2D (d_result run)) (c_cos libm (F2D deltaAngle))) in
  Some {| r_deltaAngle := deltaAngle; r_run := run; r_distance := distance |}.

(** [RayCasterFloatTrace]: the out-parameters, and the derived state as
    the call leaves it. *)
Definition RayCasterFloatTrace (fuel : nat) (rc : RayCasterFloat) (screenX : Z)
    : option (TraceResult * RayCasterFloat) :=
  ray ← cast_ray fuel rc screenX;
  Some (project (d_hitOffset (r_run ray)) (d_hitDirection (r_run ray))
                (r_distance ray), rc).
End Trace.

(** [RayCasterFloatStart], for a [uint16_t] position and an [int16_t]
    angle. *)
Definition RayCasterFloatStart (rc : RayCasterFloat) (px py pa : Z)
    : RayCasterFloat :=
  {| playerX := F32.mul (F32.div (F32.of_Z px) (F32.of_Z 1024)) (F32.of_Z 4);
     playerY := F32.mul (F32.div (F32.of_Z py) (F32.of_Z 1024)) (F32.of_Z 4);
     playerA := D2F (F64.mul (F2D (F32.mul (F32.div (F32.of_Z pa) (F32.of_Z 1024))
                                           (F32.of_Z 2))) M_PI) |}.

(** ** A sample C library and sample runs *)

(** The C library at the arguments the sample runs reach.  Annex F of the
    C standard fixes sin(0) = 0, cos(0) = 1, tan(0) = 0 and atanf(0) = 0.
    At the two other angles, the floats that Start stores for the angles
    128 and 588 (about 0.7853982 and 3.6079228), the table lists the
    doubles nearest to the sine, the cosine and the tangent.  Elsewhere
    the table has no entry (NaN). *)
Definition angle_128 : float64 := F64.lit 7074237948887040 (-53).
Definition angle_588 : float64 := F64.lit 8124319871795200 (-51).

Definition libm_table (at_0 at_128 at_588 : float64) (x : float64) : float64 :=
  match x with
  | S754_zero _ => at_0
  | _ => if SFeqb x angle_128 then at_128
         else if SFeqb x angle_588 then at_588
         else S754_nan
  end.

Definition libm_sample : Libm :=
  {| c_sin := libm_table (S754_zero false)
                (F64.lit 6369051811725822 (-53))
                (F64.lit (-8099477334139699) (-54));
     c_cos := libm_table (F64.of_Z 1)
                (F64.lit 6369051533325720 (-53))
                (F64.lit (-8045449343762348) (-53));
     c_tan := libm_table (S754_zero false)
                (F64.lit 4503599824229100 (-52))
                (F64.lit 4533842865123234 (-53));
     c_atanf := fun x => match x with S754_zero _ => x | _ => S754_nan end |}.

Definition zero_map : list Z := repeat 0 512.

(** ** Construction and destruction *)

(** The functions a slot of the [RayCaster] table can hold. *)
Inductive method :=
  | M_RayCasterDestruct
  | M_RayCasterFloatStart
  | M_RayCasterFloatTrace
  | M_RayCasterFloatDestruct.

Abbreviation loc := positive.

(** [struct RayCaster]: three function pointers and the [derived] escape;
    [None] is a null pointer. *)
Record RayCaster := {
  Start : option method;
  Trace : option method;
  Destruct : option method;
  derived : option loc
}.

Inductive block :=
  | Blk_RayCaster (rc : RayCaster)
  | Blk_RayCasterFloat (f : RayCasterFloat).

Abbreviation heap := (gmap loc block).

(** [malloc]: whether it succeeds is not up to the program ([ok]); the
    block it returns is a fresh one. *)
Definition malloc (ok : bool) (init : block) (h : heap) : option loc * heap :=
  if ok then let l := fresh (dom h) in (Some l, <[l := init]> h)
  else (None, h).

(** [free(p)]; freeing a null pointer does nothing, freeing a block that
    is not allocated is an error ([None]). *)
Definition free (p : option loc) (h : heap) : option heap :=
  match p with
  | None => Some h
  | Some l => match h !! l with
              | Some _ => Some (delete l h)
              | None => None
              end
  end.

(** Modelled from the spec: the base constructor and destructor are in
    raycaster.c, outside the sources at hand.  The base constructor
    allocates the [RayCaster] table and installs the base [Destruct];
    the base destructor releases the table. *)
Definition RayCasterConstruct (ok : bool) (h : heap) : option loc * heap :=
  malloc ok (Blk_RayCaster {| Start := None; Trace := None;
                              Destruct := Some M_RayCasterDestruct;
                              derived := None |}) h.

Definition RayCasterDestruct (rayCaster : loc) (h : heap) : option heap :=
  free (Some rayCaster) h.

(** [RayCasterFloatDestruct]: [free(rayCaster->derived);
    RayCasterDestruct(rayCaster);] *)
Definition RayCasterFloatDestruct (rayCaster : loc) (h : heap) : option heap :=
  match h !! rayCaster with
  | Some (Blk_RayCaster rc) =>
      h' ← free (derived rc) h;
      RayCasterDestruct rayCaster h'
  | _ => None
  end.

(** A call through the [Destruct] slot of the table at [rayCaster]. *)
Definition call_Destruct (rayCaster : loc) (h : heap) : option heap :=
  match h !! rayCaster with
  | Some (Blk_RayCaster rc) =>
      match Destruct rc with
      | Some M_RayCasterDestruct => RayCasterDestruct rayCaster h
      | Some M_RayCasterFloatDestruct => RayCasterFloatDestruct rayCaster h
      | _ => None
      end
  | _ => None
  end.

(** The contents of a block just returned by [malloc] are indeterminate. *)
Definition uninit_RayCasterFloat : RayCasterFloat :=
  {| playerX := S754_nan; playerY := S754_nan; playerA := S754_nan |}.

(** [RayCasterFloatConstruct]; [ok_base] and [ok_float] say whether the
    allocation of the base table and of the derived state succeed.  The
    result is the returned pointer and the heap, or [None] when the
    function dereferences a null pointer. *)
Definition RayCasterFloatConstruct (ok_base ok_float : bool) (h : heap)
    : option (option loc * heap) :=
  let '(rayCaster, h) := RayCasterConstruct ok_base h in
  let '(rayCasterFloat, h) :=
    malloc ok_float (Blk_RayCasterFloat uninit_RayCasterFloat) h in
  match rayCasterFloat with
  | None =>
      p ← rayCaster;
      h ← call_Destruct p h;
      Some (None, h)
  | Some d =>
      p ← rayCaster;
      match h !! p with
      | Some (Blk_RayCaster rc) =>
          let rc := {| Start := Some M_RayCasterFloatStart;
                       Trace := Some M_RayCasterFloatTrace;
                       Destruct := Some M_RayCasterFloatDestruct;
                       derived := Some d |} in
          Some (Some p, <[p := Blk_RayCaster rc]> h)
      | _ => None
      end
  end.

(** ** The packed map as the spec describes it *)

(** The tile coordinate the code derives from a ray coordinate:
    [(int) mapX] for the integral part [mapX] delivered by [modff]. *)
Definition tile_of (ray : float32) : Z := float_to_int (snd (modff ray)).

(** Bit [n] of the packed map, one bit per cell, counted MSB-first within
    each byte: the reading of the spec. *)
Definition map_bit (g_map : list Z) (n : Z) : bool :=
  Z.testbit (g_map_at g_map (n / 8)) (7 - n mod 8).

Definition half_f : float32 := F32.div (F32.of_Z 1) (F32.of_Z 2).
Definition three_halves_f : float32 := F32.div (F32.of_Z 3) (F32.of_Z 2).

(** A map whose only set bit is bit 0, the bit of cell (0, 0). *)
Definition corner_map : list Z := 128 :: repeat 0 511.

(** The integer floor of a coordinate, as the spec's scenario S4 reads
    it; [None] for an infinity or a NaN. *)
Definition floor_Z (x : spec_float) : option Z :=
  match x with
  | S754_zero _ => Some 0
  | S754_finite s m e =>
      Some (match e with
            | Zneg p => cond_Zopp s (Zpos m) / 2 ^ Zpos p
            | _ => cond_Zopp s (Zpos m) * 2 ^ e
            end)
  | _ => None
  end.

(** A pose in cell (62, 62), next to the sealing boundary, on which the
    searches depend on no byte of the map: Start(16000, 16000, pa). *)
Definition corner_pose (pa : Z) : RayCasterFloat :=
  RayCasterFloatStart uninit_RayCasterFloat 16000 16000 pa.

(** The shape of a positive number after a change of format. *)
Inductive nonneg_shape : spec_float -> Prop :=
  | shape_zero : nonneg_shape (S754_zero false)
  | shape_nan : nonneg_shape S754_nan
  | shape_inf : nonneg_shape (S754_infinity false)
  | shape_finite m e : nonneg_shape (S754_finite false m e).


(** ** Rounding, for the proofs about the float operations *)

(** Whether a shifted mantissa has lost nonzero bits. *)
Definition inexact (mrs : shr_record) : bool := shr_r mrs || shr_s mrs.

(** [f] divides the mantissa by [2 ^ k] and records whether bits were lost. *)
Definition shifts (f : shr_record -> shr_record) (k : Z) : Prop :=
  forall mrs, 0 <= shr_m mrs ->
    shr_m (f mrs) = shr_m mrs / 2 ^ k /\
    (inexact (f mrs) = false <-> shr_m mrs mod 2 ^ k = 0 /\ inexact mrs = false).

(** What the rounding of [m2 * 2 ^ e1] delivers, [e1] being the exponent
    of the target format at that magnitude. *)
Definition rounded_to (prec emax : Z) (s : bool) (m2 e1 : Z) (r : spec_float) : Prop :=
  match r with
  | S754_zero s' => s' = s /\ m2 = 0
  | S754_infinity s' => s' = s /\ 0 < m2 /\ emax - prec <= e1
  | S754_finite s' m3 e3 =>
      s' = s /\ e1 <= e3 <= e1 + 1 /\ Zpos m3 * 2 ^ (e3 - e1) = m2 /\
      canonical_mantissa prec emax m3 e3 = true /\ e3 <= emax - prec
  | S754_nan => False
  end.

(** The last stage of [binary_round_aux]. *)
Definition round_finish (prec emax : Z) (s : bool) (m2 e1 : Z) : spec_float :=
  let '(mrs, e) := shr_fexp prec emax m2 e1 loc_Exact in
  match shr_m mrs with
  | Z0 => S754_zero s
  | Zpos m => if e <=? emax - prec then S754_finite s m e else S754_infinity s
  | Zneg _ => S754_nan
  end.

(** A number of the format: a zero, or a finite number in canonical form
    within the exponent range. *)
Definition in_format (prec emax : Z) (x : spec_float) : Prop :=
  match x with
  | S754_zero _ => True
  | S754_finite _ m e =>
      canonical_mantissa prec emax m e = true /\ e <= emax - prec
  | _ => False
  end.

Abbreviation in_format32 := (in_format F32.prec F32.emax).

(** The finite distances Trace works with are numbers of the format. *)
Definition format_or_special (x : float32) : Prop :=
  match x with
  | S754_finite _ _ _ => in_format32 x
  | _ => True
  end.


(** ** Magnitudes on a common scale *)

(** Every exponent met below is at least [- scale_K]. *)
Definition scale_K : Z := 1200.

(** [mag x] is [|x| * 2 ^ scale_K] for a finite [x]. *)
Definition mag (x : spec_float) : Z :=
  match x with
  | S754_finite _ m e => Zpos m * 2 ^ (e + scale_K)
  | _ => 0
  end.

(** [sval x] is [x * 2 ^ scale_K] for a finite [x]. *)
Definition sval (x : spec_float) : Z :=
  match x with
  | S754_finite s m e => cond_Zopp s (Zpos m * 2 ^ (e + scale_K))
  | _ => 0
  end.

(** The formats at hand. *)
Definition format_ok (prec emax : Z) : Prop :=
  0 < prec /\ 0 < emax - prec /\ - scale_K <= emin prec emax.


Abbreviation in_format64 := (in_format F64.prec F64.emax).

(** A float of the format, at most [b] in magnitude. *)
Definition tame32 (b : Z) (x : float32) : Prop :=
  in_format32 x /\ mag x <= b * 2 ^ scale_K.

Definition nan_or_tame32 (b : Z) (x : float32) : Prop :=
  x = S754_nan \/ tame32 b x.

(** What is asked of the C library for Trace to terminate: [atanf]
    delivers a NaN or a float of magnitude at most 2 (the arc tangent is
    below pi/2). *)
Definition atanf_bounded (libm : Libm) : Prop :=
  forall x, nan_or_tame32 2 (c_atanf libm x).


(** How a search ends: on a solid cell, or with the depth at maxDepth and
    the zero sentinel for a distance; never after more than maxDepth
    executions of the loop body. *)
Definition search_ended (g_map : list Z) (px py : float32) (r : Search) : Prop :=
  (s_iters r <= Z.to_nat maxDepth)%nat /\
  0 <= s_depth r <= maxDepth /\
  ((s_depth r = maxDepth /\ s_hitDis r = F32.of_Z 0) \/
   (s_depth r < maxDepth /\
    RayCasterFloatIsWall g_map (s_rayX r) (s_rayY r) = true /\
    s_hitDis r = P2P_DISTANCE px py (s_rayX r) (s_rayY r))).


(** A float that is not below zero: no negative number and no negative
    infinity (a zero of either sign and a NaN qualify). *)
Definition not_negative (x : spec_float) : Prop :=
  match x with
  | S754_infinity true | S754_finite true _ _ => False
  | _ => True
  end.

(** ** The SDL front end (main_sdl.c) *)

(** The event types and the key codes that [process_event] tells apart;
    the last constructor of each stands for every other value. *)
Inductive event_type :=
  | SDL_QUIT
  | SDL_KEYDOWN
  | SDL_KEYUP
  | SDL_OTHEREVENT.

Inductive keycode :=
  | SDLK_ESCAPE
  | SDLK_UP
  | SDLK_DOWN
  | SDLK_LEFT
  | SDLK_RIGHT
  | SDLK_OTHER.

(** The fields of [SDL_Event] that [process_event] reads: [type],
    [key.repeat] and [key.keysym.sym]. *)
Record SDL_Event := {
  ev_type : event_type;
  key_repeat : Z;
  key_sym : keycode
}.

(** [process_event]: the returned flag and the two directions as the
    call leaves them. *)
Definition process_event (event : SDL_Event) (moveDirection rotateDirection : Z)
    : bool * (Z * Z) :=
  match ev_type event with
  | SDL_QUIT => (true, (moveDirection, rotateDirection))
  | SDL_KEYDOWN | SDL_KEYUP =>
      if key_repeat event =? 0 then
        let p := match ev_type event with SDL_KEYDOWN => true | _ => false end in
        match key_sym event with
        | SDLK_ESCAPE => (true, (moveDirection, rotateDirection))
        | SDLK_UP => (false, ((if p then 1 else 0), rotateDirection))
        | SDLK_DOWN => (false, ((if p then -1 else 0), rotateDirection))
        | SDLK_LEFT => (false, (moveDirection, (if p then -1 else 0)))
        | SDLK_RIGHT => (false, (moveDirection, (if p then 1 else 0)))
        | SDLK_OTHER => (false, (moveDirection, rotateDirection))
        end
      else (false, (moveDirection, rotateDirection))
  | SDL_OTHEREVENT => (false, (moveDirection, rotateDirection))
  end.

(** The input side of the main loop: [events] lists what SDL_PollEvent
    delivers frame after frame ([None]: no event pending); the loop ends
    with the first event for which [process_event] returns true.  The
    result is that flag and the directions handed to GameMove last. *)
Fixpoint poll_events (events : list (option SDL_Event))
    (moveDirection rotateDirection : Z) : bool * (Z * Z) :=
  match events with
  | [] => (false, (moveDirection, rotateDirection))
  | None :: rest => poll_events rest moveDirection rotateDirection
  | Some event :: rest =>
      match process_event event moveDirection rotateDirection with
      | (true, dirs) => (true, dirs)
      | (false, (m, r)) => poll_events rest m r
      end
  end.

(** A key event that is not an automatic repeat. *)
Definition fresh_key (event : SDL_Event) : bool :=
  match ev_type event with
  | SDL_KEYDOWN | SDL_KEYUP => key_repeat event =? 0
  | _ => false
  end.

(** The events that end the main loop. *)
Definition quits (event : SDL_Event) : bool :=
  match ev_type event with
  | SDL_QUIT => true
  | _ => fresh_key event &&
         match key_sym event with SDLK_ESCAPE => true | _ => false end
  end.

(** A press or release of an arrow key that is not an automatic repeat. *)
Definition steers (event : SDL_Event) : bool :=
  fresh_key event &&
  match key_sym event with
  | SDLK_UP | SDLK_DOWN | SDLK_LEFT | SDLK_RIGHT => true
  | _ => false
  end.

(** The polls that matter: an event that quits or steers. *)
Definition relevant (poll : option SDL_Event) : bool :=
  match poll with
  | Some event => quits event || steers event
  | None => false
  end.

Definition direction (d : Z) : Prop := d = -1 \/ d = 0 \/ d = 1.

(** The range of [int]. *)
Definition is_int (z : Z) : Prop := - 2 ^ 31 <= z < 2 ^ 31.

(** [SDL_Rect]. *)
Record SDL_Rect := {
  rect_x : Z;
  rect_y : Z;
  rect_w : Z;
  rect_h : Z
}.

Section Window.
(** Modelled from the spec: SCREEN_SCALE is a constant of raycaster.h,
    outside the sources at hand; it is left open here. *)
Variable SCREEN_SCALE : Z.

(** The destination rectangle that [draw_buffer] hands to SDL_RenderCopy. *)
Definition draw_buffer_rect (dx : Z) : SDL_Rect :=
  {| rect_x := dx * SCREEN_SCALE;
     rect_y := 0;
     rect_w := SCREEN_WIDTH * SCREEN_SCALE;
     rect_h := SCREEN_HEIGHT * SCREEN_SCALE |}.

(** The size of the window that [main] creates. *)
Definition window_w : Z := SCREEN_SCALE * (SCREEN_WIDTH * 2 + 1).
Definition window_h : Z := SCREEN_SCALE * SCREEN_HEIGHT.

(** The two calls of [main]: the fixed-point view, then the float view. *)
Definition fixed_rect : SDL_Rect := draw_buffer_rect 0.
Definition float_rect : SDL_Rect := draw_buffer_rect (SCREEN_WIDTH + 1).
End Window.

(** ** Hit distances *)

(** A distance to a wall as the searches deliver it when they hit: a
    positive float of the format, below [2 ^ 24]. *)
Definition hit_distance (x : float32) : Prop :=
  match x with
  | S754_finite false _ _ => tame32 (2 ^ 24 - 1) x
  | _ => False
  end.

(** ** The outcomes of a search *)

(** A search that ended on a solid cell before the depth ran out, with
    the distance from the player to the point it stopped at. *)
Definition search_hit (g_map : list Z) (px py : float32) (r : Search) : Prop :=
  0 <= s_depth r < maxDepth /\
  RayCasterFloatIsWall g_map (s_rayX r) (s_rayY r) = true /\
  s_hitDis r = P2P_DISTANCE px py (s_rayX r) (s_rayY r).

(** What a skipped search leaves: the player's position, the zero
    sentinel and depth maxDepth (lines 161-168 and 199-206). *)
Definition skipped_search (px py : float32) : Search :=
  {| s_rayX := px; s_rayY := py; s_hitDis := F32.of_Z 0;
     s_depth := maxDepth; s_iters := 0 |}.

(** Whether the tests on [sin(rayA)] (or [cos(rayA)]) let a search run. *)
Definition search_runs (v : float64) : bool :=
  F64.ltb lit_0_001 v || F64.ltb v (SFopp lit_0_001).

(** The body of the main loop as GameMove sees it: one call per frame,
    after the poll of that frame, with the directions as the poll left
    them; the list holds the (moveDirection, rotateDirection) of the
    successive calls.  The frame whose event makes [process_event]
    return true is the last one. *)
Fixpoint main_loop (polls : list (option SDL_Event))
    (moveDirection rotateDirection : Z) : list (Z * Z) :=
  match polls with
  | [] => []
  | None :: rest =>
      (moveDirection, rotateDirection)
        :: main_loop rest moveDirection rotateDirection
  | Some event :: rest =>
      match process_event event moveDirection rotateDirection with
      | (true, dirs) => [dirs]
      | (false, (m, r)) => (m, r) :: main_loop rest m r
      end
  end.

(** A poll that does not end the loop. *)
Definition goes_on (poll : option SDL_Event) : bool :=
  match poll with
  | Some event => negb (quits event)
  | None => true
  end.
(** * Properties *)

(** ** Bits of a byte *)

Lemma land_shiftl_1 (b k : Z) :
  0 <= k -> (Z.land b (Z.shiftl 1 k) =? 0) = negb (Z.testbit b k).
Proof.
  intros Hk.
  destruct (Z.testbit b k) eqn:Hb; simpl.
  - apply Z.eqb_neq. intros H0.
    assert (Ht : Z.testbit (Z.land b (Z.shiftl 1 k)) k = true).
    { rewrite Z.land_spec, Hb, Z.shiftl_spec by lia.
      replace (k - k) with 0 by lia. reflexivity. }
    rewrite H0, Z.bits_0 in Ht. discriminate.
  - apply Z.eqb_eq. apply Z.bits_inj'. intros n Hn.
    rewrite Z.land_spec, Z.bits_0, Z.shiftl_spec by lia.
    destruct (Z.eq_dec n k) as [->|Hne].
    + rewrite Hb. reflexivity.
    + replace (Z.testbit 1 (n - k)) with false; [apply andb_false_r|].
      destruct (Z.lt_ge_cases n k).
      * rewrite Z.testbit_neg_r by lia. reflexivity.
      * symmetry. change 1 with (2 ^ 0). apply Z.pow2_bits_false. lia.
Qed.

Lemma byte_testbit_high (b k : Z) :
  0 <= b < 256 -> 8 <= k -> Z.testbit b k = false.
Proof.
  intros Hb Hk.
  destruct (Z.eq_dec b 0) as [->|Hn]; [apply Z.bits_0|].
  apply Z.bits_above_log2; [lia|].
  assert (Z.log2 b < 8); [|lia].
  apply Z.log2_lt_pow2; [lia|]. change (2 ^ 8) with 256. lia.
Qed.

Lemma g_map_at_byte (g_map : list Z) (i : Z) :
  map_ok g_map -> 0 <= g_map_at g_map i < 256.
Proof.
  intros [_ Hall]. unfold g_map_at.
  destruct (g_map !! Z.to_nat i) as [b|] eqn:Hl; simpl; [|lia].
  rewrite Forall_lookup in Hall. exact (Hall _ _ Hl).
Qed.

(** ** RayCasterFloatIsWall *)

(** Inside the bounds the function returns bit [8 - (tileX & 7)] of the
    byte it reads. *)
Lemma IsWall_in_bounds (g_map : list Z) (rayX rayY : float32) :
  0 <= tile_of rayX < MAP_X - 1 -> 0 <= tile_of rayY < MAP_Y - 1 ->
  RayCasterFloatIsWall g_map rayX rayY =
    Z.testbit (g_map_at g_map (tile_of rayX / 8 + tile_of rayY * 8))
              (8 - tile_of rayX mod 8).
Proof.
  unfold RayCasterFloatIsWall, tile_of, MAP_X, MAP_Y, MAP_XS.
  set (x := float_to_int (snd (modff rayX))).
  set (y := float_to_int (snd (modff rayY))).
  intros Hx Hy.
  replace (x <? 0) with false by (symmetry; apply Z.ltb_ge; lia).
  replace (y <? 0) with false by (symmetry; apply Z.ltb_ge; lia).
  replace (x >=? 64 - 1) with false by (symmetry; rewrite Z.geb_leb; apply Z.leb_gt; lia).
  replace (y >=? 64 - 1) with false by (symmetry; rewrite Z.geb_leb; apply Z.leb_gt; lia).
  cbn [orb].
  replace (Z.land x 7) with (x mod 8)
    by (symmetry; change 7 with (Z.ones 3); rewrite Z.land_ones by lia; reflexivity).
  rewrite Z.shiftr_div_pow2, Z.shiftl_mul_pow2 by lia.
  change (2 ^ 3) with 8. change (2 ^ (6 - 3)) with 8.
  rewrite land_shiftl_1.
  - apply negb_involutive.
  - pose proof (Z.mod_pos_bound x 8). lia.
Qed.

(** A cell in a column whose index is a multiple of 8 is never solid:
    the mask is [1 << 8], beyond the byte. *)
Lemma IsWall_column_0_mod_8 (g_map : list Z) (rayX rayY : float32) :
  map_ok g_map ->
  0 <= tile_of rayX < MAP_X - 1 -> 0 <= tile_of rayY < MAP_Y - 1 ->
  tile_of rayX mod 8 = 0 ->
  RayCasterFloatIsWall g_map rayX rayY = false.
Proof.
  intros Hok Hx Hy H8. rewrite IsWall_in_bounds by assumption.
  rewrite H8. apply byte_testbit_high; [apply g_map_at_byte; assumption|lia].
Qed.

(** In every other column the bit tested is the bit of the cell to the
    left. *)
Lemma IsWall_column_other (g_map : list Z) (rayX rayY : float32) :
  0 <= tile_of rayX < MAP_X - 1 -> 0 <= tile_of rayY < MAP_Y - 1 ->
  tile_of rayX mod 8 <> 0 ->
  RayCasterFloatIsWall g_map rayX rayY =
    map_bit g_map (tile_of rayY * MAP_X + (tile_of rayX - 1)).
Proof.
  intros Hx Hy H8. rewrite IsWall_in_bounds by assumption.
  unfold map_bit, MAP_X in *.
  set (x := tile_of rayX) in *. set (y := tile_of rayY) in *.
  pose proof (Z.mod_pos_bound x 8 ltac:(lia)) as Hm.
  pose proof (Z.div_mod x 8 ltac:(lia)) as Hd.
  assert (Hq : (y * 64 + (x - 1)) / 8 = x / 8 + y * 8).
  { replace (y * 64 + (x - 1)) with (x mod 8 - 1 + (x / 8 + y * 8) * 8) by lia.
    rewrite Z.div_add by lia. rewrite Z.div_small by lia. lia. }
  assert (Hr : (y * 64 + (x - 1)) mod 8 = x mod 8 - 1).
  { replace (y * 64 + (x - 1)) with (x mod 8 - 1 + (x / 8 + y * 8) * 8) by lia.
    rewrite Z.mod_add by lia. apply Z.mod_small. lia. }
  rewrite Hq, Hr. f_equal. lia.
Qed.

(** C1: on the map whose only set bit is bit 0 * MAP_X + 0, a point of
    cell (0, 0) is not solid although the bit of its cell is set, and a
    point of cell (1, 0) is solid although the bit of its cell is clear:
    the mask [1 << (8 - (tileX & 7))] tests the bit one place to the left
    of the MSB-first bit of the cell. *)
Theorem IsWall_tests_neighbouring_bit :
  map_ok corner_map /\
  tile_of half_f = 0 /\ tile_of three_halves_f = 1 /\
  map_bit corner_map (0 * MAP_X + 0) = true /\
  RayCasterFloatIsWall corner_map half_f half_f = false /\
  map_bit corner_map (0 * MAP_X + 1) = false /\
  RayCasterFloatIsWall corner_map three_halves_f half_f = true.
Proof.
  split.
  - split; [reflexivity|].
    apply Forall_cons. split; [lia|].
    apply Forall_forall. intros b Hb. apply list_elem_of_In, repeat_spec in Hb. lia.
  - repeat split; vm_compute; reflexivity.
Qed.

(** Outside the bounds every cell is solid. *)
Lemma IsWall_out_of_bounds (g_map : list Z) (rayX rayY : float32) :
  tile_of rayX < 0 \/ tile_of rayY < 0 \/
  tile_of rayX >= MAP_X - 1 \/ tile_of rayY >= MAP_Y - 1 ->
  RayCasterFloatIsWall g_map rayX rayY = true.
Proof.
  unfold RayCasterFloatIsWall, tile_of.
  set (x := float_to_int (snd (modff rayX))).
  set (y := float_to_int (snd (modff rayY))).
  intros H.
  destruct (x <? 0) eqn:H1; [reflexivity|].
  destruct (y <? 0) eqn:H2; [reflexivity|].
  destruct (x >=? MAP_X - 1) eqn:H3; [reflexivity|].
  destruct (y >=? MAP_Y - 1) eqn:H4; [reflexivity|].
  rewrite Z.geb_leb in H3, H4. lia.
Qed.

(** C5 (as stated): the coordinates 0.5 and -0.5 have integer floor 0 and
    -1, both <= 0, yet on the empty map a point with these coordinates is
    not solid: the code truncates toward zero and tests [tileX < 0]. *)
Lemma IsWall_floor_le_0_not_solid :
  floor_Z half_f = Some 0 /\ floor_Z (SFopp half_f) = Some (-1) /\
  RayCasterFloatIsWall zero_map half_f half_f = false /\
  RayCasterFloatIsWall zero_map (SFopp half_f) (SFopp half_f) = false.
Proof. repeat split; vm_compute; reflexivity. Qed.

(** ** RayCasterFloatDistance: the selection *)

Lemma binary_round_aux_shape (prec emax : Z) (m e : Z) (l : location) :
  nonneg_shape (binary_round_aux prec emax false m e l).
Proof.
  unfold binary_round_aux.
  destruct (shr_fexp prec emax m e l) as [mrs' e'].
  destruct (shr_fexp prec emax _ e' loc_Exact) as [mrs'' e''].
  destruct (shr_m mrs''); [constructor| |constructor].
  destruct (e'' <=? emax - prec); constructor.
Qed.

Lemma SFconv_pos_shape (prec emax : Z) (x : spec_float) :
  SFltb (S754_zero false) x = true -> nonneg_shape (SFconv prec emax x).
Proof.
  destruct x as [s|s| |s m e]; cbn; try discriminate.
  - destruct s; [discriminate|constructor].
  - destruct s; [discriminate|]. intros _.
    unfold binary_round.
    destruct (shl_align m e _) as [mz ez]. apply binary_round_aux_shape.
Qed.

Lemma fmin_zero_nonneg_l (x : float64) :
  nonneg_shape x -> D2F (c_fmin (S754_zero false) x) = S754_zero false.
Proof. intros []; reflexivity. Qed.

Lemma fmin_zero_nonneg_r (x : float64) :
  nonneg_shape x -> D2F (c_fmin x (S754_zero false)) = S754_zero false.
Proof. intros []; reflexivity. Qed.

(** When the vertical search leaves the zero sentinel and the horizontal
    search found a wall, the vertical side is selected and 0 is
    returned. *)
Lemma select_hit_vertical_sentinel (v h : Search) :
  s_hitDis v = S754_zero false ->
  F32.ltb (F32.of_Z 0) (s_hitDis h) = true ->
  d_hitDirection (select_hit v h) = 1 /\
  d_hitOffset (select_hit v h) = s_rayY v /\
  d_result (select_hit v h) = S754_zero false.
Proof.
  intros Hv Hh. unfold select_hit. rewrite Hv.
  change (F32.of_Z 0) with (S754_zero false) in Hh.
  unfold F32.ltb in *. rewrite Hh. cbn [d_hitDirection d_hitOffset d_result].
  repeat split.
  apply fmin_zero_nonneg_l, SFconv_pos_shape, Hh.
Qed.

(** When the horizontal search leaves the zero sentinel and the vertical
    search found a wall, the horizontal side is selected and 0 is
    returned. *)
Lemma select_hit_horizontal_sentinel (v h : Search) :
  s_hitDis h = S754_zero false ->
  F32.ltb (F32.of_Z 0) (s_hitDis v) = true ->
  d_hitDirection (select_hit v h) = 0 /\
  d_hitOffset (select_hit v h) = s_rayX h /\
  d_result (select_hit v h) = S754_zero false.
Proof.
  intros Hh Hv. unfold select_hit. rewrite Hh.
  change (F32.of_Z 0) with (S754_zero false) in Hv.
  unfold F32.ltb in *.
  assert (Hlt : SFltb (s_hitDis v) (S754_zero false) = false).
  { destruct (s_hitDis v) as [s|s| |s m e]; try reflexivity;
      destruct s; try discriminate; reflexivity. }
  rewrite Hlt. cbn [d_hitDirection d_hitOffset d_result].
  repeat split.
  apply fmin_zero_nonneg_r, SFconv_pos_shape, Hv.
Qed.

(** C2: the player at (62.5, 62.5) and the ray angle 0.  The vertical
    search is skipped and leaves the zero sentinel; the horizontal search
    finds the boundary at distance 0.5 in its first step.  The code
    selects the vertical side (hitDirection 1, hitOffset the player's y)
    and returns 0, not the horizontal hit and its distance. *)
Theorem Distance_prefers_zero_sentinel (g_map : list Z) :
  exists run,
    distance_run libm_sample g_map 101
      (playerX (corner_pose 0)) (playerY (corner_pose 0)) (S754_zero false)
    = Some run /\
    s_hitDis (d_vert run) = S754_zero false /\
    s_iters (d_vert run) = 0%nat /\
    s_hitDis (d_hori run) = half_f /\
    s_iters (d_hori run) = 1%nat /\
    d_hitDirection run = 1 /\
    d_hitOffset run = playerY (corner_pose 0) /\
    d_result run = S754_zero false.
Proof.
  eexists. split; [vm_compute; reflexivity|].
  repeat split.
Qed.

(** ** Independence of the fuel *)

Lemma wrap_up_agree (f1 f2 : nat) (a r1 r2 : float32) :
  wrap_up f1 a = Some r1 -> wrap_up f2 a = Some r2 -> r1 = r2.
Proof.
  revert f2 a. induction f1 as [|f1 IH]; intros [|f2] a; cbn [wrap_up];
    try discriminate.
  destruct (F32.ltb a (F32.of_Z 0)).
  - apply IH.
  - congruence.
Qed.

Lemma wrap_down_agree (f1 f2 : nat) (a r1 r2 : float32) :
  wrap_down f1 a = Some r1 -> wrap_down f2 a = Some r2 -> r1 = r2.
Proof.
  revert f2 a. induction f1 as [|f1 IH]; intros [|f2] a; cbn [wrap_down];
    try discriminate.
  destruct (F64.leb TWO_PI (F2D a)).
  - apply IH.
  - congruence.
Qed.

Lemma search_loop_agree (g_map : list Z) (f1 f2 : nat)
    (px py xo yo rx ry : float32) (depth : Z) (iters : nat) (r1 r2 : Search) :
  search_loop g_map f1 px py xo yo rx ry depth iters = Some r1 ->
  search_loop g_map f2 px py xo yo rx ry depth iters = Some r2 -> r1 = r2.
Proof.
  revert f2 rx ry depth iters.
  induction f1 as [|f1 IH]; intros [|f2] rx ry depth iters; cbn [search_loop];
    try discriminate.
  destruct (depth <? maxDepth); [|congruence].
  destruct (RayCasterFloatIsWall g_map rx ry); [congruence|].
  apply IH.
Qed.

Lemma vertical_search_agree (libm : Libm) (g_map : list Z) (f1 f2 : nat)
    (px py a cotA : float32) (r1 r2 : Search) :
  vertical_search libm g_map f1 px py a cotA = Some r1 ->
  vertical_search libm g_map f2 px py a cotA = Some r2 -> r1 = r2.
Proof.
  unfold vertical_search.
  destruct (F64.ltb lit_0_001 _); [apply search_loop_agree|].
  destruct (F64.ltb _ (SFopp lit_0_001)); apply search_loop_agree.
Qed.

Lemma horizontal_search_agree (libm : Libm) (g_map : list Z) (f1 f2 : nat)
    (px py a tanA : float32) (r1 r2 : Search) :
  horizontal_search libm g_map f1 px py a tanA = Some r1 ->
  horizontal_search libm g_map f2 px py a tanA = Some r2 -> r1 = r2.
Proof.
  unfold horizontal_search.
  destruct (F64.ltb lit_0_001 _); [apply search_loop_agree|].
  destruct (F64.ltb _ (SFopp lit_0_001)); apply search_loop_agree.
Qed.

Lemma distance_run_agree (libm : Libm) (g_map : list Z) (f1 f2 : nat)
    (px py a : float32) (r1 r2 : DistanceRun) :
  distance_run libm g_map f1 px py a = Some r1 ->
  distance_run libm g_map f2 px py a = Some r2 -> r1 = r2.
Proof.
  unfold distance_run. intros H1 H2.
  destruct (wrap_up f1 a) as [a1|] eqn:U1; [|discriminate].
  destruct (wrap_up f2 a) as [a2|] eqn:U2; [|discriminate].
  pose proof (wrap_up_agree _ _ _ _ _ U1 U2) as <-.
  cbn [mbind option_bind] in H1, H2.
  destruct (wrap_down f1 a1) as [b1|] eqn:D1; [|discriminate].
  destruct (wrap_down f2 a1) as [b2|] eqn:D2; [|discriminate].
  pose proof (wrap_down_agree _ _ _ _ _ D1 D2) as <-.
  cbn [mbind option_bind] in H1, H2.
  destruct (vertical_search libm g_map f1 _ _ _ _) as [v1|] eqn:V1; [|discriminate].
  destruct (vertical_search libm g_map f2 _ _ _ _) as [v2|] eqn:V2; [|discriminate].
  pose proof (vertical_search_agree _ _ _ _ _ _ _ _ _ _ V1 V2) as <-.
  cbn [mbind option_bind] in H1, H2.
  destruct (horizontal_search libm g_map f1 _ _ _ _) as [h1|] eqn:E1; [|discriminate].
  destruct (horizontal_search libm g_map f2 _ _ _ _) as [h2|] eqn:E2; [|discriminate].
  pose proof (horizontal_search_agree _ _ _ _ _ _ _ _ _ _ E1 E2) as <-.
  cbn [mbind option_bind] in H1, H2. congruence.
Qed.

Lemma cast_ray_agree (libm : Libm) (g_map : list Z) (f1 f2 : nat)
    (rc : RayCasterFloat) (screenX : Z) (r1 r2 : Ray) :
  cast_ray libm g_map f1 rc screenX = Some r1 ->
  cast_ray libm g_map f2 rc screenX = Some r2 -> r1 = r2.
Proof.
  unfold cast_ray. intros H1 H2.
  destruct (distance_run libm g_map f1 _ _ _) as [d1|] eqn:D1; [|discriminate].
  destruct (distance_run libm g_map f2 _ _ _) as [d2|] eqn:D2; [|discriminate].
  pose proof (distance_run_agree _ _ _ _ _ _ _ _ _ D1 D2) as <-.
  cbn [mbind option_bind] in H1, H2. congruence.
Qed.

(** ** RayCasterFloatTrace *)

Lemma Trace_inv (libm : Libm) (g_map : list Z) (fuel : nat)
    (rc rc' : RayCasterFloat) (screenX : Z) (out : TraceResult) :
  RayCasterFloatTrace libm g_map fuel rc screenX = Some (out, rc') ->
  rc' = rc /\
  exists ray, cast_ray libm g_map fuel rc screenX = Some ray /\
    out = project (d_hitOffset (r_run ray)) (d_hitDirection (r_run ray))
                  (r_distance ray).
Proof.
  unfold RayCasterFloatTrace.
  destruct (cast_ray libm g_map fuel rc screenX) as [ray|]; [|discriminate].
  cbn [mbind option_bind]. intros [= <- <-]. eauto.
Qed.

(** C8: two calls of Trace for the same column, with no Start between
    them, return the same five outputs, and Trace leaves the stored pose
    (playerX, playerY, playerA) as it found it; the outputs depend on the
    pose, the column and the map only. *)
Theorem Trace_idempotent (libm : Libm) (g_map : list Z) (fuel1 fuel2 : nat)
    (rc rc1 rc2 : RayCasterFloat) (screenX : Z) (out1 out2 : TraceResult) :
  RayCasterFloatTrace libm g_map fuel1 rc screenX = Some (out1, rc1) ->
  RayCasterFloatTrace libm g_map fuel2 rc1 screenX = Some (out2, rc2) ->
  out2 = out1 /\ rc1 = rc /\ rc2 = rc.
Proof.
  intros H1 H2.
  apply Trace_inv in H1 as [-> (ray1 & C1 & ->)].
  apply Trace_inv in H2 as [-> (ray2 & C2 & ->)].
  pose proof (cast_ray_agree _ _ _ _ _ _ _ _ C1 C2) as <-.
  repeat split.
Qed.

Lemma Trace_idempotent_witness :
  let out := {| screenY := 100; textureNo := 0; textureX := 0;
                textureY := 24722; textureStep := 80 |} in
  RayCasterFloatTrace libm_sample zero_map 101 (corner_pose 128) 160
    = Some (out, corner_pose 128) /\
  RayCasterFloatTrace libm_sample zero_map 120 (corner_pose 128) 160
    = Some (out, corner_pose 128) /\
  (out = out /\ corner_pose 128 = corner_pose 128 /\
   corner_pose 128 = corner_pose 128).
Proof.
  intros out.
  assert (H1 : RayCasterFloatTrace libm_sample zero_map 101 (corner_pose 128) 160
               = Some (out, corner_pose 128)) by (vm_compute; reflexivity).
  assert (H2 : RayCasterFloatTrace libm_sample zero_map 120 (corner_pose 128) 160
               = Some (out, corner_pose 128)) by (vm_compute; reflexivity).
  split; [exact H1|]. split; [exact H2|].
  exact (Trace_idempotent _ _ _ _ _ _ _ _ _ _ H1 H2).
Defined.

Lemma select_hit_direction (v h : Search) :
  d_hitDirection (select_hit v h) = 0 \/ d_hitDirection (select_hit v h) = 1.
Proof. unfold select_hit. destruct (F32.ltb _ _); cbn; auto. Qed.

Lemma distance_run_direction (libm : Libm) (g_map : list Z) (fuel : nat)
    (px py a : float32) (run : DistanceRun) :
  distance_run libm g_map fuel px py a = Some run ->
  d_hitDirection run = 0 \/ d_hitDirection run = 1.
Proof.
  unfold distance_run. intros H.
  destruct (wrap_up fuel a) as [a1|]; [|discriminate]. cbn [mbind option_bind] in H.
  destruct (wrap_down fuel a1) as [a2|]; [|discriminate]. cbn [mbind option_bind] in H.
  destruct (vertical_search _ _ _ _ _ _ _) as [v|]; [|discriminate].
  cbn [mbind option_bind] in H.
  destruct (horizontal_search _ _ _ _ _ _ _) as [h|]; [|discriminate].
  cbn [mbind option_bind] in H. injection H as <-. apply select_hit_direction.
Qed.

Lemma leb_zero_not_pos (d : float32) :
  SFleb d (F32.of_Z 0) = true -> F32.ltb (F32.of_Z 0) d = false.
Proof.
  destruct d as [s|s| |s m e]; try reflexivity; destruct s; try reflexivity;
    discriminate.
Qed.

(** C3 (as stated): from Start(16000, 16000, 0) the middle column has the
    corrected distance 0, and Trace returns screenY = 0 with
    textureNo = 1 and textureX = 128: these two texture fields are not
    zero. *)
Lemma Trace_zero_distance_texture_fields :
  exists ray,
    cast_ray libm_sample zero_map 101 (corner_pose 0) 160 = Some ray /\
    SFleb (r_distance ray) (F32.of_Z 0) = true /\
    RayCasterFloatTrace libm_sample zero_map 101 (corner_pose 0) 160
      = Some ({| screenY := 0; textureNo := 1; textureX := 128;
                 textureY := 0; textureStep := 0 |}, corner_pose 0).
Proof.
  eexists. split; [vm_compute; reflexivity|].
  split; vm_compute; reflexivity.
Qed.

(** C3 (amended): when the corrected distance is <= 0, Trace returns
    screenY = 0, textureY = 0 and textureStep = 0; textureNo and textureX
    are written before the test and still are the selected hit direction
    and the narrowed 256 * frac(hitOffset). *)
Theorem Trace_nonpositive_distance (libm : Libm) (g_map : list Z) (fuel : nat)
    (rc : RayCasterFloat) (screenX : Z) (ray : Ray) :
  cast_ray libm g_map fuel rc screenX = Some ray ->
  SFleb (r_distance ray) (F32.of_Z 0) = true ->
  exists out,
    RayCasterFloatTrace libm g_map fuel rc screenX = Some (out, rc) /\
    screenY out = 0 /\ textureY out = 0 /\ textureStep out = 0 /\
    textureNo out = d_hitDirection (r_run ray) /\
    textureX out = float_to_uint8 (textureX_float (d_hitOffset (r_run ray))).
Proof.
  intros Hc Hd. unfold RayCasterFloatTrace. rewrite Hc. cbn [mbind option_bind].
  eexists. split; [reflexivity|].
  unfold project. rewrite (leb_zero_not_pos _ Hd).
  cbn [screenY textureY textureStep textureNo textureX].
  repeat split.
  unfold cast_ray in Hc.
  destruct (distance_run _ _ _ _ _ _) as [run|] eqn:Hr; [|discriminate].
  cbn [mbind option_bind] in Hc. injection Hc as <-. cbn [r_run].
  destruct (distance_run_direction _ _ _ _ _ _ _ Hr) as [-> | ->]; reflexivity.
Qed.

Lemma Trace_nonpositive_distance_witness :
  exists ray out,
    cast_ray libm_sample zero_map 101 (corner_pose 0) 160 = Some ray /\
    RayCasterFloatTrace libm_sample zero_map 101 (corner_pose 0) 160
      = Some (out, corner_pose 0) /\
    screenY out = 0 /\ textureY out = 0 /\ textureStep out = 0 /\
    textureNo out = d_hitDirection (r_run ray) /\
    textureX out = float_to_uint8 (textureX_float (d_hitOffset (r_run ray))).
Proof.
  destruct (cast_ray libm_sample zero_map 101 (corner_pose 0) 160) as [ray|] eqn:Hc;
    [|vm_compute in Hc; discriminate].
  assert (Hd : SFleb (r_distance ray) (F32.of_Z 0) = true).
  { vm_compute in Hc. injection Hc as <-. reflexivity. }
  destruct (Trace_nonpositive_distance _ _ _ _ _ _ Hc Hd) as (out & Ho).
  exists ray, out. split; [reflexivity|exact Ho].
Defined.

(** ** Construction *)

Lemma fresh_lookup_None (h : heap) : h !! fresh (dom h) = None.
Proof. apply not_elem_of_dom. apply is_fresh. Qed.

(** C9: when the allocation of the derived state fails, the constructor
    calls the Destruct slot of the base table just built, which releases
    it, and returns NULL: the heap is the one the constructor was entered
    with.  When both allocations succeed it returns the table with the
    Start, Trace and Destruct slots set to the float functions and
    [derived] pointing at the new derived state. *)
Theorem Construct_releases_or_installs (h : heap) :
  (exists p h1,
     RayCasterConstruct true h = (Some p, h1) /\
     h !! p = None /\
     call_Destruct p h1 = RayCasterDestruct p h1 /\
     RayCasterDestruct p h1 = Some h /\
     RayCasterFloatConstruct true false h = Some (None, h)) /\
  (exists p d h',
     RayCasterFloatConstruct true true h = Some (Some p, h') /\
     h !! p = None /\ h !! d = None /\ p <> d /\
     h' !! p = Some (Blk_RayCaster
                       {| Start := Some M_RayCasterFloatStart;
                          Trace := Some M_RayCasterFloatTrace;
                          Destruct := Some M_RayCasterFloatDestruct;
                          derived := Some d |}) /\
     h' !! d = Some (Blk_RayCasterFloat uninit_RayCasterFloat) /\
     dom h' = {[p; d]} ∪ dom h).
Proof.
  pose proof (fresh_lookup_None h) as Hp.
  set (p := fresh (dom h)) in *.
  set (b := Blk_RayCaster {| Start := None; Trace := None;
                             Destruct := Some M_RayCasterDestruct;
                             derived := None |}).
  assert (Hdel : RayCasterDestruct p (<[p:=b]> h) = Some h).
  { unfold RayCasterDestruct, free. rewrite lookup_insert_eq.
    rewrite delete_insert_eq. f_equal. apply delete_id. exact Hp. }
  assert (Hcall : call_Destruct p (<[p:=b]> h) = RayCasterDestruct p (<[p:=b]> h)).
  { unfold call_Destruct. rewrite lookup_insert_eq. reflexivity. }
  split.
  - exists p, (<[p:=b]> h). repeat split; try assumption.
    unfold RayCasterFloatConstruct, RayCasterConstruct, malloc.
    fold p. fold b. cbn [mbind option_bind].
    rewrite Hcall, Hdel. reflexivity.
  - pose proof (fresh_lookup_None (<[p:=b]> h)) as Hd.
    set (d := fresh (dom (<[p:=b]> h))) in *.
    assert (Hpd : p <> d).
    { intros E. rewrite <- E, lookup_insert_eq in Hd. discriminate. }
    exists p, d. eexists.
    unfold RayCasterFloatConstruct, RayCasterConstruct, malloc.
    fold p. fold b. fold d. cbn [mbind option_bind].
    rewrite lookup_insert_ne by (intros E; apply Hpd; symmetry; exact E).
    rewrite lookup_insert_eq.
    split; [reflexivity|].
    split; [exact Hp|].
    split; [rewrite lookup_insert_ne in Hd by exact Hpd; exact Hd|].
    split; [exact Hpd|].
    split; [apply lookup_insert_eq|].
    split.
    + rewrite lookup_insert_ne by exact Hpd. apply lookup_insert_eq.
    + rewrite !dom_insert_L. set_solver.
Qed.

(** ** Narrowing to uint8_t *)

(** C10: two runs of Trace for the middle column.  From
    Start(16000, 16000, 128) the wall is at distance about 0.707 and
    [tmp = INV_FACTOR / distance] is about 407.29 when [*screenY = tmp]
    narrows it to uint8_t, before the overshoot branch rewrites screenY.
    From Start(64, 128, 588) the selected hit offset is about -0.505 and
    the float narrowed into textureX is about -129.4.  Neither integral
    part is in [0, 256). *)
Theorem Trace_narrows_out_of_range :
  (forall g_map : list Z, exists ray,
     cast_ray libm_sample g_map 101 (corner_pose 128) 160 = Some ray /\
     F32.ltb (F32.of_Z 0) (r_distance ray) = true /\
     trunc_Z (half_height (r_distance ray)) = Some 407 /\
     fits_uint8 (half_height (r_distance ray)) = false) /\
  (exists ray,
     cast_ray libm_sample zero_map 101
       (RayCasterFloatStart uninit_RayCasterFloat 64 128 588) 160 = Some ray /\
     trunc_Z (textureX_float (d_hitOffset (r_run ray))) = Some (-129) /\
     fits_uint8 (textureX_float (d_hitOffset (r_run ray))) = false).
Proof.
  split.
  - intros g_map. eexists. split; [vm_compute; reflexivity|].
    repeat split; vm_compute; reflexivity.
  - eexists. split; [vm_compute; reflexivity|].
    repeat split; vm_compute; reflexivity.
Qed.

(** ** Rounding *)

(** ** Digits *)

Lemma digits2_pos_spec (m : positive) :
  2 ^ (Zpos (digits2_pos m) - 1) <= Zpos m < 2 ^ Zpos (digits2_pos m).
Proof.
  induction m as [m IH|m IH|]; cbn [digits2_pos].
  - rewrite Pos2Z.inj_succ.
    replace (Z.succ (Zpos (digits2_pos m)) - 1) with (Z.succ (Zpos (digits2_pos m) - 1)) by lia.
    rewrite !Z.pow_succ_r by lia. lia.
  - rewrite Pos2Z.inj_succ.
    replace (Z.succ (Zpos (digits2_pos m)) - 1) with (Z.succ (Zpos (digits2_pos m) - 1)) by lia.
    rewrite !Z.pow_succ_r by lia. lia.
  - cbn. lia.
Qed.

Lemma digits2_pos_unique (m : positive) (d : Z) :
  2 ^ (d - 1) <= Zpos m < 2 ^ d -> Zpos (digits2_pos m) = d.
Proof.
  intros [H1 H2]. pose proof (digits2_pos_spec m) as [H3 H4].
  set (D := Zpos (digits2_pos m)) in *.
  assert (0 < D) by (subst D; lia).
  destruct (Z.lt_trichotomy D d) as [Hlt|[Heq|Hgt]]; [|assumption|].
  - exfalso. assert (2 ^ D <= 2 ^ (d - 1)) by (apply Z.pow_le_mono_r; lia). lia.
  - exfalso. destruct (Z.le_gt_cases 0 d) as [Hd|Hd].
    + assert (2 ^ d <= 2 ^ (D - 1)) by (apply Z.pow_le_mono_r; lia). lia.
    + rewrite (Z.pow_neg_r 2 d) in H2 by lia. lia.
Qed.

(** ** Shifting a mantissa to the right *)

Lemma shifts_shr_1 : shifts shr_1 1.
Proof.
  intros [m r s] Hm. cbn [shr_m] in Hm. unfold inexact.
  change (2 ^ 1) with 2.
  destruct m as [|p|p]; [| |lia].
  - destruct r, s; cbn; intuition (try discriminate; try lia).
  - destruct p as [p|p|]; cbn [shr_1 shr_m shr_r shr_s].
    + rewrite Pos2Z.inj_xI.
      replace ((2 * Zpos p + 1) mod 2) with 1
        by (apply (Z.mod_unique _ _ (Zpos p)); lia).
      split; [apply (Z.div_unique _ _ _ 1); lia|].
      destruct r, s; cbn; intuition (try discriminate; try lia).
    + rewrite Pos2Z.inj_xO.
      replace ((2 * Zpos p) mod 2) with 0
        by (apply (Z.mod_unique _ _ (Zpos p)); lia).
      split; [apply (Z.div_unique _ _ _ 0); lia|].
      destruct r, s; cbn; intuition (try discriminate; try lia).
    + destruct r, s; cbn; intuition (try discriminate; try lia).
Qed.

Lemma shifts_compose (f g : shr_record -> shr_record) (a b : Z) :
  0 <= a -> 0 <= b -> shifts f a -> shifts g b ->
  shifts (fun mrs => g (f mrs)) (a + b).
Proof.
  intros Ha Hb Hf Hg mrs Hm.
  destruct (Hf mrs Hm) as [Hf1 Hf2].
  assert (0 < 2 ^ a) by (apply Z.pow_pos_nonneg; lia).
  assert (0 < 2 ^ b) by (apply Z.pow_pos_nonneg; lia).
  assert (Hm' : 0 <= shr_m (f mrs)) by (rewrite Hf1; apply Z.div_pos; lia).
  destruct (Hg (f mrs) Hm') as [Hg1 Hg2].
  rewrite Z.pow_add_r by lia.
  split.
  - rewrite Hg1, Hf1. apply Z.div_div; lia.
  - rewrite Hg2, Hf2, Hf1.
    rewrite Z.rem_mul_r by lia.
    pose proof (Z.mod_pos_bound (shr_m mrs) (2 ^ a) ltac:(lia)).
    pose proof (Z.mod_pos_bound (shr_m mrs / 2 ^ a) (2 ^ b) ltac:(lia)).
    split.
    + intros (Hq & Hr & Hi). repeat split; try assumption. lia.
    + intros (Hs & Hi). repeat split; try assumption; nia.
Qed.

Lemma shifts_iter_pos (p : positive) : shifts (SpecFloat.iter_pos shr_1 p) (Zpos p).
Proof.
  induction p as [p IH|p IH|]; cbn [SpecFloat.iter_pos].
  - replace (Zpos p~1) with (1 + Zpos p + Zpos p) by lia.
    apply (shifts_compose (fun x => SpecFloat.iter_pos shr_1 p (shr_1 x)) (SpecFloat.iter_pos shr_1 p));
      [lia|lia| |exact IH].
    apply (shifts_compose shr_1 (SpecFloat.iter_pos shr_1 p)); [lia|lia|exact shifts_shr_1|exact IH].
  - replace (Zpos p~0) with (Zpos p + Zpos p) by lia.
    apply (shifts_compose (SpecFloat.iter_pos shr_1 p) (SpecFloat.iter_pos shr_1 p)); [lia|lia|exact IH|exact IH].
  - exact shifts_shr_1.
Qed.

Section Round.
Variables prec emax : Z.
Hypothesis Hprec : 0 < prec.

Lemma fexp_ge_emin (e : Z) : emin prec emax <= fexp prec emax e.
Proof. unfold fexp. lia. Qed.

Lemma binary_round_aux_finish (s : bool) (m e : Z) (l : location) :
  binary_round_aux prec emax s m e l =
  round_finish prec emax s
    (round_nearest_even (shr_m (fst (shr_fexp prec emax m e l)))
                        (loc_of_shr_record (fst (shr_fexp prec emax m e l))))
    (snd (shr_fexp prec emax m e l)).
Proof.
  unfold binary_round_aux, round_finish.
  destruct (shr_fexp prec emax m e l) as [mrs' e']. reflexivity.
Qed.

Lemma round_finish_spec (s : bool) (m2 e1 : Z) :
  0 <= m2 <= 2 ^ prec -> emin prec emax <= e1 ->
  (emin prec emax < e1 -> 2 ^ (prec - 1) <= m2) ->
  rounded_to prec emax s m2 e1 (round_finish prec emax s m2 e1).
Proof.
  intros Hm He Hn. unfold round_finish, shr_fexp.
  destruct m2 as [|p|p]; [| |lia].
  - (* zero *)
    cbn [Zdigits2 shr_record_of_loc].
    unfold shr. destruct (fexp prec emax (0 + e1) - e1) eqn:Hd.
    + cbn. auto.
    + exfalso. unfold fexp in Hd. lia.
    + cbn. auto.
  - cbn [Zdigits2 shr_record_of_loc].
    pose proof (digits2_pos_spec p) as Hdig.
    set (d2 := Zpos (digits2_pos p)) in *.
    assert (Hd2 : d2 <= prec + 1).
    { destruct (Z.le_gt_cases d2 (prec + 1)) as [|Hgt]; [assumption|exfalso].
      assert (2 ^ (prec + 1) <= 2 ^ (d2 - 1)) by (apply Z.pow_le_mono_r; lia).
      assert (2 ^ prec < 2 ^ (prec + 1)) by (apply Z.pow_lt_mono_r; lia). lia. }
    assert (Hd2' : emin prec emax < e1 -> prec <= d2).
    { intros Hlt. specialize (Hn Hlt).
      destruct (Z.le_gt_cases prec d2) as [|Hgt]; [assumption|exfalso].
      assert (2 ^ d2 <= 2 ^ (prec - 1)) by (apply Z.pow_le_mono_r; lia). lia. }
    destruct (Z.eq_dec d2 (prec + 1)) as [Heq|Hne].
    + (* the mantissa is 2 ^ prec: one more shift *)
      assert (Hp : Zpos p = 2 ^ prec).
      { rewrite Heq in Hdig. replace (prec + 1 - 1) with prec in Hdig by lia. lia. }
      assert (Hf : fexp prec emax (d2 + e1) - e1 = 1) by (unfold fexp; lia).
      unfold shr. rewrite Hf. cbn [SpecFloat.iter_pos].
      destruct (shifts_shr_1 {| shr_m := Zpos p; shr_r := false; shr_s := false |})
        as [Hs1 _]; [cbn; lia|].
      cbn [shr_m] in Hs1. change (2 ^ 1) with 2 in Hs1.
      assert (Hhalf : Zpos p / 2 = 2 ^ (prec - 1)).
      { rewrite Hp. replace prec with (Z.succ (prec - 1)) at 1 by lia.
        rewrite Z.pow_succ_r by lia. rewrite Z.mul_comm, Z.div_mul by lia. reflexivity. }
      rewrite Hs1, Hhalf.
      assert (Hpos : 0 < 2 ^ (prec - 1)) by (apply Z.pow_pos_nonneg; lia).
      assert (Hq : exists q, 2 ^ (prec - 1) = Zpos q).
      { destruct (2 ^ (prec - 1)) as [|q|q]; [lia|eauto|lia]. }
      destruct Hq as [q Hq]. rewrite Hq.
      assert (Hpq : Zpos p = 2 * Zpos q).
      { rewrite <- Hq, Hp. replace prec with (Z.succ (prec - 1)) at 1 by lia.
        rewrite Z.pow_succ_r by lia. reflexivity. }
      destruct (e1 + 1 <=? emax - prec) eqn:Hle; unfold rounded_to.
      * apply Z.leb_le in Hle.
        split; [reflexivity|]. split; [lia|]. split; [|split; [|exact Hle]].
        -- replace (e1 + 1 - e1) with 1 by lia. change (2 ^ 1) with 2. lia.
        -- unfold canonical_mantissa. apply Z.eqb_eq.
           rewrite (digits2_pos_unique q prec).
           ++ unfold fexp. lia.
           ++ rewrite <- Hq. split; [lia|]. apply Z.pow_lt_mono_r; lia.
      * apply Z.leb_gt in Hle. repeat split; lia.
    + (* no shift *)
      assert (Hf : fexp prec emax (d2 + e1) = e1).
      { unfold fexp. destruct (Z.eq_dec e1 (emin prec emax)) as [->|Hne1]; [lia|].
        assert (prec <= d2) by (apply Hd2'; lia). lia. }
      unfold shr. rewrite Hf, Z.sub_diag. cbn [shr_m].
      destruct (e1 <=? emax - prec) eqn:Hle; unfold rounded_to.
      * apply Z.leb_le in Hle.
        split; [reflexivity|]. split; [lia|]. split; [|split; [|exact Hle]].
        -- rewrite Z.sub_diag. change (2 ^ 0) with 1. lia.
        -- unfold canonical_mantissa. fold d2. apply Z.eqb_eq. exact Hf.
      * apply Z.leb_gt in Hle. repeat split; lia.
Qed.

Lemma shr_m_record_of_loc (m : Z) (l : location) :
  shr_m (shr_record_of_loc m l) = m.
Proof. destruct l as [|[]]; reflexivity. Qed.

Lemma inexact_record_of_loc (m : Z) (l : location) :
  inexact (shr_record_of_loc m l) = false <-> l = loc_Exact.
Proof. destruct l as [|[]]; cbn; intuition discriminate. Qed.

Lemma round_nearest_even_cases (mrs : shr_record) :
  let m := round_nearest_even (shr_m mrs) (loc_of_shr_record mrs) in
  m = shr_m mrs \/ (m = shr_m mrs + 1 /\ inexact mrs = true).
Proof.
  destruct mrs as [m r s]. destruct r, s; cbn; auto.
  destruct (Z.even m); auto.
Qed.

(** The first stage: the mantissa is cut down to the target exponent and
    rounded. *)
Lemma shr_fexp_spec (M : positive) (E : Z) (l : location) :
  let e1 := fexp prec emax (Zpos (digits2_pos M) + E) in
  E <= e1 ->
  let mrs := fst (shr_fexp prec emax (Zpos M) E l) in
  snd (shr_fexp prec emax (Zpos M) E l) = e1 /\
  shr_m mrs = Zpos M / 2 ^ (e1 - E) /\
  (inexact mrs = false <-> Zpos M mod 2 ^ (e1 - E) = 0 /\ l = loc_Exact).
Proof.
  intros e1 He. unfold shr_fexp. cbn [Zdigits2]. fold e1.
  unfold shr. destruct (e1 - E) as [|p|p] eqn:Hn; [| |lia]; cbn [fst snd].
  - split; [lia|]. rewrite shr_m_record_of_loc, inexact_record_of_loc.
    change (2 ^ 0) with 1. rewrite Z.div_1_r, Z.mod_1_r. tauto.
  - split; [lia|].
    destruct (shifts_iter_pos p (shr_record_of_loc (Zpos M) l)) as [H1 H2].
    { rewrite shr_m_record_of_loc. lia. }
    rewrite shr_m_record_of_loc in H1, H2. rewrite inexact_record_of_loc in H2.
    split; assumption.
Qed.

Theorem binary_round_aux_spec (s : bool) (M : positive) (E : Z) (l : location) :
  let e1 := fexp prec emax (Zpos (digits2_pos M) + E) in
  E <= e1 ->
  exists m2,
    (m2 = Zpos M / 2 ^ (e1 - E) \/
     (m2 = Zpos M / 2 ^ (e1 - E) + 1 /\
      (l = loc_Exact -> Zpos M mod 2 ^ (e1 - E) <> 0))) /\
    rounded_to prec emax s m2 e1 (binary_round_aux prec emax s (Zpos M) E l).
Proof.
  intros e1 He.
  destruct (shr_fexp_spec M E l He) as (Hsnd & Hm & Hex). fold e1 in Hsnd, Hm, Hex.
  rewrite binary_round_aux_finish, Hsnd.
  set (mrs := fst (shr_fexp prec emax (Zpos M) E l)) in *.
  set (m2 := round_nearest_even (shr_m mrs) (loc_of_shr_record mrs)).
  pose proof (round_nearest_even_cases mrs) as Hc. cbv zeta in Hc. fold m2 in Hc.
  pose proof (digits2_pos_spec M) as Hdig.
  set (D := Zpos (digits2_pos M)) in *.
  set (n := e1 - E) in *.
  assert (Hn : 0 <= n) by lia.
  assert (H2n : 0 < 2 ^ n) by (apply Z.pow_pos_nonneg; lia).
  set (m1 := Zpos M / 2 ^ n) in *.
  assert (Hm1 : 0 <= m1) by (apply Z.div_pos; lia).
  assert (Hm1M : m1 * 2 ^ n <= Zpos M < (m1 + 1) * 2 ^ n).
  { pose proof (Z.div_mod (Zpos M) (2 ^ n) ltac:(lia)).
    pose proof (Z.mod_pos_bound (Zpos M) (2 ^ n) ltac:(lia)). fold m1 in H. nia. }
  assert (HDn : D - n <= prec) by (subst n e1; unfold fexp; lia).
  (* m1 < 2 ^ prec *)
  assert (Hm1lt : m1 + 1 <= 2 ^ prec).
  { destruct (Z.le_gt_cases n D) as [HnD|HnD].
    - assert (m1 < 2 ^ (D - n)).
      { apply Z.div_lt_upper_bound; [lia|]. rewrite <- Z.pow_add_r by lia.
        replace (n + (D - n)) with D by lia. lia. }
      assert (2 ^ (D - n) <= 2 ^ prec) by (apply Z.pow_le_mono_r; lia). lia.
    - assert (m1 = 0).
      { apply Z.div_small. split; [lia|].
        assert (2 ^ D <= 2 ^ n) by (apply Z.pow_le_mono_r; lia). lia. }
      assert (1 <= 2 ^ prec) by (apply (Z.pow_le_mono_r 2 0 prec); lia). lia. }
  (* above the subnormal range the quotient is normal *)
  assert (Hm1ge : emin prec emax < e1 -> 2 ^ (prec - 1) <= m1).
  { intros Hlt. assert (HD : D - n = prec) by (subst n e1; unfold fexp in *; lia).
    apply Z.div_le_lower_bound; [lia|]. rewrite <- Z.pow_add_r by lia.
    replace (n + (prec - 1)) with (D - 1) by lia. lia. }
  exists m2. split.
  - destruct Hc as [-> | [-> Hin]]; [left; exact Hm|right].
    split; [rewrite Hm; reflexivity|].
    intros Hl Hmod. assert (inexact mrs = false) by (apply Hex; auto). congruence.
  - apply round_finish_spec.
    + destruct Hc as [-> | [-> _]]; rewrite Hm; lia.
    + apply fexp_ge_emin.
    + intros Hlt. specialize (Hm1ge Hlt).
      destruct Hc as [-> | [-> _]]; rewrite Hm; lia.
Qed.

End Round.

Lemma pos_iter_xO (m d : positive) :
  Zpos (Pos.iter xO m d) = Zpos m * 2 ^ Zpos d.
Proof.
  induction d as [|d IH] using Pos.peano_ind.
  - cbn. lia.
  - rewrite Pos.iter_succ, Pos2Z.inj_xO, IH, Pos2Z.inj_succ, Z.pow_succ_r by lia. lia.
Qed.

Lemma digits2_pos_shift (m : positive) (k : Z) (q : positive) :
  0 <= k -> Zpos q = Zpos m * 2 ^ k ->
  Zpos (digits2_pos q) = Zpos (digits2_pos m) + k.
Proof.
  intros Hk Hq. apply digits2_pos_unique. rewrite Hq.
  pose proof (digits2_pos_spec m) as [H1 H2].
  assert (0 < 2 ^ k) by (apply Z.pow_pos_nonneg; lia).
  replace (Zpos (digits2_pos m) + k - 1) with (Zpos (digits2_pos m) - 1 + k) by lia.
  rewrite !Z.pow_add_r by lia. nia.
Qed.

Lemma shl_align_le (mx : positive) (ex ex' : Z) :
  ex <= ex' -> shl_align mx ex ex' = (mx, ex).
Proof. unfold shl_align. intros H. destruct (ex' - ex) eqn:Hd; try reflexivity. lia. Qed.

Lemma shl_align_gt (mx : positive) (ex ex' : Z) :
  ex' < ex ->
  exists q, shl_align mx ex ex' = (q, ex') /\ Zpos q = Zpos mx * 2 ^ (ex - ex').
Proof.
  unfold shl_align. intros H. destruct (ex' - ex) as [|p|p] eqn:Hd; try lia.
  eexists. split; [reflexivity|]. rewrite pos_iter_xO. f_equal. f_equal. lia.
Qed.

Section Round2.
Variables prec emax : Z.
Hypothesis Hprec : 0 < prec.

(** [binary_round]: a mantissa at an exponent above the target one is
    first aligned, then nothing is lost. *)
Theorem binary_round_spec (s : bool) (m : positive) (e : Z) :
  let e1 := fexp prec emax (Zpos (digits2_pos m) + e) in
  exists m2,
    ((e <= e1 /\
      (m2 = Zpos m / 2 ^ (e1 - e) \/
       (m2 = Zpos m / 2 ^ (e1 - e) + 1 /\ Zpos m mod 2 ^ (e1 - e) <> 0))) \/
     (e1 < e /\ m2 = Zpos m * 2 ^ (e - e1))) /\
    rounded_to prec emax s m2 e1 (binary_round prec emax s m e).
Proof.
  intros e1. unfold binary_round. fold e1.
  destruct (Z_le_gt_dec e e1) as [Hle|Hgt].
  - rewrite shl_align_le by exact Hle.
    destruct (binary_round_aux_spec prec emax Hprec s m e loc_Exact) as (m2 & Hm2 & Hr);
      [fold e1; lia|]. fold e1 in Hm2, Hr.
    exists m2. split; [|exact Hr]. left. split; [lia|].
    destruct Hm2 as [?|[? ?]]; auto.
  - destruct (shl_align_gt m e e1 ltac:(lia)) as (q & -> & Hq).
    assert (Hdq : Zpos (digits2_pos q) + e1 = Zpos (digits2_pos m) + e).
    { rewrite (digits2_pos_shift m (e - e1) q) by (lia || assumption). lia. }
    destruct (binary_round_aux_spec prec emax Hprec s q e1 loc_Exact) as (m2 & Hm2 & Hr).
    { rewrite Hdq. fold e1. lia. }
    rewrite Hdq in Hm2, Hr. fold e1 in Hm2, Hr.
    rewrite Z.sub_diag in Hm2. change (2 ^ 0) with 1 in Hm2.
    rewrite Z.div_1_r, Z.mod_1_r in Hm2.
    exists m2. split; [|exact Hr]. right. split; [lia|].
    destruct Hm2 as [->|[_ Hf]]; [exact Hq|]. exfalso. apply Hf; reflexivity.
Qed.

Lemma rounded_to_finite_in_format (s : bool) (m2 e1 : Z) (r : spec_float) :
  rounded_to prec emax s m2 e1 r ->
  match r with
  | S754_finite _ _ _ | S754_zero _ => in_format prec emax r
  | S754_infinity _ => True
  | S754_nan => False
  end.
Proof. destruct r; cbn; tauto. Qed.

Lemma SFconv_shape (x : spec_float) :
  match SFconv prec emax x with
  | S754_finite _ _ _ | S754_zero _ => in_format prec emax (SFconv prec emax x)
  | _ => True
  end.
Proof.
  destruct x as [s|s| |s m e]; cbn; trivial.
  destruct (binary_round_spec s m e) as (m2 & _ & Hr).
  apply rounded_to_finite_in_format in Hr.
  destruct (binary_round prec emax s m e); tauto.
Qed.

Lemma canonical_digits_le (m : positive) (e : Z) :
  canonical_mantissa prec emax m e = true -> Zpos (digits2_pos m) <= prec.
Proof. unfold canonical_mantissa, fexp. intros H%Z.eqb_eq. lia. Qed.

Lemma canonical_digits_eq (m : positive) (e : Z) :
  canonical_mantissa prec emax m e = true -> emin prec emax < e ->
  Zpos (digits2_pos m) = prec.
Proof. unfold canonical_mantissa, fexp. intros H%Z.eqb_eq. lia. Qed.

Lemma canonical_ge_emin (m : positive) (e : Z) :
  canonical_mantissa prec emax m e = true -> emin prec emax <= e.
Proof. unfold canonical_mantissa, fexp. intros H%Z.eqb_eq. lia. Qed.

End Round2.

(** ** The projection: half height and its double *)


Lemma F32_prec_pos : 0 < F32.prec.
Proof. reflexivity. Qed.

(** [INV_FACTOR / distance] for a positive finite distance of the format
    is an infinity or a positive number of the format, never zero. *)
Lemma half_height_unfold (m : positive) (e : Z) :
  in_format32 (S754_finite false m e) ->
  let d2 := Zpos (digits2_pos m) in
  half_height (S754_finite false m e) =
  binary_round_aux 24 128 false
    (9437184 * 2 ^ d2 / Zpos m) (-15 - e - d2)
    (new_location (Zpos m) ((9437184 * 2 ^ d2) mod Zpos m)).
Proof.
  intros [Hc He] d2.
  pose proof (canonical_digits_le _ _ _ _ Hc) as Hd.
  pose proof (canonical_ge_emin _ _ _ _ Hc) as Hmin.
  unfold F32.prec, F32.emax, emin in *. fold d2 in Hd.
  assert (Hd2 : 1 <= d2) by (subst d2; lia).
  unfold half_height, F32.div.
  change INV_FACTOR with (S754_finite false 9437184 (-15)).
  unfold SFdiv, SFdiv_core_binary. cbn [xorb Zdigits2].
  change (Zpos (digits2_pos 9437184)) with 24. fold d2.
  replace (Z.min (fexp F32.prec F32.emax (24 + -15 - (d2 + e))) (-15 - e))
    with (-15 - e - d2) by (unfold fexp, emin, F32.prec, F32.emax; lia).
  replace (-15 - e - (-15 - e - d2)) with d2 by lia.
  replace (match d2 with
           | 0 => 9437184
           | Zpos _ => Z.shiftl 9437184 d2
           | Zneg _ => 0
           end) with (9437184 * 2 ^ d2)
    by (rewrite Z.shiftl_mul_pow2 by lia; reflexivity).
  unfold Z.div, Z.modulo.
  destruct (Z.div_eucl (9437184 * 2 ^ d2) (Zpos m)) as [q r]. reflexivity.
Qed.

(** [INV_FACTOR / distance] for a positive finite distance of the format
    is an infinity or a positive number of the format, never zero. *)
Lemma half_height_shape (m : positive) (e : Z) :
  in_format32 (S754_finite false m e) ->
  half_height (S754_finite false m e) = S754_infinity false \/
  exists m3 e3, half_height (S754_finite false m e) = S754_finite false m3 e3 /\
                in_format32 (S754_finite false m3 e3).
Proof.
  intros Hf. rewrite (half_height_unfold m e Hf). cbv zeta.
  destruct Hf as [Hc He].
  pose proof (canonical_digits_le _ _ _ _ Hc) as Hd.
  pose proof (canonical_ge_emin _ _ _ _ Hc) as Hmin.
  pose proof (digits2_pos_spec m) as Hdig.
  set (d2 := Zpos (digits2_pos m)) in *.
  assert (Hd2 : 1 <= d2) by (subst d2; lia).
  unfold F32.prec, F32.emax, emin in *.
  assert (H2d : 0 < 2 ^ d2) by (apply Z.pow_pos_nonneg; lia).
  pose proof (Z.div_mod (9437184 * 2 ^ d2) (Zpos m) ltac:(lia)) as Heq.
  pose proof (Z.mod_pos_bound (9437184 * 2 ^ d2) (Zpos m) ltac:(lia)) as Hmod.
  set (q := 9437184 * 2 ^ d2 / Zpos m) in *.
  set (r := (9437184 * 2 ^ d2) mod Zpos m) in *.
  assert (Hq1 : 9437184 <= q) by nia.
  assert (Hq2 : q < 2 ^ 25).
  { assert (2 ^ d2 = 2 * 2 ^ (d2 - 1)).
    { replace d2 with (Z.succ (d2 - 1)) at 1 by lia. apply Z.pow_succ_r. lia. }
    change (2 ^ 25) with 33554432. nia. }
  destruct q as [|qp|qp]; [lia| |lia].
  pose proof (digits2_pos_spec qp) as Hdq.
  set (dq := Zpos (digits2_pos qp)) in *.
  assert (Hdq' : 24 <= dq <= 25).
  { split.
    - destruct (Z.le_gt_cases 24 dq); [assumption|exfalso].
      assert (2 ^ dq <= 2 ^ 23) by (apply Z.pow_le_mono_r; lia).
      change (2 ^ 23) with 8388608 in *. lia.
    - destruct (Z.le_gt_cases dq 25); [assumption|exfalso].
      assert (2 ^ 25 <= 2 ^ (dq - 1)) by (apply Z.pow_le_mono_r; lia). lia. }
  destruct (binary_round_aux_spec 24 128 F32_prec_pos false qp (-15 - e - d2)
              (new_location (Zpos m) r)) as (m2 & Hm2 & Hr).
  { fold dq. unfold fexp. lia. }
  fold dq in Hm2, Hr.
  set (e1 := fexp 24 128 (dq + (-15 - e - d2))) in *.
  assert (He1 : 0 <= e1 - (-15 - e - d2) <= 1) by (subst e1; unfold fexp, emin; lia).
  assert (Hpos : 0 < m2).
  { assert (0 < Zpos qp / 2 ^ (e1 - (-15 - e - d2))); [|lia].
    apply Z.div_str_pos. split; [apply Z.pow_pos_nonneg; lia|].
    assert (2 ^ (e1 - (-15 - e - d2)) <= 2 ^ 1) by (apply Z.pow_le_mono_r; lia).
    change (2 ^ 1) with 2 in *. lia. }
  destruct (binary_round_aux 24 128 false (Zpos qp) (-15 - e - d2) _)
    as [s'|s'| |s' m3 e3]; cbn [rounded_to] in Hr.
  - lia.
  - destruct Hr as (-> & _). left. reflexivity.
  - contradiction.
  - destruct Hr as (-> & _ & _ & Hc3 & He3). right. exists m3, e3.
    split; [reflexivity|]. split; assumption.
Qed.

(** The float constants 2, 100 and 200. *)
Lemma F32_of_Z_2 : F32.of_Z 2 = S754_finite false 8388608 (-22).
Proof. reflexivity. Qed.
Lemma F32_of_Z_100 : F32.of_Z 100 = S754_finite false 13107200 (-17).
Proof. reflexivity. Qed.
Lemma F32_of_Z_200 : F32.of_Z 200 = S754_finite false 13107200 (-16).
Proof. reflexivity. Qed.

(** Doubling a positive number of the format. *)
Lemma double_spec (m : positive) (e : Z) :
  in_format32 (S754_finite false m e) ->
  let e1 := Z.max (Zpos (digits2_pos m) + e - 23) (-149) in
  exists m2,
    Zpos m * 2 ^ 23 / 2 ^ (e1 - (e - 22)) <= m2 /\ 0 < m2 /\
    rounded_to 24 128 false m2 e1
      (F32.mul (S754_finite false m e) (F32.of_Z 2)).
Proof.
  intros [Hc He] e1.
  pose proof (canonical_ge_emin _ _ _ _ Hc) as Hmin.
  pose proof (digits2_pos_spec m) as Hdig.
  unfold F32.prec, F32.emax, emin in *.
  rewrite F32_of_Z_2. unfold F32.mul, SFmul. cbn [xorb].
  assert (HM : Zpos (m * 8388608) = Zpos m * 2 ^ 23) by (cbn; lia).
  pose proof (digits2_pos_shift m 23 (m * 8388608) ltac:(lia) HM) as HD.
  destruct (binary_round_aux_spec 24 128 F32_prec_pos false (m * 8388608) (e + -22)
              loc_Exact) as (m2 & Hm2 & Hr).
  { rewrite HD. unfold fexp. lia. }
  rewrite HD in Hm2, Hr.
  replace (fexp 24 128 (Zpos (digits2_pos m) + 23 + (e + -22))) with e1 in Hm2, Hr
    by (subst e1; unfold fexp, emin; lia).
  replace (e + -22) with (e - 22) in Hm2 by lia. rewrite HM in Hm2.
  exists m2.
  set (d := Zpos (digits2_pos m)) in *.
  assert (Hd1 : 1 <= d) by (subst d; lia).
  assert (Hn : 0 <= e1 - (e - 22) <= d + 22) by (subst e1; lia).
  assert (Hlow : 0 < Zpos m * 2 ^ 23 / 2 ^ (e1 - (e - 22))).
  { apply Z.div_str_pos. split; [apply Z.pow_pos_nonneg; lia|].
    assert (2 ^ (e1 - (e - 22)) <= 2 ^ (d + 22)) by (apply Z.pow_le_mono_r; lia).
    replace (d + 22) with (d - 1 + 23) in H by lia.
    rewrite Z.pow_add_r in H by lia.
    assert (0 < 2 ^ 23) by reflexivity. nia. }
  split; [|split]; [lia|lia|exact Hr].
Qed.

Lemma double_nonzero (m : positive) (e : Z) :
  in_format32 (S754_finite false m e) ->
  F32.eqb (F32.mul (S754_finite false m e) (F32.of_Z 2)) (F32.of_Z 0) = false.
Proof.
  intros Hf. destruct (double_spec m e Hf) as (m2 & _ & Hpos & Hr).
  destruct (F32.mul _ _) as [s'|s'| |s' m3 e3]; cbn [rounded_to] in Hr.
  - lia.
  - destruct Hr as (-> & _). reflexivity.
  - contradiction.
  - destruct Hr as (-> & _). reflexivity.
Qed.

Lemma ltb_100_inv (m : positive) (e : Z) :
  F32.ltb (F32.of_Z 100) (S754_finite false m e) = true ->
  -17 < e \/ (e = -17 /\ 13107200 < Zpos m).
Proof.
  rewrite F32_of_Z_100. unfold F32.ltb, SFltb, SFcompare.
  destruct (Z.compare_spec (-17) e) as [<-|Hlt|Hgt]; [|auto|discriminate].
  rewrite Pos.compare_cont_spec. cbn [Pos.switch_Eq].
  destruct (Pos.compare_spec 13107200 m) as [?|Hlt|?]; try discriminate.
  intros _. right. split; [reflexivity|]. lia.
Qed.

Lemma ltb_200_intro (m : positive) (e : Z) :
  -16 < e \/ (e = -16 /\ 13107200 < Zpos m) ->
  F32.ltb (F32.of_Z 200) (S754_finite false m e) = true.
Proof.
  rewrite F32_of_Z_200. unfold F32.ltb, SFltb, SFcompare.
  intros [Hlt|[-> Hm]].
  - rewrite (proj2 (Z.compare_lt_iff _ _) Hlt). reflexivity.
  - rewrite Z.compare_refl, Pos.compare_cont_spec. cbn [Pos.switch_Eq].
    rewrite (proj2 (Pos.compare_lt_iff 13107200 m)) by lia. reflexivity.
Qed.

(** A half-height above 100, doubled, is above 200. *)
Lemma double_gt_200 (m : positive) (e : Z) :
  in_format32 (S754_finite false m e) ->
  F32.ltb (F32.of_Z 100) (S754_finite false m e) = true ->
  F32.ltb (F32.of_Z 200) (F32.mul (S754_finite false m e) (F32.of_Z 2)) = true.
Proof.
  intros Hf Hgt.
  destruct (double_spec m e Hf) as (m2 & Hlow & Hpos & Hr).
  cbv zeta in Hlow, Hr.
  destruct Hf as [Hc He]. apply ltb_100_inv in Hgt.
  assert (Hdig : Zpos (digits2_pos m) = 24).
  { apply (canonical_digits_eq _ _ _ _ Hc). unfold emin, F32.prec, F32.emax. lia. }
  rewrite Hdig in Hlow, Hr.
  replace (Z.max (24 + e - 23) (-149)) with (e + 1) in Hlow, Hr by lia.
  replace (e + 1 - (e - 22)) with 23 in Hlow by lia.
  rewrite Z.div_mul in Hlow by (change (2 ^ 23) with 8388608; lia).
  destruct (F32.mul _ _) as [s'|s'| |s' m3 e3]; cbn [rounded_to] in Hr.
  - lia.
  - destruct Hr as (-> & _). reflexivity.
  - contradiction.
  - destruct Hr as (-> & He3 & Hm3 & _). apply ltb_200_intro.
    destruct (Z.eq_dec e3 (-16)) as [->|Hne]; [right|left; lia].
    split; [reflexivity|].
    assert (e = -17) by lia. subst e.
    replace (-16 - (-17 + 1)) with 0 in Hm3 by lia. change (2 ^ 0) with 1 in Hm3. lia.
Qed.

(** A number of the format whose integral part is at least 101 is above
    100. *)
Lemma trunc_ge_101_gt_100 (m : positive) (e z : Z) :
  in_format32 (S754_finite false m e) ->
  trunc_Z (S754_finite false m e) = Some z -> 101 <= z ->
  F32.ltb (F32.of_Z 100) (S754_finite false m e) = true.
Proof.
  intros [Hc He] Ht Hz.
  pose proof (canonical_digits_le _ _ _ _ Hc) as Hd.
  pose proof (digits2_pos_spec m) as [_ Hdig].
  unfold F32.prec in Hd.
  assert (Hm24 : Zpos m < 16777216).
  { assert (2 ^ Zpos (digits2_pos m) <= 2 ^ 24) by (apply Z.pow_le_mono_r; lia).
    change (2 ^ 24) with 16777216 in *. lia. }
  clear Hc He Hd Hdig.
  rewrite F32_of_Z_100. unfold F32.ltb, SFltb, SFcompare.
  cbn [trunc_Z cond_Zopp] in Ht. injection Ht as Ht.
  destruct (Z.compare_spec (-17) e) as [<-|Hlt|Hgt]; [|reflexivity|exfalso].
  - rewrite Pos.compare_cont_spec. cbn [Pos.switch_Eq].
    destruct (Pos.compare_spec 13107200 m) as [Heq|Hlt|Hgt]; [exfalso|reflexivity|exfalso].
    + subst m. vm_compute in Ht. lia.
    + rewrite Z.shiftr_div_pow2 in Ht by discriminate.
      change (2 ^ 17) with 131072 in Ht.
      assert (Hq : Zpos m / 131072 <= 100).
      { apply Z.div_le_upper_bound; [reflexivity|].
        apply Pos2Z.pos_lt_pos in Hgt. clear Ht Hz. lia. }
      rewrite Ht in Hq. clear Ht Hgt Hm24. lia.
  - destruct e as [|p|p]; try lia.
    rewrite Z.shiftr_div_pow2 in Ht by discriminate.
    assert (H18 : 2 ^ 18 <= 2 ^ Zpos p) by (apply Z.pow_le_mono_r; lia).
    change (2 ^ 18) with 262144 in H18.
    assert (Hq : Zpos m / 2 ^ Zpos p <= 64).
    { apply Z.div_le_upper_bound; [lia|]. clear Ht Hz Hgt. nia. }
    rewrite Ht in Hq. clear Ht Hgt Hm24 H18. lia.
Qed.

Lemma trunc_Z_nonneg (m : positive) (e : Z) :
  exists z, trunc_Z (S754_finite false m e) = Some z /\ 0 <= z.
Proof.
  cbn [trunc_Z cond_Zopp]. eexists. split; [reflexivity|].
  destruct e as [|p|p].
  - rewrite Z.shiftl_0_r. lia.
  - rewrite Z.shiftl_mul_pow2 by lia.
    assert (0 < 2 ^ Zpos p) by (apply Z.pow_pos_nonneg; lia). lia.
  - rewrite Z.shiftr_div_pow2 by lia. apply Z.div_pos; [lia|].
    apply Z.pow_pos_nonneg; lia.
Qed.

Lemma float_to_uint8_small (x : float32) (z : Z) :
  trunc_Z x = Some z -> 0 <= z <= 100 -> float_to_uint8 x = z.
Proof.
  intros Ht Hz. unfold float_to_uint8, float_to_int. rewrite Ht.
  replace (INT_MIN <=? z) with true
    by (symmetry; apply Z.leb_le; unfold INT_MIN; lia).
  replace (z <? 2 ^ 31) with true by (symmetry; apply Z.ltb_lt; lia).
  cbn [andb]. apply Z.mod_small. lia.
Qed.

(** The half height written to screenY: within [0, HORIZON_HEIGHT], and
    HORIZON_HEIGHT whenever INV_FACTOR / distance is above it. *)
Lemma project_screenY (hitOffset : float32) (hitDirection : Z) (distance : float32) :
  format_or_special distance ->
  0 <= screenY (project hitOffset hitDirection distance) <= HORIZON_HEIGHT /\
  (F32.ltb (F32.of_Z 0) distance = true ->
   F32.ltb (F32.of_Z HORIZON_HEIGHT) (half_height distance) = true ->
   screenY (project hitOffset hitDirection distance) = HORIZON_HEIGHT).
Proof.
  intros Hfmt. unfold project.
  change (F32.of_Z SCREEN_HEIGHT) with (F32.of_Z 200).
  change (F32.of_Z HORIZON_HEIGHT) with (F32.of_Z 100).
  change HORIZON_HEIGHT with 100.
  destruct (F32.ltb (F32.of_Z 0) distance) eqn:Hpos;
    [|cbn [screenY]; split; [lia|discriminate]].
  destruct distance as [s|s| |s m e]; try discriminate.
  - (* an infinite distance: the half height is 0 *)
    destruct s; [discriminate|].
    split; [vm_compute; split; discriminate|].
    intros _ H. vm_compute in H. discriminate.
  - destruct s; [discriminate|]. cbn [format_or_special] in Hfmt.
    destruct (half_height_shape m e Hfmt) as [Hinf|(m3 & e3 & Hfin & Hf3)].
    + rewrite Hinf. split; [vm_compute; split; discriminate|reflexivity].
    + rewrite Hfin. rewrite (double_nonzero m3 e3 Hf3). cbn [negb].
      destruct (F32.ltb (F32.of_Z 200) _) eqn:H200; cbn [screenY].
      * split; [lia|reflexivity].
      * destruct (trunc_Z_nonneg m3 e3) as (z & Ht & Hz).
        assert (Hle : z <= 100).
        { destruct (Z.le_gt_cases z 100) as [|Hgt]; [assumption|exfalso].
          pose proof (trunc_ge_101_gt_100 m3 e3 z Hf3 Ht ltac:(lia)) as H100.
          rewrite (double_gt_200 m3 e3 Hf3 H100) in H200. discriminate. }
        rewrite (float_to_uint8_small _ z Ht) by lia.
        split; [lia|]. intros _ H100.
        rewrite (double_gt_200 m3 e3 Hf3 H100) in H200. discriminate.
Qed.

Lemma D2F_format_or_special (x : float64) : format_or_special (D2F x).
Proof.
  pose proof (SFconv_shape F32.prec F32.emax F32_prec_pos x) as H.
  unfold D2F, format_or_special.
  destruct (SFconv F32.prec F32.emax x); tauto.
Qed.

Lemma cast_ray_distance_format (libm : Libm) (g_map : list Z) (fuel : nat)
    (rc : RayCasterFloat) (screenX : Z) (ray : Ray) :
  cast_ray libm g_map fuel rc screenX = Some ray ->
  format_or_special (r_distance ray).
Proof.
  unfold cast_ray.
  destruct (distance_run _ _ _ _ _ _) as [run|]; [|discriminate].
  cbn [mbind option_bind]. intros [= <-]. cbn [r_distance].
  apply D2F_format_or_special.
Qed.

(** C4: the screenY that Trace returns satisfies
    0 <= screenY <= HORIZON_HEIGHT, and whenever the half height
    INV_FACTOR / distance is above HORIZON_HEIGHT the returned screenY is
    exactly HORIZON_HEIGHT. *)
Theorem Trace_screenY_bounds (libm : Libm) (g_map : list Z) (fuel : nat)
    (rc rc' : RayCasterFloat) (screenX : Z) (out : TraceResult) :
  RayCasterFloatTrace libm g_map fuel rc screenX = Some (out, rc') ->
  0 <= screenY out <= HORIZON_HEIGHT /\
  HORIZON_HEIGHT = 100 /\
  exists ray,
    cast_ray libm g_map fuel rc screenX = Some ray /\
    (F32.ltb (F32.of_Z 0) (r_distance ray) = true ->
     F32.ltb (F32.of_Z HORIZON_HEIGHT) (half_height (r_distance ray)) = true ->
     screenY out = HORIZON_HEIGHT).
Proof.
  intros H. apply Trace_inv in H as [-> (ray & Hc & ->)].
  pose proof (cast_ray_distance_format _ _ _ _ _ _ Hc) as Hfmt.
  destruct (project_screenY (d_hitOffset (r_run ray)) (d_hitDirection (r_run ray))
              (r_distance ray) Hfmt) as [Hb Hclamp].
  split; [exact Hb|]. split; [reflexivity|].
  exists ray. split; [exact Hc|exact Hclamp].
Qed.

Lemma Trace_screenY_bounds_witness :
  exists out,
    RayCasterFloatTrace libm_sample zero_map 101 (corner_pose 128) 160
      = Some (out, corner_pose 128) /\
    0 <= screenY out <= HORIZON_HEIGHT.
Proof.
  destruct (RayCasterFloatTrace libm_sample zero_map 101 (corner_pose 128) 160)
    as [[out rc']|] eqn:Ht; [|vm_compute in Ht; discriminate].
  assert (Hrc : rc' = corner_pose 128).
  { vm_compute in Ht. injection Ht as _ <-. reflexivity. }
  subst rc'. exists out. split; [reflexivity|].
  exact (proj1 (Trace_screenY_bounds _ _ _ _ _ _ _ Ht)).
Defined.

(** ** Monotone rounding *)

Lemma pow2_pos (k : Z) : 0 <= k -> 0 < 2 ^ k.
Proof. intros. apply Z.pow_pos_nonneg; lia. Qed.

Lemma pow2_split (a b : Z) : 0 <= b <= a -> 2 ^ a = 2 ^ (a - b) * 2 ^ b.
Proof. intros. rewrite <- Z.pow_add_r by lia. f_equal. lia. Qed.

Section Bounds.
Variables prec emax : Z.
Hypothesis Hfmt : format_ok prec emax.

Lemma format_ok_prec : 0 < prec.
Proof. exact (proj1 Hfmt). Qed.

Lemma in_format_exp_ge (s : bool) (m : positive) (e : Z) :
  in_format prec emax (S754_finite s m e) -> - scale_K <= e.
Proof.
  intros [Hc _]. apply canonical_ge_emin in Hc. pose proof Hfmt as (_ & _ & ?). lia.
Qed.

(** From a bound on the rounded mantissa to a bound on the result. *)
Lemma rounded_to_bound (s : bool) (m2 e1 b : Z) (r : spec_float) :
  rounded_to prec emax s m2 e1 r ->
  emin prec emax <= e1 <= 0 ->
  m2 * 2 ^ (e1 + scale_K) <= b * 2 ^ scale_K ->
  in_format prec emax r /\ sign_of r = s /\ mag r <= b * 2 ^ scale_K.
Proof.
  intros Hr He1 Hm2b. pose proof Hfmt as (Hprec & Hemax & Hemin).
  destruct r as [s'|s'| |s' m3 e3]; cbn [rounded_to] in Hr.
  - destruct Hr as [-> ->]. cbn. repeat split. lia.
  - exfalso. lia.
  - contradiction.
  - destruct Hr as (-> & He3 & Hm3 & Hc & Hmax). cbn [in_format sign_of mag].
    repeat split; try assumption.
    replace (Zpos m3 * 2 ^ (e3 + scale_K)) with (m2 * 2 ^ (e1 + scale_K)); [exact Hm2b|].
    rewrite <- Hm3, <- Z.mul_assoc, <- Z.pow_add_r by lia. do 2 f_equal. lia.
Qed.

(** A value below [2 ^ prec] has a target exponent that is not positive. *)
Lemma fexp_le_0 (m : positive) (e b : Z) :
  - scale_K <= e -> 0 < b < 2 ^ prec ->
  Zpos m * 2 ^ (e + scale_K) <= b * 2 ^ scale_K ->
  emin prec emax <= fexp prec emax (Zpos (digits2_pos m) + e) <= 0.
Proof.
  intros He Hb Hle. pose proof Hfmt as (Hprec & Hemax & Hemin).
  pose proof (digits2_pos_spec m) as [Hd1 Hd2].
  set (d := Zpos (digits2_pos m)) in *.
  assert (Hd0 : 1 <= d) by (subst d; lia).
  assert (HK : 0 < 2 ^ scale_K) by (apply pow2_pos; unfold scale_K; lia).
  assert (HeK : 0 < 2 ^ (e + scale_K)) by (apply pow2_pos; lia).
  assert (Hde : d + e <= prec).
  { destruct (Z.le_gt_cases (d + e) prec) as [|Hgt]; [assumption|exfalso].
    assert (H1 : 2 ^ (prec + scale_K) <= 2 ^ (d - 1 + (e + scale_K)))
      by (apply Z.pow_le_mono_r; lia).
    rewrite !Z.pow_add_r in H1 by (unfold scale_K in *; lia).
    assert (2 ^ prec * 2 ^ scale_K <= Zpos m * 2 ^ (e + scale_K)) by nia.
    nia. }
  unfold fexp. unfold emin in *. lia.
Qed.

(** Cutting [M] down by [n] bits and rounding stays below a bound [Bq]
    on the quotient, provided a round-up only happens below the bound. *)
Lemma cut_bound (M n m2 Bq : Z) :
  0 <= n -> 0 <= M -> M <= Bq * 2 ^ n ->
  (m2 = M / 2 ^ n \/ (m2 = M / 2 ^ n + 1 /\ M / 2 ^ n < Bq)) ->
  m2 <= Bq.
Proof.
  intros Hn HM HB Hm2.
  assert (H2n : 0 < 2 ^ n) by (apply pow2_pos; lia).
  pose proof (Z.div_mod M (2 ^ n) ltac:(lia)) as Hdm.
  pose proof (Z.mod_pos_bound M (2 ^ n) ltac:(lia)) as Hmb.
  destruct Hm2 as [->|[-> Hlt]]; [|lia]. nia.
Qed.

Lemma cut_strict (M n Bq : Z) :
  0 <= n -> M <= Bq * 2 ^ n -> M mod 2 ^ n <> 0 -> M / 2 ^ n < Bq.
Proof.
  intros Hn HB Hnz.
  assert (H2n : 0 < 2 ^ n) by (apply pow2_pos; lia).
  pose proof (Z.div_mod M (2 ^ n) ltac:(lia)) as Hdm.
  pose proof (Z.mod_pos_bound M (2 ^ n) ltac:(lia)) as Hmb. nia.
Qed.

(** The bound on the scale of the target exponent. *)
Lemma bound_at_exponent (b e1 : Z) :
  - scale_K <= e1 <= 0 ->
  b * 2 ^ scale_K = b * 2 ^ (- e1) * 2 ^ (e1 + scale_K).
Proof.
  intros H. rewrite <- Z.mul_assoc, <- Z.pow_add_r by lia. do 2 f_equal. lia.
Qed.

(** Rounding is monotone: a bound that is an integer below [2 ^ prec]
    bounds the rounded number as well. *)
Theorem binary_round_aux_bound (s : bool) (m : positive) (e b : Z) :
  - scale_K <= e -> 0 < b < 2 ^ prec ->
  e <= fexp prec emax (Zpos (digits2_pos m) + e) ->
  Zpos m * 2 ^ (e + scale_K) <= b * 2 ^ scale_K ->
  let r := binary_round_aux prec emax s (Zpos m) e loc_Exact in
  in_format prec emax r /\ sign_of r = s /\ mag r <= b * 2 ^ scale_K.
Proof.
  intros He Hb Hee Hle r. pose proof Hfmt as (Hprec & Hemax & Hemin).
  destruct (binary_round_aux_spec prec emax Hprec s m e loc_Exact Hee) as (m2 & Hm2 & Hr).
  fold r in Hr.
  pose proof (fexp_le_0 m e b He Hb Hle) as He1.
  set (e1 := fexp prec emax (Zpos (digits2_pos m) + e)) in *.
  apply (rounded_to_bound s m2 e1 b r Hr He1).
  rewrite (bound_at_exponent b e1) by lia.
  assert (He1K : 0 < 2 ^ (e1 + scale_K)) by (apply pow2_pos; lia).
  apply Z.mul_le_mono_nonneg_r; [lia|].
  set (n := e1 - e) in *.
  assert (HeKs : 2 ^ (e1 + scale_K) = 2 ^ n * 2 ^ (e + scale_K)).
  { rewrite <- Z.pow_add_r by lia. f_equal. lia. }
  assert (HeK : 0 < 2 ^ (e + scale_K)) by (apply pow2_pos; lia).
  assert (Hn : 0 < 2 ^ n) by (apply pow2_pos; lia).
  assert (HmB : Zpos m <= b * 2 ^ (- e1) * 2 ^ n).
  { rewrite (bound_at_exponent b e1), HeKs in Hle by lia. nia. }
  apply (cut_bound (Zpos m) n); [lia|lia|exact HmB|].
  destruct Hm2 as [->|[-> Hnz]]; [left; reflexivity|right].
  split; [reflexivity|]. apply cut_strict; [lia|exact HmB|auto].
Qed.

Theorem binary_round_bound (s : bool) (m : positive) (e b : Z) :
  - scale_K <= e -> 0 < b < 2 ^ prec ->
  Zpos m * 2 ^ (e + scale_K) <= b * 2 ^ scale_K ->
  let r := binary_round prec emax s m e in
  in_format prec emax r /\ sign_of r = s /\ mag r <= b * 2 ^ scale_K.
Proof.
  intros He Hb Hle r. subst r. unfold binary_round.
  pose proof (fexp_le_0 m e b He Hb Hle) as He1.
  pose proof Hfmt as (Hprec & Hemax & Hemin).
  set (e1 := fexp prec emax (Zpos (digits2_pos m) + e)) in *.
  destruct (Z_le_gt_dec e e1) as [Hlee|Hgt].
  - rewrite shl_align_le by exact Hlee.
    apply binary_round_aux_bound; assumption.
  - destruct (shl_align_gt m e e1 ltac:(lia)) as (q & -> & Hq).
    assert (Hdq : Zpos (digits2_pos q) + e1 = Zpos (digits2_pos m) + e).
    { rewrite (digits2_pos_shift m (e - e1) q) by (lia || assumption). lia. }
    apply binary_round_aux_bound; try assumption; try lia.
    + rewrite Hdq. fold e1. lia.
    + rewrite Hq. replace (Zpos m * 2 ^ (e - e1) * 2 ^ (e1 + scale_K))
        with (Zpos m * 2 ^ (e + scale_K)); [exact Hle|].
      rewrite <- Z.mul_assoc, <- Z.pow_add_r by lia. do 2 f_equal. lia.
Qed.

Lemma SFconv_bound (x : spec_float) (b : Z) :
  (match x with S754_finite _ _ e => - scale_K <= e | S754_zero _ => True | _ => False end) ->
  0 < b < 2 ^ prec -> mag x <= b * 2 ^ scale_K ->
  in_format prec emax (SFconv prec emax x) /\
  sign_of (SFconv prec emax x) = sign_of x /\
  mag (SFconv prec emax x) <= b * 2 ^ scale_K.
Proof.
  intros Hx Hb Hm. destruct x as [s|s| |s m e]; try contradiction.
  - cbn. repeat split. apply Z.mul_nonneg_nonneg; [lia|]. apply Z.pow_nonneg. lia.
  - cbn [SFconv sign_of]. apply binary_round_bound; assumption.
Qed.

Theorem binary_normalize_bound (z e b : Z) :
  - scale_K <= e -> 0 < b < 2 ^ prec ->
  Z.abs z * 2 ^ (e + scale_K) <= b * 2 ^ scale_K ->
  let r := binary_normalize prec emax z e false in
  in_format prec emax r /\ sign_of r = (z <? 0) /\ mag r <= b * 2 ^ scale_K.
Proof.
  intros He Hb Hle r. subst r. destruct z as [|p|p]; cbn [binary_normalize].
  - cbn. repeat split. apply Z.mul_nonneg_nonneg; [lia|]. apply Z.pow_nonneg. lia.
  - apply binary_round_bound; assumption.
  - apply binary_round_bound; assumption.
Qed.

Lemma shl_align_fst (mx : positive) (ex ez : Z) :
  ez <= ex -> Zpos (fst (shl_align mx ex ez)) = Zpos mx * 2 ^ (ex - ez).
Proof.
  intros H. destruct (Z.eq_dec ex ez) as [->|Hne].
  - rewrite shl_align_le by lia. rewrite Z.sub_diag. cbn. lia.
  - destruct (shl_align_gt mx ex ez ltac:(lia)) as (q & -> & Hq). exact Hq.
Qed.

Lemma aligned_sval (s : bool) (m : positive) (e ez : Z) :
  - scale_K <= ez -> ez <= e ->
  cond_Zopp s (Zpos (fst (shl_align m e ez))) * 2 ^ (ez + scale_K)
  = sval (S754_finite s m e).
Proof.
  intros H1 H2. rewrite shl_align_fst by assumption. cbn [sval].
  assert (2 ^ (e + scale_K) = 2 ^ (e - ez) * 2 ^ (ez + scale_K)).
  { rewrite <- Z.pow_add_r by lia. f_equal. lia. }
  destruct s; cbn [cond_Zopp]; nia.
Qed.

(** Sum and difference of two finite numbers. *)
Theorem SFadd_bound (sx sy : bool) (mx my : positive) (ex ey b : Z) :
  - scale_K <= ex -> - scale_K <= ey -> 0 < b < 2 ^ prec ->
  let S := sval (S754_finite sx mx ex) + sval (S754_finite sy my ey) in
  Z.abs S <= b * 2 ^ scale_K ->
  let r := SFadd prec emax (S754_finite sx mx ex) (S754_finite sy my ey) in
  in_format prec emax r /\ sign_of r = (S <? 0) /\ mag r <= b * 2 ^ scale_K.
Proof.
  intros Hex Hey Hb S HS r. subst r. cbn [SFadd].
  set (ez := Z.min ex ey).
  set (z := cond_Zopp sx (Zpos (fst (shl_align mx ex ez))) +
            cond_Zopp sy (Zpos (fst (shl_align my ey ez)))).
  assert (HzS : z * 2 ^ (ez + scale_K) = S).
  { subst z S. rewrite Z.mul_add_distr_r.
    rewrite !aligned_sval by (subst ez; lia). reflexivity. }
  assert (HeK : 0 < 2 ^ (ez + scale_K)) by (apply pow2_pos; subst ez; lia).
  destruct (binary_normalize_bound z ez b) as (H1 & H2 & H3);
    [subst ez; lia|assumption| |].
  - rewrite <- HzS in HS. rewrite Z.abs_mul in HS.
    rewrite (Z.abs_eq (2 ^ _)) in HS by lia. exact HS.
  - repeat split; try assumption. rewrite H2.
    destruct (Z.ltb_spec z 0), (Z.ltb_spec S 0); try reflexivity; exfalso; nia.
Qed.

Theorem SFsub_bound (sx sy : bool) (mx my : positive) (ex ey b : Z) :
  - scale_K <= ex -> - scale_K <= ey -> 0 < b < 2 ^ prec ->
  let S := sval (S754_finite sx mx ex) - sval (S754_finite sy my ey) in
  Z.abs S <= b * 2 ^ scale_K ->
  let r := SFsub prec emax (S754_finite sx mx ex) (S754_finite sy my ey) in
  in_format prec emax r /\ sign_of r = (S <? 0) /\ mag r <= b * 2 ^ scale_K.
Proof.
  intros Hex Hey Hb S HS r. subst r. cbn [SFsub].
  set (ez := Z.min ex ey).
  set (z := cond_Zopp sx (Zpos (fst (shl_align mx ex ez))) -
            cond_Zopp sy (Zpos (fst (shl_align my ey ez)))).
  assert (HzS : z * 2 ^ (ez + scale_K) = S).
  { subst z S. rewrite Z.mul_sub_distr_r.
    rewrite !aligned_sval by (subst ez; lia). reflexivity. }
  assert (HeK : 0 < 2 ^ (ez + scale_K)) by (apply pow2_pos; subst ez; lia).
  destruct (binary_normalize_bound z ez b) as (H1 & H2 & H3);
    [subst ez; lia|assumption| |].
  - rewrite <- HzS in HS. rewrite Z.abs_mul in HS.
    rewrite (Z.abs_eq (2 ^ _)) in HS by lia. exact HS.
  - repeat split; try assumption. rewrite H2.
    destruct (Z.ltb_spec z 0), (Z.ltb_spec S 0); try reflexivity; exfalso; nia.
Qed.

End Bounds.

Lemma digits2_pos_ge (m : positive) (k : Z) :
  2 ^ (k - 1) <= Zpos m -> k <= Zpos (digits2_pos m).
Proof.
  intros H. pose proof (digits2_pos_spec m) as [_ Hd].
  destruct (Z.le_gt_cases k (Zpos (digits2_pos m))) as [|Hgt]; [assumption|exfalso].
  assert (2 ^ Zpos (digits2_pos m) <= 2 ^ (k - 1)) by (apply Z.pow_le_mono_r; lia).
  lia.
Qed.

Lemma digits2_pos_le (m : positive) (k : Z) :
  0 <= k -> Zpos m < 2 ^ k -> Zpos (digits2_pos m) <= k.
Proof.
  intros Hk H. pose proof (digits2_pos_spec m) as [Hd _].
  destruct (Z.le_gt_cases (Zpos (digits2_pos m)) k) as [|Hgt]; [assumption|exfalso].
  assert (2 ^ k <= 2 ^ (Zpos (digits2_pos m) - 1)) by (apply Z.pow_le_mono_r; lia).
  lia.
Qed.

Lemma new_location_exact (nb k : Z) : new_location nb k = loc_Exact -> k = 0.
Proof.
  unfold new_location, new_location_even, new_location_odd.
  destruct (Z.even nb); destruct (Z.eqb_spec k 0); auto; discriminate.
Qed.

Lemma scale_K_pos : 0 < scale_K.
Proof. reflexivity. Qed.

Section Bounds2.
Variables prec emax : Z.
Hypothesis Hfmt : format_ok prec emax.

(** The product with a normal number. *)
Theorem SFmul_bound (sx sy : bool) (mx my : positive) (ex ey a c : Z) :
  - scale_K <= ex -> - scale_K <= ey -> - scale_K <= ex + ey ->
  Zpos (digits2_pos my) = prec ->
  0 < a -> 0 < c -> a * c < 2 ^ prec ->
  Zpos mx * 2 ^ (ex + scale_K) <= a * 2 ^ scale_K ->
  Zpos my * 2 ^ (ey + scale_K) <= c * 2 ^ scale_K ->
  let r := SFmul prec emax (S754_finite sx mx ex) (S754_finite sy my ey) in
  in_format prec emax r /\ sign_of r = xorb sx sy /\ mag r <= a * c * 2 ^ scale_K.
Proof.
  intros Hex Hey Hexy Hdy Ha Hc Hac Hx Hy r. subst r. cbn [SFmul].
  pose proof Hfmt as (Hprec & Hemax & Hemin). pose proof scale_K_pos as HKpos.
  assert (HK : 0 < 2 ^ scale_K) by (apply pow2_pos; unfold scale_K; lia).
  assert (H1 : 0 < 2 ^ (ex + scale_K)) by (apply pow2_pos; lia).
  assert (H2 : 0 < 2 ^ (ey + scale_K)) by (apply pow2_pos; lia).
  assert (H3 : 0 < 2 ^ (ex + ey + scale_K)) by (apply pow2_pos; lia).
  assert (H4 : 2 ^ (ex + scale_K) * 2 ^ (ey + scale_K)
               = 2 ^ (ex + ey + scale_K) * 2 ^ scale_K).
  { rewrite <- !Z.pow_add_r by lia. f_equal. lia. }
  apply (binary_round_aux_bound prec emax Hfmt); [lia|split; [nia|lia]| |].
  - pose proof (digits2_pos_spec my) as [Hd _]. rewrite Hdy in Hd.
    assert (prec <= Zpos (digits2_pos (mx * my))).
    { apply digits2_pos_ge. rewrite Pos2Z.inj_mul. nia. }
    unfold fexp. lia.
  - rewrite Pos2Z.inj_mul.
    assert (Zpos mx * 2 ^ (ex + scale_K) * (Zpos my * 2 ^ (ey + scale_K))
            <= a * 2 ^ scale_K * (c * 2 ^ scale_K)).
    { apply Z.mul_le_mono_nonneg; lia. }
    nia.
Qed.

(** The quotient of a number of the format by a finite number, when the
    quotient is in the normal range. *)
Theorem SFdiv_bound (sx sy : bool) (mx my : positive) (ex ey b : Z) :
  - scale_K <= ex -> - scale_K <= ey ->
  Zpos (digits2_pos mx) <= prec ->
  emin prec emax <=
    Zpos (digits2_pos mx) + ex - (Zpos (digits2_pos my) + ey) - prec ->
  0 < b < 2 ^ prec ->
  Zpos mx * 2 ^ (ex + scale_K) <= b * (Zpos my * 2 ^ (ey + scale_K)) ->
  let r := SFdiv prec emax (S754_finite sx mx ex) (S754_finite sy my ey) in
  in_format prec emax r /\ sign_of r = xorb sx sy /\ mag r <= b * 2 ^ scale_K.
Proof.
  intros Hex Hey Hd1 Hnorm Hb Hle r. subst r.
  pose proof Hfmt as (Hprec & Hemax & Hemin). pose proof scale_K_pos as HKpos.
  pose proof (digits2_pos_spec mx) as [Hx1 Hx2].
  pose proof (digits2_pos_spec my) as [Hy1 Hy2].
  unfold SFdiv, SFdiv_core_binary. cbn [Zdigits2].
  set (d1 := Zpos (digits2_pos mx)) in *.
  set (d2 := Zpos (digits2_pos my)) in *.
  assert (Hd1' : 1 <= d1) by (subst d1; lia).
  assert (Hd2' : 1 <= d2) by (subst d2; lia).
  replace (Z.min (fexp prec emax (d1 + ex - (d2 + ey))) (ex - ey))
    with (d1 + ex - (d2 + ey) - prec) by (unfold fexp; lia).
  set (e' := d1 + ex - (d2 + ey) - prec).
  set (s := ex - ey - e').
  assert (Hs : s = prec - d1 + d2) by (subst s e'; lia).
  assert (Hs1 : 1 <= s) by lia.
  replace (match s with
           | 0 => Zpos mx
           | Zpos _ => Z.shiftl (Zpos mx) s
           | Zneg _ => 0
           end) with (Zpos mx * 2 ^ s)
    by (destruct s; try lia; rewrite Z.shiftl_mul_pow2 by lia; reflexivity).
  assert (H2s : 0 < 2 ^ s) by (apply pow2_pos; lia).
  pose proof (Z.div_mod (Zpos mx * 2 ^ s) (Zpos my) ltac:(lia)) as Hdm.
  pose proof (Z.mod_pos_bound (Zpos mx * 2 ^ s) (Zpos my) ltac:(lia)) as Hmb.
  unfold Z.div, Z.modulo in Hdm, Hmb.
  destruct (Z.div_eucl (Zpos mx * 2 ^ s) (Zpos my)) as [q r].
  (* the quotient has at least prec digits *)
  assert (Hqlow : 2 ^ (prec - 1) <= q).
  { assert (Hp : 2 ^ (d1 - 1) * 2 ^ s = 2 ^ (prec - 1) * 2 ^ d2).
    { rewrite <- !Z.pow_add_r by lia. f_equal. lia. }
    assert (0 < 2 ^ (prec - 1)) by (apply pow2_pos; lia).
    assert (2 ^ (prec - 1) * Zpos my < Zpos my * q + Zpos my) by nia.
    nia. }
  assert (Hq0 : 0 < q).
  { assert (0 < 2 ^ (prec - 1)) by (apply pow2_pos; lia). lia. }
  destruct q as [|qp|qp]; [lia| |lia].
  assert (Hdq : prec <= Zpos (digits2_pos qp)) by (apply digits2_pos_ge; exact Hqlow).
  (* the scaled bound on the quotient *)
  assert (HK : 0 < 2 ^ scale_K) by (apply pow2_pos; unfold scale_K; lia).
  assert (HxK : 0 < 2 ^ (ex + scale_K)) by (apply pow2_pos; lia).
  assert (HyK : 0 < 2 ^ (ey + scale_K)) by (apply pow2_pos; lia).
  assert (Hq1 : Zpos qp * 2 ^ (ex + scale_K) <= b * 2 ^ (ey + scale_K) * 2 ^ s).
  { assert (Zpos my * (Zpos qp * 2 ^ (ex + scale_K))
            <= Zpos my * (b * 2 ^ (ey + scale_K) * 2 ^ s)); [|nia].
    nia. }
  assert (Hq1s : r <> 0 ->
                 Zpos qp * 2 ^ (ex + scale_K) < b * 2 ^ (ey + scale_K) * 2 ^ s).
  { intros Hr.
    assert (Zpos my * (Zpos qp * 2 ^ (ex + scale_K))
            < Zpos my * (b * 2 ^ (ey + scale_K) * 2 ^ s)); [|nia].
    nia. }
  assert (He'0 : e' <= 0).
  { destruct (Z.le_gt_cases e' 0) as [|Hgt]; [assumption|exfalso].
    assert (Hsp : 2 ^ (ex + scale_K) = 2 ^ e' * (2 ^ (ey + scale_K) * 2 ^ s)).
    { rewrite <- !Z.pow_add_r by lia. f_equal. subst s. lia. }
    assert (2 ^ 1 <= 2 ^ e') by (apply Z.pow_le_mono_r; lia).
    change (2 ^ 1) with 2 in *.
    assert (2 ^ prec = 2 * 2 ^ (prec - 1)).
    { replace prec with (Z.succ (prec - 1)) at 1 by lia. apply Z.pow_succ_r. lia. }
    rewrite Hsp in Hq1.
    assert (0 < 2 ^ (ey + scale_K) * 2 ^ s) by nia.
    assert (Zpos qp * 2 ^ e' <= b) by nia.
    nia. }
  assert (He'K : - scale_K <= e') by (subst e'; lia).
  assert (Hsp : 2 ^ (ey + scale_K) * 2 ^ s = 2 ^ (- e') * 2 ^ (ex + scale_K)).
  { rewrite <- !Z.pow_add_r by lia. f_equal. subst s. lia. }
  assert (Hne' : 0 < 2 ^ (- e')) by (apply pow2_pos; lia).
  assert (Hq2 : Zpos qp <= b * 2 ^ (- e')) by nia.
  assert (Hq2s : r <> 0 -> Zpos qp < b * 2 ^ (- e')).
  { intros Hr. specialize (Hq1s Hr). nia. }
  (* the target exponent *)
  set (dq := Zpos (digits2_pos qp)) in *.
  assert (Hdq2 : dq <= prec - e').
  { apply digits2_pos_le; [lia|].
    assert (b * 2 ^ (- e') < 2 ^ prec * 2 ^ (- e')) by nia.
    rewrite <- Z.pow_add_r in H by lia.
    replace (prec + - e') with (prec - e') in H by lia. lia. }
  destruct (binary_round_aux_spec prec emax Hprec (xorb sx sy) qp e'
              (new_location (Zpos my) r)) as (m2 & Hm2 & Hr).
  { fold dq. unfold fexp. lia. }
  fold dq in Hm2, Hr.
  set (e1 := fexp prec emax (dq + e')) in *.
  assert (He1 : emin prec emax <= e1 <= 0) by (subst e1; unfold fexp; lia).
  assert (He1e : e' <= e1) by (subst e1; unfold fexp; lia).
  apply (rounded_to_bound prec emax Hfmt _ m2 e1 b _ Hr He1).
  rewrite (bound_at_exponent b e1) by lia.
  assert (He1K : 0 < 2 ^ (e1 + scale_K)) by (apply pow2_pos; lia).
  apply Z.mul_le_mono_nonneg_r; [lia|].
  assert (Hbs : b * 2 ^ (- e') = b * 2 ^ (- e1) * 2 ^ (e1 - e')).
  { rewrite <- Z.mul_assoc, <- Z.pow_add_r by lia. do 2 f_equal. lia. }
  apply (cut_bound (Zpos qp) (e1 - e')); [lia|lia|lia|].
  destruct Hm2 as [->|[-> Hnz]]; [left; reflexivity|right].
  split; [reflexivity|].
  destruct (Z.eq_dec r 0) as [Hr0|Hr0].
  - apply cut_strict; [lia|lia|]. apply Hnz. subst r.
    unfold new_location, new_location_even, new_location_odd.
    destruct (Z.even (Zpos my)); reflexivity.
  - apply Z.div_lt_upper_bound; [apply pow2_pos; lia|].
    specialize (Hq2s Hr0). rewrite Hbs in Hq2s. lia.
Qed.

End Bounds2.

(** ** Wrapping the ray angle *)

Lemma fmt32 : format_ok F32.prec F32.emax.
Proof. repeat split; vm_compute; congruence. Qed.

Lemma fmt64 : format_ok F64.prec F64.emax.
Proof. repeat split; vm_compute; congruence. Qed.

Lemma TWO_PI_eq : TWO_PI = S754_finite false 7074237752028440 (-50).
Proof. reflexivity. Qed.

Lemma TWO_PI_sval :
  6 * 2 ^ scale_K < sval TWO_PI <= 7 * 2 ^ scale_K.
Proof. split; vm_compute; congruence. Qed.

Lemma tame32_mono (b b' : Z) (x : float32) : b <= b' -> tame32 b x -> tame32 b' x.
Proof.
  intros Hb [H1 H2]. split; [exact H1|].
  assert (0 < 2 ^ scale_K) by (apply pow2_pos; pose proof scale_K_pos; lia). nia.
Qed.

Lemma mag_nonneg (x : spec_float) : 0 <= mag x.
Proof.
  destruct x as [s|s| |s m e]; cbn [mag]; lia.
Qed.

Lemma sval_mag (s : bool) (m : positive) (e : Z) :
  sval (S754_finite s m e) = cond_Zopp s (mag (S754_finite s m e)).
Proof. reflexivity. Qed.

Lemma in_format_finite_exp (prec emax : Z) (x : spec_float) :
  format_ok prec emax -> in_format prec emax x ->
  match x with S754_finite _ _ e => - scale_K <= e | S754_zero _ => True | _ => False end.
Proof.
  intros Hf Hx. destruct x as [s|s| |s m e]; try exact Hx; try exact I.
  exact (in_format_exp_ge prec emax Hf s m e Hx).
Qed.

(** Promotion and the rounding store keep a bound. *)
Lemma F2D_bound (x : float32) (b : Z) :
  tame32 b x -> 0 < b < 2 ^ 24 ->
  in_format64 (F2D x) /\ sign_of (F2D x) = sign_of x /\ mag (F2D x) <= b * 2 ^ scale_K.
Proof.
  intros [Hf Hm] Hb. apply (SFconv_bound F64.prec F64.emax fmt64).
  - exact (in_format_finite_exp _ _ x fmt32 Hf).
  - change (2 ^ F64.prec) with (2 ^ 53). change (2 ^ 24) with 16777216 in Hb.
    change (2 ^ 53) with 9007199254740992. lia.
  - exact Hm.
Qed.

Lemma D2F_bound (y : float64) (b : Z) :
  in_format64 y -> mag y <= b * 2 ^ scale_K -> 0 < b < 2 ^ 24 ->
  tame32 b (D2F y) /\ sign_of (D2F y) = sign_of y.
Proof.
  intros Hf Hm Hb.
  destruct (SFconv_bound F32.prec F32.emax fmt32 y b) as (H1 & H2 & H3).
  - exact (in_format_finite_exp _ _ y fmt64 Hf).
  - exact Hb.
  - exact Hm.
  - split; [split|]; assumption.
Qed.

(** One turn added to a negative angle. *)
Lemma add_TWO_PI (m : positive) (e b : Z) :
  in_format64 (S754_finite true m e) ->
  mag (S754_finite true m e) <= b * 2 ^ scale_K -> 0 < b < 2 ^ 24 ->
  let y := F64.add (S754_finite true m e) TWO_PI in
  in_format64 y /\
  ((sign_of y = false /\ mag y <= 7 * 2 ^ scale_K) \/
   (6 < b /\ sign_of y = true /\ mag y <= (b - 6) * 2 ^ scale_K)).
Proof.
  intros Hf Hm Hb y. subst y. rewrite TWO_PI_eq. unfold F64.add.
  pose proof TWO_PI_sval as HT. rewrite TWO_PI_eq in HT.
  pose proof (in_format_exp_ge _ _ fmt64 _ _ _ Hf) as He.
  pose proof scale_K_pos as HKp.
  assert (HK : 0 < 2 ^ scale_K) by (apply pow2_pos; lia).
  set (T := sval (S754_finite false 7074237752028440 (-50))) in *.
  set (M := mag (S754_finite true m e)) in *.
  assert (HM : 0 <= M) by apply mag_nonneg.
  assert (HS : sval (S754_finite true m e) + T = T - M).
  { rewrite sval_mag. fold M. cbn [cond_Zopp]. lia. }
  change (2 ^ 24) with 16777216 in Hb.
  destruct (Z.ltb_spec (T - M) 0) as [Hneg|Hpos].
  - destruct (SFadd_bound F64.prec F64.emax fmt64 true false m 7074237752028440
                e (-50) (b - 6)) as (H1 & H2 & H3).
    + exact He.
    + unfold scale_K. lia.
    + change (2 ^ F64.prec) with 9007199254740992. nia.
    + fold T. rewrite HS. rewrite Z.abs_neq by lia. nia.
    + fold T in H2. rewrite HS in H2.
      split; [exact H1|right]. split; [nia|]. split; [|exact H3].
      rewrite H2. apply Z.ltb_lt. exact Hneg.
  - destruct (SFadd_bound F64.prec F64.emax fmt64 true false m 7074237752028440
                e (-50) 7) as (H1 & H2 & H3).
    + exact He.
    + unfold scale_K. lia.
    + change (2 ^ F64.prec) with 9007199254740992. lia.
    + fold T. rewrite HS. rewrite Z.abs_eq by lia. lia.
    + fold T in H2. rewrite HS in H2.
      split; [exact H1|left]. split; [|exact H3].
      rewrite H2. apply Z.ltb_ge. exact Hpos.
Qed.

(** One turn taken from a positive angle. *)
Lemma sub_TWO_PI (m : positive) (e b : Z) :
  in_format64 (S754_finite false m e) ->
  mag (S754_finite false m e) <= b * 2 ^ scale_K -> 0 < b < 2 ^ 24 ->
  let y := F64.sub (S754_finite false m e) TWO_PI in
  in_format64 y /\
  ((sign_of y = true /\ mag y <= 7 * 2 ^ scale_K) \/
   (6 < b /\ sign_of y = false /\ mag y <= (b - 6) * 2 ^ scale_K)).
Proof.
  intros Hf Hm Hb y. subst y. rewrite TWO_PI_eq. unfold F64.sub.
  pose proof TWO_PI_sval as HT. rewrite TWO_PI_eq in HT.
  pose proof (in_format_exp_ge _ _ fmt64 _ _ _ Hf) as He.
  pose proof scale_K_pos as HKp.
  assert (HK : 0 < 2 ^ scale_K) by (apply pow2_pos; lia).
  set (T := sval (S754_finite false 7074237752028440 (-50))) in *.
  set (M := mag (S754_finite false m e)) in *.
  assert (HM : 0 <= M) by apply mag_nonneg.
  assert (HS : sval (S754_finite false m e) - T = M - T).
  { rewrite sval_mag. fold M. cbn [cond_Zopp]. lia. }
  change (2 ^ 24) with 16777216 in Hb.
  destruct (Z.ltb_spec (M - T) 0) as [Hneg|Hpos].
  - destruct (SFsub_bound F64.prec F64.emax fmt64 false false m 7074237752028440
                e (-50) 7) as (H1 & H2 & H3).
    + exact He.
    + unfold scale_K. lia.
    + change (2 ^ F64.prec) with 9007199254740992. lia.
    + fold T. rewrite HS. rewrite Z.abs_neq by lia. lia.
    + fold T in H2. rewrite HS in H2.
      split; [exact H1|left]. split; [|exact H3].
      rewrite H2. apply Z.ltb_lt. exact Hneg.
  - destruct (SFsub_bound F64.prec F64.emax fmt64 false false m 7074237752028440
                e (-50) (b - 6)) as (H1 & H2 & H3).
    + exact He.
    + unfold scale_K. lia.
    + change (2 ^ F64.prec) with 9007199254740992. nia.
    + fold T. rewrite HS. rewrite Z.abs_eq by lia. nia.
    + fold T in H2. rewrite HS in H2.
      split; [exact H1|right]. split; [nia|]. split; [|exact H3].
      rewrite H2. apply Z.ltb_ge. exact Hpos.
Qed.

(** ** The two wrapping loops terminate *)

Lemma ltb_zero_sign_false (x : float32) :
  in_format32 x -> sign_of x = false -> F32.ltb x (F32.of_Z 0) = false.
Proof.
  destruct x as [s|s| |s m e]; cbn [in_format sign_of]; try contradiction.
  - reflexivity.
  - intros _ ->. reflexivity.
Qed.

Lemma wrap_up_negative (n : nat) :
  forall (m : positive) (e b : Z),
    tame32 b (S754_finite true m e) ->
    0 < b <= 6 * (Z.of_nat n + 1) -> b < 2 ^ 24 ->
    exists r, wrap_up (S (S n)) (S754_finite true m e) = Some r /\
              tame32 (Z.max b 7) r.
Proof.
  induction n as [|n IH]; intros m e b Ht Hb Hb24.
  all: change (wrap_up (S (S ?k)) (S754_finite true m e))
         with (wrap_up (S k) (D2F (F64.add (F2D (S754_finite true m e)) TWO_PI))).
  all: destruct (F2D_bound _ b Ht ltac:(lia)) as (Hxf & Hxs & Hxm).
  all: cbn [sign_of] in Hxs.
  all: destruct (F2D (S754_finite true m e)) as [s'|s'| |s' m' e'] eqn:Hxd;
         cbn [in_format] in Hxf; try contradiction.
  (* the promoted angle is a zero: the sum is 2 pi *)
  1, 3: change (D2F (F64.add (S754_zero s') TWO_PI))
          with (S754_finite false 13176795 (-21));
        eexists; split; [reflexivity|];
        apply (tame32_mono 7); [lia|];
        split; [split; [reflexivity|vm_compute; congruence]|vm_compute; congruence].
  all: cbn [sign_of] in Hxs; subst s'.
  all: destruct (add_TWO_PI m' e' b Hxf Hxm ltac:(lia)) as (Hyf & Hy).
  all: set (y := F64.add (S754_finite true m' e') TWO_PI) in *.
  - (* b <= 6: the sum is not negative *)
    destruct Hy as [[Hys Hym]|[Hb6 _]]; [|lia].
    destruct (D2F_bound y 7 Hyf Hym ltac:(change (2 ^ 24) with 16777216; lia))
      as [Hrt Hrs].
    exists (D2F y). split.
    + cbn [wrap_up]. rewrite ltb_zero_sign_false; [reflexivity|apply Hrt|congruence].
    + apply (tame32_mono 7); [lia|exact Hrt].
  - destruct Hy as [[Hys Hym]|(Hb6 & Hys & Hym)].
    + destruct (D2F_bound y 7 Hyf Hym ltac:(change (2 ^ 24) with 16777216; lia))
        as [Hrt Hrs].
      exists (D2F y). split.
      * cbn [wrap_up]. rewrite ltb_zero_sign_false; [reflexivity|apply Hrt|congruence].
      * apply (tame32_mono 7); [lia|exact Hrt].
    + destruct (D2F_bound y (b - 6) Hyf Hym ltac:(lia)) as [Hrt Hrs].
      rewrite Hys in Hrs.
      destruct (D2F y) as [s2|s2| |s2 m2 e2] eqn:Hr;
        try (exfalso; exact (proj1 Hrt)).
      * exists (S754_zero s2). split; [reflexivity|].
        apply (tame32_mono (b - 6)); [lia|exact Hrt].
      * cbn [sign_of] in Hrs. subst s2.
        destruct (IH m2 e2 (b - 6) Hrt ltac:(lia) ltac:(lia)) as (r & Hw & Hr').
        exists r. split; [exact Hw|].
        apply (tame32_mono (Z.max (b - 6) 7)); [lia|exact Hr'].
Qed.

Theorem wrap_up_total (fuel : nat) (x : float32) (b : Z) :
  nan_or_tame32 b x -> 7 <= b <= 6 * (Z.of_nat fuel - 1) -> b < 2 ^ 24 ->
  exists r, wrap_up fuel x = Some r /\ nan_or_tame32 b r.
Proof.
  intros Hx Hb Hb24.
  destruct fuel as [|[|n]]; [lia|lia|].
  destruct Hx as [->|Ht]; [exists S754_nan; split; [reflexivity|left; reflexivity]|].
  destruct x as [s|s| |s m e]; try (exfalso; exact (proj1 Ht)).
  - exists (S754_zero s). split; [reflexivity|right; exact Ht].
  - destruct s.
    + destruct (wrap_up_negative n m e b Ht ltac:(lia) Hb24) as (r & Hw & Hr).
      exists r. split; [exact Hw|right].
      apply (tame32_mono (Z.max b 7)); [lia|exact Hr].
    + exists (S754_finite false m e). split; [reflexivity|right; exact Ht].
Qed.

(** An angle below 6 is below 2 pi. *)
Lemma leb_TWO_PI_small (m : positive) (e : Z) :
  in_format64 (S754_finite false m e) ->
  mag (S754_finite false m e) <= 6 * 2 ^ scale_K ->
  F64.leb TWO_PI (S754_finite false m e) = false.
Proof.
  intros [Hc He] Hm. cbn [mag] in Hm. rewrite TWO_PI_eq.
  pose proof (canonical_ge_emin _ _ _ _ Hc) as Hmin.
  unfold F64.prec, F64.emax, emin in *.
  assert (He50 : e <= -50).
  { destruct (Z.le_gt_cases e (-50)) as [|Hgt]; [assumption|exfalso].
    assert (Hd : Zpos (digits2_pos m) = 53).
    { apply (canonical_digits_eq _ _ _ _ Hc). unfold emin. lia. }
    pose proof (digits2_pos_spec m) as [Hlow _]. rewrite Hd in Hlow.
    assert (H1 : 2 ^ (-49 + scale_K) <= 2 ^ (e + scale_K))
      by (apply Z.pow_le_mono_r; unfold scale_K; lia).
    assert (H2 : 2 ^ (53 - 1) * 2 ^ (-49 + scale_K) = 8 * 2 ^ scale_K)
      by (vm_compute; reflexivity).
    assert (0 < 2 ^ scale_K) by (apply pow2_pos; unfold scale_K; lia).
    assert (0 < 2 ^ (53 - 1)) by reflexivity.
    nia. }
  unfold F64.leb, SFleb, SFcompare.
  destruct (Z.compare_spec (-50) e) as [<-|Hlt|Hgt]; [|lia|reflexivity].
  rewrite Pos.compare_cont_spec. cbn [Pos.switch_Eq].
  assert (Hmc : Zpos m < 7074237752028440).
  { assert (H2 : 6 * 2 ^ scale_K = 6755399441055744 * 2 ^ (-50 + scale_K))
      by (vm_compute; reflexivity).
    assert (0 < 2 ^ (-50 + scale_K)) by (apply pow2_pos; unfold scale_K; lia).
    nia. }
  rewrite (proj2 (Pos.compare_gt_iff _ _)); [reflexivity|].
  unfold Pos.lt. rewrite Pos2Z.inj_compare. exact Hmc.
Qed.

Lemma leb_TWO_PI_exits (x : float32) :
  match x with
  | S754_infinity _ => False
  | S754_finite false _ _ => False
  | _ => True
  end ->
  F64.leb TWO_PI (F2D x) = false.
Proof.
  destruct x as [s|s| |s m e]; try contradiction; try reflexivity.
  destruct s; [intros _|contradiction].
  unfold F2D, SFconv.
  destruct (binary_round_spec F64.prec F64.emax (proj1 fmt64) true m e) as (m2 & _ & Hr).
  destruct (binary_round F64.prec F64.emax true m e) as [s'|s'| |s' m' e'];
    cbn [rounded_to] in Hr; try contradiction.
  - reflexivity.
  - destruct Hr as [-> _]. reflexivity.
  - destruct Hr as [-> _]. reflexivity.
Qed.

Lemma wrap_down_S (n : nat) (x : float32) :
  wrap_down (S n) x =
  if F64.leb TWO_PI (F2D x)
  then wrap_down n (D2F (F64.sub (F2D x) TWO_PI))
  else Some x.
Proof. reflexivity. Qed.

Lemma wrap_down_exits (n : nat) (x : float32) :
  in_format32 x -> sign_of x = true \/ mag x = 0 ->
  wrap_down (S n) x = Some x.
Proof.
  intros Hf Hs. rewrite wrap_down_S, leb_TWO_PI_exits; [reflexivity|].
  destruct x as [s|s| |s m e]; cbn [in_format] in Hf; try contradiction; try exact I.
  destruct s; [exact I|]. destruct Hs as [Hs|Hs]; [discriminate|].
  cbn [mag] in Hs. assert (0 < 2 ^ (e + scale_K)); [|lia].
  apply pow2_pos. pose proof (in_format_exp_ge _ _ fmt32 false m e Hf). lia.
Qed.

Lemma wrap_down_positive (n : nat) :
  forall (m : positive) (e b : Z),
    tame32 b (S754_finite false m e) ->
    0 < b <= 6 * (Z.of_nat n + 1) -> b < 2 ^ 24 ->
    exists r, wrap_down (S (S n)) (S754_finite false m e) = Some r.
Proof.
  induction n as [|n IH]; intros m e b Ht Hb Hb24.
  all: rewrite wrap_down_S.
  all: destruct (F64.leb TWO_PI (F2D (S754_finite false m e))) eqn:Hleb; [|eauto].
  all: destruct (F2D_bound _ b Ht ltac:(lia)) as (Hxf & Hxs & Hxm).
  all: cbn [sign_of] in Hxs.
  all: destruct (F2D (S754_finite false m e)) as [s'|s'| |s' m' e'] eqn:Hxd;
         cbn [in_format] in Hxf; try contradiction.
  1, 3: exfalso; destruct s'; discriminate.
  all: cbn [sign_of] in Hxs; subst s'.
  all: destruct (sub_TWO_PI m' e' b Hxf Hxm ltac:(lia)) as (Hyf & Hy).
  all: set (y := F64.sub (S754_finite false m' e') TWO_PI) in *.
  - exfalso. destruct Hy as [[Hys Hym]|[Hb6 _]]; [|lia].
    rewrite leb_TWO_PI_small in Hleb; [discriminate|exact Hxf|].
    assert (0 < 2 ^ scale_K) by (apply pow2_pos; unfold scale_K; lia). nia.
  - destruct Hy as [[Hys Hym]|(Hb6 & Hys & Hym)].
    + destruct (D2F_bound y 7 Hyf Hym ltac:(change (2 ^ 24) with 16777216; lia))
        as [Hrt Hrs].
      exists (D2F y). apply wrap_down_exits; [apply Hrt|left; congruence].
    + destruct (D2F_bound y (b - 6) Hyf Hym ltac:(lia)) as [Hrt Hrs].
      rewrite Hys in Hrs.
      destruct (D2F y) as [s2|s2| |s2 m2 e2] eqn:Hr;
        try (exfalso; exact (proj1 Hrt)).
      * exists (S754_zero s2). apply wrap_down_exits; [exact I|right; reflexivity].
      * cbn [sign_of] in Hrs. subst s2.
        apply (IH m2 e2 (b - 6) Hrt); lia.
Qed.

Theorem wrap_down_total (fuel : nat) (x : float32) (b : Z) :
  nan_or_tame32 b x -> 0 < b <= 6 * (Z.of_nat fuel - 1) -> b < 2 ^ 24 ->
  exists r, wrap_down fuel x = Some r.
Proof.
  intros Hx Hb Hb24.
  destruct fuel as [|[|n]]; [lia|lia|].
  destruct Hx as [->|Ht]; [exists S754_nan; reflexivity|].
  destruct x as [s|s| |s m e]; try (exfalso; exact (proj1 Ht)).
  - exists (S754_zero s). reflexivity.
  - destruct s.
    + exists (S754_finite true m e). apply wrap_down_exits; [apply Ht|left; reflexivity].
    + apply (wrap_down_positive n m e b Ht); lia.
Qed.

(** ** The angle stored by Start and the ray angle *)

Lemma scale_K_eq : scale_K = 1200.
Proof. reflexivity. Qed.

Lemma pow2_K_pos : 0 < 2 ^ scale_K.
Proof. apply pow2_pos. pose proof scale_K_pos. lia. Qed.

(** A small nonzero integer converts to a float without a tiny exponent. *)
Lemma of_Z_small (z : Z) :
  z <> 0 -> Z.abs z < 2 ^ 24 ->
  exists m e,
    F32.of_Z z = S754_finite (z <? 0) m e /\
    in_format32 (S754_finite (z <? 0) m e) /\ -23 <= e /\
    mag (S754_finite (z <? 0) m e) <= Z.abs z * 2 ^ scale_K.
Proof.
  intros Hz Hlt. pose proof pow2_K_pos as HK. pose proof scale_K_eq as HKp.
  destruct (binary_normalize_bound F32.prec F32.emax fmt32 z 0 (Z.abs z))
    as (Hf & Hs & Hm); [lia|change (2 ^ F32.prec) with (2 ^ 24); lia|
                        rewrite Z.add_0_l; lia|].
  fold (F32.of_Z z) in Hf, Hs, Hm.
  assert (Hexp : match F32.of_Z z with
                 | S754_finite _ _ e => -23 <= e
                 | _ => False
                 end).
  { unfold F32.of_Z, binary_normalize.
    assert (Hp : forall (s : bool) (p : positive), Zpos p < 2 ^ 24 ->
              match binary_round F32.prec F32.emax s p 0 with
              | S754_finite _ _ e => -23 <= e
              | _ => False
              end).
    { intros s p Hp.
      destruct (binary_round_spec F32.prec F32.emax (proj1 fmt32) s p 0) as (m2 & Hm2 & Hr).
      pose proof (digits2_pos_spec p) as [Hd1 Hd2].
      assert (Hd : Zpos (digits2_pos p) <= 24) by (apply digits2_pos_le; lia).
      set (d := Zpos (digits2_pos p)) in *.
      assert (Hd0 : 1 <= d) by (subst d; lia).
      replace (fexp F32.prec F32.emax (d + 0)) with (d - 24) in Hm2, Hr
        by (unfold fexp, emin, F32.prec, F32.emax; lia).
      assert (Hm2pos : 0 < m2).
      { destruct Hm2 as [[Hle Hm2]|[Hgt ->]].
        - assert (d = 24) by lia. replace (d - 24 - 0) with 0 in Hm2 by lia.
          change (2 ^ 0) with 1 in Hm2. rewrite Z.div_1_r in Hm2.
          destruct Hm2 as [->|[-> _]]; lia.
        - assert (0 < 2 ^ (0 - (d - 24))) by (apply pow2_pos; lia). lia. }
      destruct (binary_round F32.prec F32.emax s p 0) as [s'|s'| |s' m3 e3];
        cbn [rounded_to] in Hr.
      - lia.
      - unfold F32.prec, F32.emax in Hr. lia.
      - exact Hr.
      - lia. }
    destruct z as [|p|p]; [congruence|apply Hp; lia|apply Hp; lia]. }
  destruct (F32.of_Z z) as [s|s| |s m e]; try contradiction.
  cbn [sign_of] in Hs. subst s. exists m, e. repeat split; try assumption; apply Hf.
Qed.

Lemma F32_of_Z_1024 : F32.of_Z 1024 = S754_finite false 8388608 (-13).
Proof. reflexivity. Qed.

Lemma M_PI_eq : M_PI = S754_finite false 7074237752028440 (-51).
Proof. reflexivity. Qed.

(** The angle that Start stores is a float of magnitude at most 256. *)
Theorem Start_playerA_tame (rc : RayCasterFloat) (px py pa : Z) :
  -32768 <= pa < 32768 ->
  tame32 256 (playerA (RayCasterFloatStart rc px py pa)).
Proof.
  intros Hpa. cbn [RayCasterFloatStart playerA].
  pose proof pow2_K_pos as HK. pose proof scale_K_eq as HKp.
  destruct (Z.eq_dec pa 0) as [->|Hnz].
  { split; [exact I|vm_compute; congruence]. }
  destruct (of_Z_small pa Hnz ltac:(change (2 ^ 24) with 16777216; lia))
    as (mx & ex & -> & Hxf & Hxe & Hxm).
  (* the division by 1024 *)
  rewrite F32_of_Z_1024.
  pose proof (canonical_digits_le _ _ _ _ (proj1 Hxf)) as Hdx.
  pose proof (digits2_pos_spec mx) as [Hdx1 _].
  assert (Hu : in_format32 (F32.div (S754_finite (pa <? 0) mx ex)
                                     (S754_finite false 8388608 (-13))) /\
               mag (F32.div (S754_finite (pa <? 0) mx ex)
                            (S754_finite false 8388608 (-13))) <= 32 * 2 ^ scale_K).
  { destruct (SFdiv_bound F32.prec F32.emax fmt32 (pa <? 0) false mx 8388608 ex (-13) 32)
      as (H1 & _ & H3).
    - lia.
    - lia.
    - exact Hdx.
    - change (Zpos (digits2_pos 8388608)) with 24.
      unfold emin, F32.prec, F32.emax. lia.
    - change (2 ^ F32.prec) with 16777216. lia.
    - cbn [mag] in Hxm.
      assert (H : 8388608 * 2 ^ (-13 + scale_K) = 1024 * 2 ^ scale_K)
        by (vm_compute; reflexivity).
      rewrite H. nia.
    - split; assumption. }
  destruct Hu as [Huf Hum].
  set (u := F32.div (S754_finite (pa <? 0) mx ex) (S754_finite false 8388608 (-13))) in *.
  (* the product with 2 *)
  rewrite F32_of_Z_2.
  assert (Ht : tame32 64 (F32.mul u (S754_finite false 8388608 (-22)))).
  { destruct u as [s|s| |s mu eu]; cbn [in_format] in Huf; try contradiction.
    - split; [exact I|cbn; lia].
    - pose proof (canonical_ge_emin _ _ _ _ (proj1 Huf)) as Hmin.
      unfold emin, F32.prec, F32.emax in Hmin.
      destruct (SFmul_bound F32.prec F32.emax fmt32 s false mu 8388608 eu (-22) 32 2)
        as (H1 & _ & H3); try lia.
      + reflexivity.
      + change (2 ^ F32.prec) with 16777216. lia.
      + exact Hum.
      + assert (H : 8388608 * 2 ^ (-22 + scale_K) = 2 * 2 ^ scale_K)
          by (vm_compute; reflexivity).
        rewrite H. lia.
      + split; [exact H1|]. replace (64 * 2 ^ scale_K) with (32 * 2 * 2 ^ scale_K) by lia.
        exact H3. }
  set (t := F32.mul u (S754_finite false 8388608 (-22))) in *.
  (* the promotion and the product with pi *)
  destruct (F2D_bound t 64 Ht ltac:(change (2 ^ 24) with 16777216; lia))
    as (Hdf & _ & Hdm).
  rewrite M_PI_eq.
  assert (Hy : in_format64 (F64.mul (F2D t) (S754_finite false 7074237752028440 (-51))) /\
               mag (F64.mul (F2D t) (S754_finite false 7074237752028440 (-51)))
               <= 256 * 2 ^ scale_K).
  { destruct (F2D t) as [s|s| |s md ed]; cbn [in_format] in Hdf; try contradiction.
    - split; [exact I|cbn; lia].
    - pose proof (canonical_ge_emin _ _ _ _ (proj1 Hdf)) as Hmin.
      unfold emin, F64.prec, F64.emax in Hmin.
      destruct (SFmul_bound F64.prec F64.emax fmt64 s false md 7074237752028440
                  ed (-51) 64 4) as (H1 & _ & H3); try lia.
      + reflexivity.
      + change (2 ^ F64.prec) with 9007199254740992. lia.
      + exact Hdm.
      + vm_compute. congruence.
      + split; [exact H1|]. replace (256 * 2 ^ scale_K) with (64 * 4 * 2 ^ scale_K) by lia.
        exact H3. }
  destruct Hy as [Hyf Hym].
  apply (D2F_bound _ 256 Hyf Hym). change (2 ^ 24) with 16777216. lia.
Qed.

(** The sum of two bounded floats. *)
Lemma F32_add_tame (x y : float32) (a c : Z) :
  tame32 a x -> nan_or_tame32 c y -> 0 < a -> 0 < c -> a + c < 2 ^ 24 ->
  nan_or_tame32 (a + c) (F32.add x y).
Proof.
  intros Hx Hy Ha Hc Hac. pose proof pow2_K_pos as HK.
  destruct Hy as [->|Hy].
  { left. destruct x; reflexivity. }
  right.
  destruct x as [sx|sx| |sx mx ex]; try (exfalso; exact (proj1 Hx));
    destruct y as [sy|sy| |sy my ey]; try (exfalso; exact (proj1 Hy)).
  - split; [destruct sx, sy; exact I|destruct sx, sy; cbn; lia].
  - apply (tame32_mono c); [lia|exact Hy].
  - apply (tame32_mono a); [lia|exact Hx].
  - destruct Hx as [Hxf Hxm], Hy as [Hyf Hym].
    destruct (SFadd_bound F32.prec F32.emax fmt32 sx sy mx my ex ey (a + c))
      as (H1 & _ & H3).
    + exact (in_format_exp_ge _ _ fmt32 _ _ _ Hxf).
    + exact (in_format_exp_ge _ _ fmt32 _ _ _ Hyf).
    + change (2 ^ F32.prec) with (2 ^ 24). lia.
    + rewrite !sval_mag.
      pose proof (mag_nonneg (S754_finite sx mx ex)).
      pose proof (mag_nonneg (S754_finite sy my ey)).
      destruct sx, sy; cbn [cond_Zopp]; lia.
    + split; assumption.
Qed.

(** ** The search loops *)

Lemma search_loop_spec (g_map : list Z) (px py xo yo : float32) (fuel : nat) :
  forall (rx ry : float32) (depth : Z) (iters : nat),
    0 <= depth <= maxDepth ->
    (Z.to_nat (maxDepth - depth) < fuel)%nat ->
    exists r,
      search_loop g_map fuel px py xo yo rx ry depth iters = Some r /\
      depth <= s_depth r <= maxDepth /\
      ((s_depth r = maxDepth /\ s_hitDis r = F32.of_Z 0 /\
        s_iters r = (iters + Z.to_nat (s_depth r - depth))%nat) \/
       (s_depth r < maxDepth /\
        RayCasterFloatIsWall g_map (s_rayX r) (s_rayY r) = true /\
        s_hitDis r = P2P_DISTANCE px py (s_rayX r) (s_rayY r) /\
        s_iters r = (iters + Z.to_nat (s_depth r - depth) + 1)%nat)).
Proof.
  induction fuel as [|fuel IH]; intros rx ry depth iters Hd Hf; [lia|].
  cbn [search_loop].
  destruct (Z.ltb_spec depth maxDepth) as [Hlt|Hge].
  - destruct (RayCasterFloatIsWall g_map rx ry) eqn:Hw.
    + eexists. split; [reflexivity|]. cbn [s_depth s_rayX s_rayY s_hitDis s_iters].
      split; [lia|]. right. rewrite Z.sub_diag. repeat split; try assumption. lia.
    + destruct (IH (F32.add rx xo) (F32.add ry yo) (depth + 1) (S iters))
        as (r & Hr & Hdr & Hcase); [lia|lia|].
      exists r. split; [exact Hr|]. split; [lia|].
      destruct Hcase as [(H1 & H2 & H3)|(H1 & H2 & H3 & H4)]; [left|right];
        repeat split; try assumption; lia.
  - eexists. split; [reflexivity|]. cbn [s_depth s_rayX s_rayY s_hitDis s_iters].
    split; [lia|]. left. repeat split; lia.
Qed.

Lemma search_loop_from_start (g_map : list Z) (px py xo yo rx ry : float32)
    (fuel : nat) (depth : Z) :
  depth = 0 \/ depth = maxDepth -> (101 <= fuel)%nat ->
  exists r, search_loop g_map fuel px py xo yo rx ry depth 0 = Some r /\
            search_ended g_map px py r.
Proof.
  intros Hd Hf.
  destruct (search_loop_spec g_map px py xo yo fuel rx ry depth 0) as (r & Hr & Hdr & Hc).
  { unfold maxDepth in *. lia. }
  { unfold maxDepth in *. destruct Hd as [->| ->]; cbn; lia. }
  exists r. split; [exact Hr|]. unfold search_ended, maxDepth in *.
  destruct Hc as [(H1 & H2 & H3)|(H1 & H2 & H3 & H4)].
  - split; [lia|]. split; [lia|]. left. auto.
  - split; [lia|]. split; [lia|]. right. auto.
Qed.

Lemma vertical_search_total (libm : Libm) (g_map : list Z) (fuel : nat)
    (px py a cotA : float32) :
  (101 <= fuel)%nat ->
  exists r, vertical_search libm g_map fuel px py a cotA = Some r /\
            search_ended g_map px py r.
Proof.
  intros Hf. unfold vertical_search.
  destruct (F64.ltb lit_0_001 _); [apply search_loop_from_start; auto|].
  destruct (F64.ltb _ (SFopp lit_0_001)); apply search_loop_from_start; auto.
Qed.

Lemma horizontal_search_total (libm : Libm) (g_map : list Z) (fuel : nat)
    (px py a tanA : float32) :
  (101 <= fuel)%nat ->
  exists r, horizontal_search libm g_map fuel px py a tanA = Some r /\
            search_ended g_map px py r.
Proof.
  intros Hf. unfold horizontal_search.
  destruct (F64.ltb lit_0_001 _); [apply search_loop_from_start; auto|].
  destruct (F64.ltb _ (SFopp lit_0_001)); apply search_loop_from_start; auto.
Qed.

(** ** Termination of Distance and Trace *)

Lemma select_hit_searches (v h : Search) :
  d_vert (select_hit v h) = v /\ d_hori (select_hit v h) = h.
Proof. unfold select_hit. destruct (F32.ltb _ _); split; reflexivity. Qed.

(** For a ray angle that is a NaN or a float of magnitude at most 600,
    Distance returns with 101 units of fuel or more: the two wrapping
    loops terminate and each search ends after at most maxDepth
    executions of its body. *)
Theorem distance_run_total (libm : Libm) (g_map : list Z) (fuel : nat)
    (px py rayA : float32) (b : Z) :
  nan_or_tame32 b rayA -> 7 <= b <= 600 -> (101 <= fuel)%nat ->
  exists run,
    distance_run libm g_map fuel px py rayA = Some run /\
    search_ended g_map px py (d_vert run) /\
    search_ended g_map px py (d_hori run).
Proof.
  intros Ha Hb Hf. unfold distance_run.
  assert (Hb24 : b < 2 ^ 24) by (change (2 ^ 24) with 16777216; lia).
  destruct (wrap_up_total fuel rayA b Ha ltac:(lia) Hb24) as (a1 & -> & Ha1).
  cbn [mbind option_bind].
  destruct (wrap_down_total fuel a1 b Ha1 ltac:(lia) Hb24) as (a2 & ->).
  cbn [mbind option_bind].
  destruct (vertical_search_total libm g_map fuel px py a2
              (F32.div (F32.of_Z 1) (D2F (c_tan libm (F2D a2)))) Hf) as (v & -> & Hv).
  cbn [mbind option_bind].
  destruct (horizontal_search_total libm g_map fuel px py a2
              (D2F (c_tan libm (F2D a2))) Hf) as (h & -> & Hh).
  cbn [mbind option_bind].
  eexists. split; [reflexivity|].
  destruct (select_hit_searches v h) as [-> ->]. split; assumption.
Qed.

(** Trace terminates for every pose that Start stores, on every column
    and every map, provided [atanf] stays within its range: with 101
    units of fuel or more it returns its outputs and leaves the pose as
    it is, and each of the two searches has ended on a solid cell or at
    depth maxDepth after at most maxDepth executions of its body. *)
Theorem Trace_terminates (libm : Libm) (g_map : list Z) (fuel : nat)
    (rc : RayCasterFloat) (px py pa screenX : Z) :
  atanf_bounded libm -> -32768 <= pa < 32768 -> (101 <= fuel)%nat ->
  let pose := RayCasterFloatStart rc px py pa in
  exists out ray,
    cast_ray libm g_map fuel pose screenX = Some ray /\
    RayCasterFloatTrace libm g_map fuel pose screenX = Some (out, pose) /\
    search_ended g_map (playerX pose) (playerY pose) (d_vert (r_run ray)) /\
    search_ended g_map (playerX pose) (playerY pose) (d_hori (r_run ray)).
Proof.
  intros Hlibm Hpa Hf pose.
  pose proof (Start_playerA_tame rc px py pa Hpa) as HA. fold pose in HA.
  assert (Hray : nan_or_tame32 (256 + 2)
                   (F32.add (playerA pose) (column_angle libm screenX))).
  { apply F32_add_tame; [exact HA|apply Hlibm|lia|lia|].
    change (2 ^ 24) with 16777216. lia. }
  destruct (distance_run_total libm g_map fuel (playerX pose) (playerY pose) _
              (256 + 2) Hray ltac:(lia) Hf) as (run & Hrun & Hv & Hh).
  unfold RayCasterFloatTrace, cast_ray. rewrite Hrun. cbn [mbind option_bind].
  eexists. eexists. split; [reflexivity|]. split; [reflexivity|].
  cbn [r_run]. split; assumption.
Qed.

Lemma libm_sample_atanf_bounded : atanf_bounded libm_sample.
Proof.
  intros x. unfold libm_sample, c_atanf.
  destruct x as [s|s| |s m e]; try (left; reflexivity).
  right. split; [exact I|]. cbn [mag]. pose proof pow2_K_pos. lia.
Qed.

Lemma Trace_terminates_witness :
  exists out ray,
    cast_ray libm_sample zero_map 101 (corner_pose 128) 160 = Some ray /\
    RayCasterFloatTrace libm_sample zero_map 101 (corner_pose 128) 160
      = Some (out, corner_pose 128) /\
    search_ended zero_map (playerX (corner_pose 128)) (playerY (corner_pose 128))
      (d_vert (r_run ray)) /\
    search_ended zero_map (playerX (corner_pose 128)) (playerY (corner_pose 128))
      (d_hori (r_run ray)).
Proof.
  apply (Trace_terminates libm_sample zero_map 101 uninit_RayCasterFloat
           16000 16000 128 160 libm_sample_atanf_bounded).
  - lia.
  - lia.
Defined.

(** Each search loop of Distance, entered with depth 0 or with depth
    maxDepth, terminates: with fuel for maxDepth + 1 tests of the loop
    condition it returns, after at most maxDepth executions of its body,
    on a solid cell with the distance to it or at depth maxDepth with
    the zero sentinel, whatever the start, the step and the map; and
    every run that returns, returns that result. *)
Theorem search_loop_bounded (g_map : list Z) (fuel : nat)
    (px py xo yo rx ry : float32) (depth : Z) :
  depth = 0 \/ depth = maxDepth -> (101 <= fuel)%nat ->
  exists r,
    search_loop g_map fuel px py xo yo rx ry depth 0 = Some r /\
    search_ended g_map px py r /\
    forall fuel' r',
      search_loop g_map fuel' px py xo yo rx ry depth 0 = Some r' -> r' = r.
Proof.
  intros Hd Hf.
  destruct (search_loop_from_start g_map px py xo yo rx ry fuel depth Hd Hf)
    as (r & Hr & He).
  exists r. split; [exact Hr|]. split; [exact He|].
  intros fuel' r' Hr'.
  exact (search_loop_agree _ _ _ _ _ _ _ _ _ _ _ _ _ Hr' Hr).
Qed.

Lemma search_loop_bounded_witness :
  exists r,
    search_loop zero_map 101 (playerX (corner_pose 588)) (playerY (corner_pose 588))
      (F32.of_Z 1) half_f (F32.of_Z 63) (F32.of_Z 3) 0 0 = Some r /\
    search_ended zero_map (playerX (corner_pose 588)) (playerY (corner_pose 588)) r /\
    forall fuel' r',
      search_loop zero_map fuel' (playerX (corner_pose 588))
        (playerY (corner_pose 588)) (F32.of_Z 1) half_f (F32.of_Z 63) (F32.of_Z 3)
        0 0 = Some r' -> r' = r.
Proof.
  apply (search_loop_bounded zero_map 101 (playerX (corner_pose 588))
           (playerY (corner_pose 588)) (F32.of_Z 1) half_f (F32.of_Z 63)
           (F32.of_Z 3) 0).
  - left. reflexivity.
  - apply le_n.
Defined.

(** ** The sign of the distance *)

Lemma nonneg_shape_not_negative (x : spec_float) :
  nonneg_shape x -> not_negative x.
Proof. intros []; exact I. Qed.

Lemma SFconv_not_negative (prec emax : Z) (x : spec_float) :
  not_negative x -> not_negative (SFconv prec emax x).
Proof.
  destruct x as [s|s| |s m e]; cbn [SFconv]; try (intros H; exact H).
  destruct s; [intros []|intros _].
  unfold binary_round. destruct (shl_align _ _ _) as [mz ez].
  unfold binary_round_aux.
  apply nonneg_shape_not_negative.
  pose proof (binary_round_aux_shape prec emax (Zpos mz) ez loc_Exact) as H.
  exact H.
Qed.

Lemma sqrt_not_negative (x : float64) : not_negative (F64.sqrt x).
Proof.
  unfold F64.sqrt, SFsqrt.
  destruct x as [s|s| |s m e]; try exact I.
  - destruct s; exact I.
  - destruct s; [exact I|].
    destruct (SFsqrt_core_binary _ _ _ _) as [[mz ez] l].
    apply nonneg_shape_not_negative, binary_round_aux_shape.
Qed.

Lemma P2P_DISTANCE_not_negative (x1 y1 x2 y2 : float32) :
  not_negative (P2P_DISTANCE x1 y1 x2 y2).
Proof. apply SFconv_not_negative, sqrt_not_negative. Qed.

Lemma fmin_not_negative (x y : float64) :
  not_negative x -> not_negative y -> not_negative (c_fmin x y).
Proof.
  intros Hx Hy. unfold c_fmin.
  destruct x as [sx|sx| |sx mx ex]; try exact Hy;
    destruct y as [sy|sy| |sy my ey]; try exact Hx;
    destruct (F64.ltb _ _); assumption.
Qed.

Lemma not_negative_ltb (x : spec_float) :
  not_negative x -> SFltb x (F32.of_Z 0) = false.
Proof.
  destruct x as [s|s| |s m e]; try reflexivity.
  - destruct s; [intros []|reflexivity].
  - destruct s; [intros []|reflexivity].
Qed.

Lemma search_loop_not_negative (g_map : list Z) (fuel : nat)
    (px py xo yo rx ry : float32) (depth : Z) (iters : nat) (r : Search) :
  search_loop g_map fuel px py xo yo rx ry depth iters = Some r ->
  not_negative (s_hitDis r).
Proof.
  revert rx ry depth iters.
  induction fuel as [|fuel IH]; intros rx ry depth iters; [discriminate|].
  cbn [search_loop].
  destruct (depth <? maxDepth).
  - destruct (RayCasterFloatIsWall g_map rx ry).
    + intros [= <-]. apply P2P_DISTANCE_not_negative.
    + apply IH.
  - intros [= <-]. exact I.
Qed.

Lemma vertical_search_not_negative (libm : Libm) (g_map : list Z) (fuel : nat)
    (px py a c : float32) (r : Search) :
  vertical_search libm g_map fuel px py a c = Some r -> not_negative (s_hitDis r).
Proof.
  unfold vertical_search.
  destruct (F64.ltb _ _); [apply search_loop_not_negative|].
  destruct (F64.ltb _ _); apply search_loop_not_negative.
Qed.

Lemma horizontal_search_not_negative (libm : Libm) (g_map : list Z) (fuel : nat)
    (px py a c : float32) (r : Search) :
  horizontal_search libm g_map fuel px py a c = Some r -> not_negative (s_hitDis r).
Proof.
  unfold horizontal_search.
  destruct (F64.ltb _ _); [apply search_loop_not_negative|].
  destruct (F64.ltb _ _); apply search_loop_not_negative.
Qed.

Lemma distance_run_inv (libm : Libm) (g_map : list Z) (fuel : nat)
    (px py a : float32) (run : DistanceRun) :
  distance_run libm g_map fuel px py a = Some run ->
  exists a1 a2 v h,
    wrap_up fuel a = Some a1 /\ wrap_down fuel a1 = Some a2 /\
    vertical_search libm g_map fuel px py a2
      (F32.div (F32.of_Z 1) (D2F (c_tan libm (F2D a2)))) = Some v /\
    horizontal_search libm g_map fuel px py a2 (D2F (c_tan libm (F2D a2))) = Some h /\
    run = select_hit v h.
Proof.
  unfold distance_run.
  destruct (wrap_up fuel a) as [a1|] eqn:H1; [|discriminate].
  cbn [mbind option_bind].
  destruct (wrap_down fuel a1) as [a2|] eqn:H2; [|discriminate].
  cbn [mbind option_bind].
  destruct (vertical_search _ _ _ _ _ _ _) as [v|] eqn:Hv; [|discriminate].
  cbn [mbind option_bind].
  destruct (horizontal_search _ _ _ _ _ _ _) as [h|] eqn:Hh; [|discriminate].
  cbn [mbind option_bind]. intros [= <-].
  exists a1, a2, v, h. repeat split; try assumption; reflexivity.
Qed.

Lemma select_hit_result (v h : Search) :
  d_result (select_hit v h) = D2F (c_fmin (F2D (s_hitDis v)) (F2D (s_hitDis h))).
Proof. unfold select_hit. destruct (F32.ltb _ _); reflexivity. Qed.

(** Distance never returns a negative distance or minus infinity: the
    returned float and the two hit distances it is chosen from are each
    a zero, a positive number, plus infinity or a NaN, so the test
    [distance < 0] is false for it. *)
Theorem Distance_not_negative (libm : Libm) (g_map : list Z) (fuel : nat)
    (px py a : float32) (distance hitOffset : float32) (hitDirection : Z) :
  RayCasterFloatDistance libm g_map fuel px py a
    = Some (distance, hitOffset, hitDirection) ->
  not_negative distance /\ F32.ltb distance (F32.of_Z 0) = false.
Proof.
  unfold RayCasterFloatDistance.
  destruct (distance_run _ _ _ _ _ _) as [run|] eqn:Hrun; [|discriminate].
  cbn [mbind option_bind]. intros [= <- _ _].
  apply distance_run_inv in Hrun as (a1 & a2 & v & h & _ & _ & Hv & Hh & ->).
  assert (H : not_negative (d_result (select_hit v h))).
  { rewrite select_hit_result.
    apply SFconv_not_negative, fmin_not_negative; apply SFconv_not_negative.
    - exact (vertical_search_not_negative _ _ _ _ _ _ _ _ Hv).
    - exact (horizontal_search_not_negative _ _ _ _ _ _ _ _ Hh). }
  split; [exact H|]. apply not_negative_ltb. exact H.
Qed.

Lemma Distance_not_negative_witness :
  not_negative (S754_finite false 9318153 (-17)) /\
  F32.ltb (S754_finite false 9318153 (-17)) (F32.of_Z 0) = false.
Proof.
  apply (Distance_not_negative libm_sample zero_map 101
           (playerX (corner_pose 588)) (playerY (corner_pose 588))
           (playerA (corner_pose 588))
           (S754_finite false 9318153 (-17))
           (S754_finite false 16009832 (-19)) 0).
  vm_compute. reflexivity.
Defined.

(** ** The texture *)

Lemma select_hit_texture (v h : Search) :
  (F32.ltb (s_hitDis v) (s_hitDis h) = true /\
   d_hitDirection (select_hit v h) = 1 /\
   d_hitOffset (select_hit v h) = s_rayY v) \/
  (F32.ltb (s_hitDis v) (s_hitDis h) = false /\
   d_hitDirection (select_hit v h) = 0 /\
   d_hitOffset (select_hit v h) = s_rayX h).
Proof.
  unfold select_hit. destruct (F32.ltb _ _); [left|right]; repeat split.
Qed.

(** The texture that Trace reports follows the strict comparison of the
    two hit distances: textureNo is 1 and textureX comes from the y
    coordinate of the vertical hit exactly when the vertical hit distance
    is below the horizontal one; otherwise (a tie, a NaN) textureNo is 0
    and textureX comes from the x coordinate of the horizontal hit. *)
Theorem Trace_texture_side (libm : Libm) (g_map : list Z) (fuel : nat)
    (rc rc' : RayCasterFloat) (screenX : Z) (out : TraceResult) :
  RayCasterFloatTrace libm g_map fuel rc screenX = Some (out, rc') ->
  exists ray,
    cast_ray libm g_map fuel rc screenX = Some ray /\
    let v := d_vert (r_run ray) in
    let h := d_hori (r_run ray) in
    (F32.ltb (s_hitDis v) (s_hitDis h) = true /\
     textureNo out = 1 /\
     textureX out = float_to_uint8 (textureX_float (s_rayY v))) \/
    (F32.ltb (s_hitDis v) (s_hitDis h) = false /\
     textureNo out = 0 /\
     textureX out = float_to_uint8 (textureX_float (s_rayX h))).
Proof.
  intros H. apply Trace_inv in H as [-> (ray & Hc & ->)].
  exists ray. split; [exact Hc|].
  assert (Hrun : exists a, distance_run libm g_map fuel (playerX rc) (playerY rc) a
                           = Some (r_run ray)).
  { revert Hc. unfold cast_ray.
    destruct (distance_run _ _ _ _ _ _) as [run|] eqn:Hrun; [|discriminate].
    cbn [mbind option_bind]. intros [= <-]. eexists. exact Hrun. }
  destruct Hrun as (a & Hrun).
  apply distance_run_inv in Hrun as (a1 & a2 & v & h & _ & _ & _ & _ & ->).
  destruct (select_hit_searches v h) as [Ev Eh]. cbn zeta. rewrite Ev, Eh.
  assert (Hp : forall o d x,
             textureNo (project o d x) = d mod 256 /\
             textureX (project o d x) = float_to_uint8 (textureX_float o)).
  { intros o d x. unfold project.
    destruct (F32.ltb _ _); [|split; reflexivity].
    destruct (negb _); [|split; reflexivity].
    destruct (F32.ltb _ _); split; reflexivity. }
  destruct (Hp (d_hitOffset (select_hit v h)) (d_hitDirection (select_hit v h))
              (r_distance ray)) as [-> ->].
  destruct (select_hit_texture v h) as [(Hlt & -> & ->)|(Hlt & -> & ->)];
    [left|right]; repeat split; assumption.
Qed.

Lemma Trace_texture_side_witness :
  exists ray,
    cast_ray libm_sample zero_map 101 (corner_pose 588) 160 = Some ray /\
    let v := d_vert (r_run ray) in
    let h := d_hori (r_run ray) in
    (F32.ltb (s_hitDis v) (s_hitDis h) = true /\
     textureNo {| screenY := 4; textureNo := 0; textureX := 137;
                  textureY := 0; textureStep := 8088 |} = 1 /\
     textureX {| screenY := 4; textureNo := 0; textureX := 137;
                 textureY := 0; textureStep := 8088 |}
       = float_to_uint8 (textureX_float (s_rayY v))) \/
    (F32.ltb (s_hitDis v) (s_hitDis h) = false /\
     textureNo {| screenY := 4; textureNo := 0; textureX := 137;
                  textureY := 0; textureStep := 8088 |} = 0 /\
     textureX {| screenY := 4; textureNo := 0; textureX := 137;
                 textureY := 0; textureStep := 8088 |}
       = float_to_uint8 (textureX_float (s_rayX h))).
Proof.
  apply (Trace_texture_side libm_sample zero_map 101 (corner_pose 588)
           (corner_pose 588) 160).
  vm_compute. reflexivity.
Defined.

(** ** The texture step and the crop *)

Lemma project_texture (hitOffset : float32) (hitDirection : Z)
    (m : positive) (e : Z) :
  in_format32 (S754_finite false m e) ->
  let distance := S754_finite false m e in
  let fullH := F32.mul (half_height distance) (F32.of_Z 2) in
  let ratio := F32.div (F32.of_Z 256) fullH in
  let out := project hitOffset hitDirection distance in
  F32.eqb fullH (F32.of_Z 0) = false /\
  textureStep out = float_to_uint16 (F32.mul ratio (F32.of_Z 256)) /\
  (F32.ltb (F32.of_Z SCREEN_HEIGHT) fullH = true ->
   screenY out = HORIZON_HEIGHT /\
   textureY out =
     float_to_uint16
       (F32.mul (F32.mul (F32.div (F32.sub fullH (F32.of_Z SCREEN_HEIGHT))
                                  (F32.of_Z 2)) ratio) (F32.of_Z 256))) /\
  (F32.ltb (F32.of_Z SCREEN_HEIGHT) fullH = false ->
   screenY out = float_to_uint8 (half_height distance) /\ textureY out = 0).
Proof.
  intros Hf distance fullH ratio out.
  assert (Hnz : F32.eqb fullH (F32.of_Z 0) = false).
  { subst fullH distance.
    destruct (half_height_shape m e Hf) as [->|(m3 & e3 & -> & Hf3)].
    - reflexivity.
    - apply double_nonzero. exact Hf3. }
  split; [exact Hnz|].
  subst out. unfold project.
  change (F32.ltb (F32.of_Z 0) distance) with true. cbn iota.
  fold distance. fold fullH. rewrite Hnz. cbn [negb]. fold ratio.
  destruct (F32.ltb (F32.of_Z SCREEN_HEIGHT) fullH).
  - split; [reflexivity|]. split; [intros _; split; reflexivity|discriminate].
  - split; [reflexivity|]. split; [discriminate|intros _; split; reflexivity].
Qed.

(** ** Construction followed by destruction *)

(** A caster built by RayCasterFloatConstruct and destroyed through its
    Destruct slot leaves the heap as it was before the construction:
    both blocks are released and nothing else is touched.  A second call
    through the same pointer is an error, the table being gone. *)
Theorem Construct_Destruct_round_trip (h : heap) :
  exists p h',
    RayCasterFloatConstruct true true h = Some (Some p, h') /\
    call_Destruct p h' = RayCasterFloatDestruct p h' /\
    RayCasterFloatDestruct p h' = Some h /\
    call_Destruct p h = None.
Proof.
  pose proof (fresh_lookup_None h) as Hp.
  set (p := fresh (dom h)) in *.
  set (b := Blk_RayCaster {| Start := None; Trace := None;
                             Destruct := Some M_RayCasterDestruct;
                             derived := None |}).
  pose proof (fresh_lookup_None (<[p:=b]> h)) as Hd.
  set (d := fresh (dom (<[p:=b]> h))) in *.
  assert (Hpd : p <> d).
  { intros E. rewrite <- E, lookup_insert_eq in Hd. discriminate. }
  assert (Hdh : h !! d = None).
  { rewrite lookup_insert_ne in Hd by exact Hpd. exact Hd. }
  exists p. eexists.
  unfold RayCasterFloatConstruct, RayCasterConstruct, malloc.
  fold p. fold b. fold d. cbn [mbind option_bind].
  rewrite lookup_insert_ne by (intros E; apply Hpd; symmetry; exact E).
  rewrite lookup_insert_eq.
  split; [reflexivity|].
  split.
  { unfold call_Destruct. rewrite lookup_insert_eq. reflexivity. }
  split.
  - unfold RayCasterFloatDestruct. rewrite lookup_insert_eq.
    cbn [derived free].
    rewrite lookup_insert_ne by exact Hpd. rewrite lookup_insert_eq.
    cbn [mbind option_bind]. unfold RayCasterDestruct, free.
    rewrite lookup_delete_ne by (intros E; apply Hpd; symmetry; exact E).
    rewrite lookup_insert_eq. f_equal.
    assert (Hdp : d <> p) by (intros E; apply Hpd; symmetry; exact E).
    rewrite delete_insert_ne by (exact Hpd || exact Hdp).
    rewrite delete_insert_eq, delete_insert_eq.
    rewrite delete_insert_ne by (exact Hpd || exact Hdp).
    rewrite delete_insert_eq.
    rewrite (delete_id h d) by exact Hdh.
    apply delete_id. exact Hp.
  - unfold call_Destruct. rewrite Hp. reflexivity.
Qed.

(** ** Events *)

Lemma process_event_quits (event : SDL_Event) (m r : Z) :
  process_event event m r =
    if quits event then (true, (m, r)) else (false, snd (process_event event m r)).
Proof.
  unfold process_event, quits, fresh_key.
  destruct (ev_type event); try reflexivity;
    destruct (key_repeat event =? 0); try reflexivity;
    destruct (key_sym event); reflexivity.
Qed.

(** [process_event] returns true exactly for an SDL_QUIT event and for a
    press or release of Escape that is not an automatic repeat, and such
    an event leaves both directions as they are. *)
Theorem process_event_quit (event : SDL_Event) (m r : Z) :
  (fst (process_event event m r) = true <->
   ev_type event = SDL_QUIT \/
   ((ev_type event = SDL_KEYDOWN \/ ev_type event = SDL_KEYUP) /\
    key_repeat event = 0 /\ key_sym event = SDLK_ESCAPE)) /\
  (fst (process_event event m r) = true ->
   snd (process_event event m r) = (m, r)).
Proof.
  unfold process_event.
  destruct (ev_type event) eqn:Et; cbn [fst snd].
  - split; [|reflexivity]. split; [left; reflexivity|reflexivity].
  - destruct (Z.eqb_spec (key_repeat event) 0) as [Hr|Hr].
    + destruct (key_sym event) eqn:Ek; cbn [fst snd];
        (split; [split|]); try discriminate; try reflexivity;
        try (intros _; right; repeat split; auto; fail);
        intros [H|(_ & _ & H)]; discriminate.
    + cbn [fst snd]. split; [split|]; try discriminate.
      intros [H|(_ & H & _)]; [discriminate|contradiction].
  - destruct (Z.eqb_spec (key_repeat event) 0) as [Hr|Hr].
    + destruct (key_sym event) eqn:Ek; cbn [fst snd];
        (split; [split|]); try discriminate; try reflexivity;
        try (intros _; right; repeat split; auto; fail);
        intros [H|(_ & _ & H)]; discriminate.
    + cbn [fst snd]. split; [split|]; try discriminate.
      intros [H|(_ & H & _)]; [discriminate|contradiction].
  - split; [split|]; try discriminate.
    intros [H|([H|H] & _)]; discriminate.
Qed.

Lemma process_event_direction (event : SDL_Event) (m r : Z) :
  direction m -> direction r ->
  direction (fst (snd (process_event event m r))) /\
  direction (snd (snd (process_event event m r))).
Proof.
  intros Hm Hr. unfold process_event, direction.
  destruct (ev_type event); cbn [fst snd]; try (split; assumption);
    destruct (key_repeat event =? 0); cbn [fst snd]; try (split; assumption);
    destruct (key_sym event); cbn [fst snd]; split; try assumption; lia.
Qed.

(** Whatever events arrive and in whatever order, the two directions
    that the main loop hands to GameMove are each -1, 0 or 1. *)
Theorem poll_events_directions (events : list (option SDL_Event)) (m r : Z) :
  direction m -> direction r ->
  direction (fst (snd (poll_events events m r))) /\
  direction (snd (snd (poll_events events m r))).
Proof.
  revert m r. induction events as [|[event|] rest IH]; intros m r Hm Hr;
    cbn [poll_events fst snd].
  - split; assumption.
  - pose proof (process_event_direction event m r Hm Hr) as [H1 H2].
    destruct (process_event event m r) as [[|] [m' r']]; cbn [fst snd] in *.
    + split; assumption.
    + apply IH; assumption.
  - apply IH; assumption.
Qed.

Lemma poll_events_directions_witness :
  direction (fst (snd (poll_events
     [Some {| ev_type := SDL_KEYDOWN; key_repeat := 0; key_sym := SDLK_UP |};
      None;
      Some {| ev_type := SDL_KEYDOWN; key_repeat := 0; key_sym := SDLK_LEFT |};
      Some {| ev_type := SDL_KEYUP; key_repeat := 0; key_sym := SDLK_UP |}]
     0 0))) /\
  direction (snd (snd (poll_events
     [Some {| ev_type := SDL_KEYDOWN; key_repeat := 0; key_sym := SDLK_UP |};
      None;
      Some {| ev_type := SDL_KEYDOWN; key_repeat := 0; key_sym := SDLK_LEFT |};
      Some {| ev_type := SDL_KEYUP; key_repeat := 0; key_sym := SDLK_UP |}]
     0 0))).
Proof.
  apply (poll_events_directions
     [Some {| ev_type := SDL_KEYDOWN; key_repeat := 0; key_sym := SDLK_UP |};
      None;
      Some {| ev_type := SDL_KEYDOWN; key_repeat := 0; key_sym := SDLK_LEFT |};
      Some {| ev_type := SDL_KEYUP; key_repeat := 0; key_sym := SDLK_UP |}]
     0 0).
  - right. left. reflexivity.
  - right. left. reflexivity.
Defined.

(** The main loop ends exactly when some polled event is an SDL_QUIT or
    a fresh press or release of Escape. *)
Lemma poll_events_quit (events : list (option SDL_Event)) (m r : Z) :
  fst (poll_events events m r) =
    existsb (fun poll => match poll with Some e => quits e | None => false end)
            events.
Proof.
  revert m r. induction events as [|[event|] rest IH]; intros m r;
    cbn [poll_events existsb]; [reflexivity| |apply IH].
  rewrite process_event_quits.
  destruct (quits event); cbn [orb fst]; [reflexivity|].
  destruct (snd (process_event event m r)) as [m' r']. apply IH.
Qed.

(** Polls that deliver nothing, automatic repeats, events of other types
    and keys other than Escape and the arrows are ignored: dropping them
    from the stream of polls changes neither the exit flag nor the
    directions the loop ends with. *)
Theorem poll_events_ignores (events : list (option SDL_Event)) (m r : Z) :
  poll_events (List.filter relevant events) m r = poll_events events m r.
Proof.
  revert m r. induction events as [|[event|] rest IH]; intros m r;
    cbn [List.filter relevant]; [reflexivity| |apply IH].
  destruct (quits event || steers event) eqn:Hrel.
  - cbn [poll_events].
    destruct (process_event event m r) as [[|] [m' r']]; [reflexivity|apply IH].
  - apply orb_false_elim in Hrel as [Hq Hs].
    cbn [poll_events]. rewrite IH.
    replace (process_event event m r) with (false, (m, r)); [reflexivity|].
    revert Hq Hs. unfold process_event, quits, steers, fresh_key.
    destruct (ev_type event); try discriminate; try reflexivity;
      destruct (key_repeat event =? 0); try reflexivity;
      destruct (key_sym event); cbn; try discriminate; reflexivity.
Qed.

(** ** The window *)

(** The two views that main draws lie side by side in the window: the
    fixed-point view starts at the left edge, the float view starts
    SCREEN_SCALE pixels after the end of the first and ends at the right
    edge, both span the height of the window, and no product leaves the
    range of int. *)
Theorem draw_buffer_layout (SCREEN_SCALE : Z) :
  0 < SCREEN_SCALE -> is_int (window_w SCREEN_SCALE) ->
  let a := fixed_rect SCREEN_SCALE in
  let b := float_rect SCREEN_SCALE in
  rect_x a = 0 /\
  rect_x a + rect_w a + SCREEN_SCALE = rect_x b /\
  rect_x b + rect_w b = window_w SCREEN_SCALE /\
  rect_y a = 0 /\ rect_y b = 0 /\
  rect_h a = window_h SCREEN_SCALE /\ rect_h b = window_h SCREEN_SCALE /\
  is_int (rect_x b) /\ is_int (rect_w a) /\ is_int (rect_h a).
Proof.
  unfold is_int, window_w, window_h, fixed_rect, float_rect, draw_buffer_rect,
    SCREEN_WIDTH, SCREEN_HEIGHT.
  cbn [rect_x rect_y rect_w rect_h]. change (2 ^ 31) with 2147483648. lia.
Qed.

Lemma draw_buffer_layout_witness :
  rect_x (fixed_rect 2) = 0 /\
  rect_x (fixed_rect 2) + rect_w (fixed_rect 2) + 2 = rect_x (float_rect 2) /\
  rect_x (float_rect 2) + rect_w (float_rect 2) = window_w 2 /\
  rect_y (fixed_rect 2) = 0 /\ rect_y (float_rect 2) = 0 /\
  rect_h (fixed_rect 2) = window_h 2 /\ rect_h (float_rect 2) = window_h 2 /\
  is_int (rect_x (float_rect 2)) /\ is_int (rect_w (fixed_rect 2)) /\
  is_int (rect_h (fixed_rect 2)).
Proof.
  apply (draw_buffer_layout 2).
  - lia.
  - unfold is_int. vm_compute. split; [discriminate|reflexivity].
Defined.

(** ** The bits that IsWall reads *)

(** For a point whose tile lies within the bounds, on a map of bytes,
    IsWall is the bit of the cell to the left of the tile, MSB-first in
    its byte, unless the column of the tile is a multiple of 8: such a
    cell is never solid. *)
Theorem IsWall_reads_left_neighbour (g_map : list Z) (rayX rayY : float32) :
  map_ok g_map ->
  0 <= tile_of rayX < MAP_X - 1 -> 0 <= tile_of rayY < MAP_Y - 1 ->
  RayCasterFloatIsWall g_map rayX rayY =
    negb (tile_of rayX mod 8 =? 0) &&
    map_bit g_map (tile_of rayY * MAP_X + (tile_of rayX - 1)).
Proof.
  intros Hok Hx Hy.
  destruct (Z.eqb_spec (tile_of rayX mod 8) 0) as [H8|H8]; cbn [negb andb].
  - apply IsWall_column_0_mod_8; assumption.
  - apply IsWall_column_other; assumption.
Qed.

Lemma corner_map_ok : map_ok corner_map.
Proof.
  split; [reflexivity|].
  apply Forall_cons. split; [lia|].
  apply Forall_forall. intros b Hb. apply list_elem_of_In, repeat_spec in Hb. lia.
Qed.

Lemma IsWall_reads_left_neighbour_witness :
  RayCasterFloatIsWall corner_map three_halves_f half_f =
    negb (tile_of three_halves_f mod 8 =? 0) &&
    map_bit corner_map (tile_of half_f * MAP_X + (tile_of three_halves_f - 1)).
Proof.
  apply (IsWall_reads_left_neighbour corner_map three_halves_f half_f).
  - exact corner_map_ok.
  - vm_compute. split; [discriminate|reflexivity].
  - vm_compute. split; [discriminate|reflexivity].
Defined.

(** IsWall reads no byte beyond index 503 of the map: two maps that agree
    on the bytes 0 to 503 give the same answer at every point, also at
    points out of bounds and at a NaN. *)
Theorem IsWall_reads_within_map (g1 g2 : list Z) (rayX rayY : float32) :
  (forall i, 0 <= i < 504 -> g_map_at g1 i = g_map_at g2 i) ->
  RayCasterFloatIsWall g1 rayX rayY = RayCasterFloatIsWall g2 rayX rayY.
Proof.
  intros Hagree.
  destruct (Z_lt_dec (tile_of rayX) 0) as [H1|H1];
    [rewrite !IsWall_out_of_bounds by tauto; reflexivity|].
  destruct (Z_lt_dec (tile_of rayY) 0) as [H2|H2];
    [rewrite !IsWall_out_of_bounds by tauto; reflexivity|].
  destruct (Z_ge_dec (tile_of rayX) (MAP_X - 1)) as [H3|H3];
    [rewrite !IsWall_out_of_bounds by tauto; reflexivity|].
  destruct (Z_ge_dec (tile_of rayY) (MAP_Y - 1)) as [H4|H4];
    [rewrite !IsWall_out_of_bounds by tauto; reflexivity|].
  unfold MAP_X, MAP_Y in *.
  rewrite !IsWall_in_bounds by (unfold MAP_X, MAP_Y; lia).
  rewrite Hagree; [reflexivity|].
  pose proof (Z.div_mod (tile_of rayX) 8 ltac:(lia)).
  pose proof (Z.mod_pos_bound (tile_of rayX) 8 ltac:(lia)).
  lia.
Qed.

Lemma IsWall_reads_within_map_witness :
  RayCasterFloatIsWall corner_map half_f half_f =
  RayCasterFloatIsWall (corner_map ++ [255]) half_f half_f.
Proof.
  apply (IsWall_reads_within_map corner_map (corner_map ++ [255]) half_f half_f).
  intros i Hi. unfold g_map_at.
  rewrite lookup_app_l; [reflexivity|].
  change (length corner_map) with 512%nat. lia.
Defined.

(** ** The texture step and the crop, in Trace *)

(** For a finite distance above zero the guard [txs != 0] of Trace
    always passes.  With fullH = (INV_FACTOR / distance) * 2 the outputs
    are textureStep = (uint16_t) ((256 / fullH) * 256); when fullH is
    above SCREEN_HEIGHT, screenY = HORIZON_HEIGHT and textureY =
    (uint16_t) (((fullH - SCREEN_HEIGHT) / 2) * (256 / fullH) * 256);
    otherwise screenY = (uint8_t) (INV_FACTOR / distance) and
    textureY = 0. *)
Theorem Trace_texture_crop (libm : Libm) (g_map : list Z) (fuel : nat)
    (rc rc' : RayCasterFloat) (screenX : Z) (out : TraceResult) (ray : Ray)
    (m : positive) (e : Z) :
  RayCasterFloatTrace libm g_map fuel rc screenX = Some (out, rc') ->
  cast_ray libm g_map fuel rc screenX = Some ray ->
  r_distance ray = S754_finite false m e ->
  let fullH := F32.mul (half_height (r_distance ray)) (F32.of_Z 2) in
  let ratio := F32.div (F32.of_Z 256) fullH in
  F32.eqb fullH (F32.of_Z 0) = false /\
  textureStep out = float_to_uint16 (F32.mul ratio (F32.of_Z 256)) /\
  (F32.ltb (F32.of_Z SCREEN_HEIGHT) fullH = true ->
   screenY out = HORIZON_HEIGHT /\
   textureY out =
     float_to_uint16
       (F32.mul (F32.mul (F32.div (F32.sub fullH (F32.of_Z SCREEN_HEIGHT))
                                  (F32.of_Z 2)) ratio) (F32.of_Z 256))) /\
  (F32.ltb (F32.of_Z SCREEN_HEIGHT) fullH = false ->
   screenY out = float_to_uint8 (half_height (r_distance ray)) /\
   textureY out = 0).
Proof.
  intros Ht Hc Hd.
  apply Trace_inv in Ht as [-> (ray' & Hc' & ->)].
  rewrite Hc in Hc'. injection Hc' as <-.
  pose proof (cast_ray_distance_format _ _ _ _ _ _ Hc) as Hfmt.
  rewrite Hd in *. cbn [format_or_special] in Hfmt.
  exact (project_texture (d_hitOffset (r_run ray)) (d_hitDirection (r_run ray))
           m e Hfmt).
Qed.

Lemma Trace_texture_crop_witness :
  exists out ray,
    RayCasterFloatTrace libm_sample zero_map 101 (corner_pose 128) 160
      = Some (out, corner_pose 128) /\
    cast_ray libm_sample zero_map 101 (corner_pose 128) 160 = Some ray /\
    r_distance ray = S754_finite false 11863283 (-24) /\
    textureStep out =
      float_to_uint16
        (F32.mul (F32.div (F32.of_Z 256)
                    (F32.mul (half_height (r_distance ray)) (F32.of_Z 2)))
                 (F32.of_Z 256)).
Proof.
  destruct (RayCasterFloatTrace libm_sample zero_map 101 (corner_pose 128) 160)
    as [[out rc']|] eqn:Ht; [|vm_compute in Ht; discriminate].
  destruct (cast_ray libm_sample zero_map 101 (corner_pose 128) 160)
    as [ray|] eqn:Hc; [|vm_compute in Hc; discriminate].
  assert (Hrc : rc' = corner_pose 128).
  { vm_compute in Ht. injection Ht as _ <-. reflexivity. }
  assert (Hd : r_distance ray = S754_finite false 11863283 (-24)).
  { vm_compute in Hc. injection Hc as <-. reflexivity. }
  subst rc'. exists out, ray.
  split; [reflexivity|]. split; [reflexivity|]. split; [exact Hd|].
  exact (proj1 (proj2 (Trace_texture_crop _ _ _ _ _ _ _ _ _ _ Ht Hc Hd))).
Defined.

(** ** Exact rounding *)

Section Exact.
Variables prec emax : Z.
Hypothesis Hfmt : format_ok prec emax.

Lemma rounded_to_mag (s : bool) (m2 e1 : Z) (r : spec_float) :
  rounded_to prec emax s m2 e1 r ->
  emin prec emax <= e1 < emax - prec ->
  in_format prec emax r /\ sign_of r = s /\ mag r = m2 * 2 ^ (e1 + scale_K).
Proof.
  intros Hr He1. pose proof Hfmt as (Hprec & Hemax & Hemin).
  destruct r as [s'|s'| |s' m3 e3]; cbn [rounded_to] in Hr.
  - destruct Hr as [-> ->]. cbn. repeat split.
  - exfalso. lia.
  - contradiction.
  - destruct Hr as (-> & He3 & Hm3 & Hc & Hmax). cbn [in_format sign_of mag].
    repeat split; try assumption.
    rewrite <- Hm3, <- Z.mul_assoc, <- Z.pow_add_r by lia. do 2 f_equal. lia.
Qed.

(** Rounding a number that the format holds delivers that number. *)
Lemma binary_round_exact (s : bool) (m : positive) (e : Z) :
  let e1 := fexp prec emax (Zpos (digits2_pos m) + e) in
  - scale_K <= e -> e1 < emax - prec ->
  (e <= e1 -> Zpos m mod 2 ^ (e1 - e) = 0) ->
  let r := binary_round prec emax s m e in
  in_format prec emax r /\ sign_of r = s /\ mag r = Zpos m * 2 ^ (e + scale_K).
Proof.
  intros e1 He He1 Hmod r. subst r.
  pose proof Hfmt as (Hprec & Hemax & Hemin).
  destruct (binary_round_spec prec emax Hprec s m e) as (m2 & Hm2 & Hr).
  fold e1 in Hm2, Hr.
  pose proof (fexp_ge_emin prec emax (Zpos (digits2_pos m) + e)) as Hge.
  fold e1 in Hge.
  destruct (rounded_to_mag s m2 e1 _ Hr ltac:(lia)) as (H1 & H2 & H3).
  split; [exact H1|]. split; [exact H2|]. rewrite H3.
  destruct Hm2 as [(Hle & [Hm2|(Hm2 & Hne)])|(Hgt & Hm2)].
  - specialize (Hmod Hle).
    assert (Hp : 0 < 2 ^ (e1 - e)) by (apply pow2_pos; lia).
    pose proof (Z.div_mod (Zpos m) (2 ^ (e1 - e)) ltac:(lia)) as Hdm.
    rewrite Hmod, Z.add_0_r, <- Hm2 in Hdm. rewrite Hdm.
    replace (e1 + scale_K) with (e1 - e + (e + scale_K)) by lia.
    rewrite Z.pow_add_r by lia. ring.
  - exfalso. apply Hne. apply Hmod. exact Hle.
  - rewrite Hm2, <- Z.mul_assoc, <- Z.pow_add_r by lia. do 2 f_equal. lia.
Qed.

(** Of two numbers of the format, the one with the lower exponent is the
    smaller. *)
Lemma lower_exponent_smaller (s s' : bool) (m m' : positive) (e e' : Z) :
  in_format prec emax (S754_finite s m e) ->
  in_format prec emax (S754_finite s' m' e') ->
  e < e' ->
  mag (S754_finite s m e) < mag (S754_finite s' m' e').
Proof.
  intros [Hc _] [Hc' _] Hlt. cbn [mag].
  pose proof Hfmt as (Hprec & Hemax & Hemin).
  pose proof (canonical_ge_emin _ _ _ _ Hc) as Hmin.
  pose proof (canonical_digits_le _ _ _ _ Hc) as Hd.
  pose proof (canonical_digits_eq _ _ _ _ Hc' ltac:(lia)) as Hd'.
  pose proof (digits2_pos_spec m) as [_ Hhi].
  pose proof (digits2_pos_spec m') as [Hlo _]. rewrite Hd' in Hlo.
  assert (Hm : Zpos m < 2 ^ prec).
  { eapply Z.lt_le_trans; [exact Hhi|]. apply Z.pow_le_mono_r; lia. }
  replace (e' + scale_K) with (e' - e + (e + scale_K)) by lia.
  rewrite (Z.pow_add_r 2 (e' - e) (e + scale_K)) by lia.
  assert (H2 : 2 ^ 1 <= 2 ^ (e' - e)) by (apply Z.pow_le_mono_r; lia).
  change (2 ^ 1) with 2 in H2.
  assert (Hp : 2 ^ prec = 2 ^ (prec - 1) * 2).
  { replace prec with (prec - 1 + 1) at 1 by lia.
    rewrite Z.pow_add_r by lia. reflexivity. }
  assert (HK : 0 < 2 ^ (e + scale_K)) by (apply pow2_pos; lia).
  assert (H3 : Zpos m < Zpos m' * 2 ^ (e' - e)) by nia.
  nia.
Qed.

(** A number has one representation in the format. *)
Lemma canonical_unique (s s' : bool) (m m' : positive) (e e' : Z) :
  in_format prec emax (S754_finite s m e) ->
  in_format prec emax (S754_finite s' m' e') ->
  mag (S754_finite s m e) = mag (S754_finite s' m' e') ->
  m = m' /\ e = e'.
Proof.
  intros Hx Hy Hm.
  pose proof Hfmt as (Hprec & Hemax & Hemin).
  destruct (Z.lt_trichotomy e e') as [Hlt|[->|Hgt]].
  - pose proof (lower_exponent_smaller s s' m m' e e' Hx Hy Hlt). lia.
  - split; [|reflexivity]. cbn [mag] in Hm.
    pose proof (canonical_ge_emin _ _ _ _ (proj1 Hy)) as Hmin.
    assert (HK : 0 < 2 ^ (e' + scale_K)) by (apply pow2_pos; lia).
    apply Z.mul_cancel_r in Hm; [congruence|lia].
  - pose proof (lower_exponent_smaller s' s m' m e' e Hy Hx Hgt). lia.
Qed.

(** The comparison of two positive numbers of the format is the
    comparison of their values. *)
Lemma SFcompare_canonical (m m' : positive) (e e' : Z) :
  in_format prec emax (S754_finite false m e) ->
  in_format prec emax (S754_finite false m' e') ->
  SFcompare (S754_finite false m e) (S754_finite false m' e') =
    Some (mag (S754_finite false m e) ?= mag (S754_finite false m' e')).
Proof.
  intros Hx Hy. unfold SFcompare. f_equal.
  pose proof Hfmt as (Hprec & Hemax & Hemin).
  destruct (Z.compare_spec e e') as [->|Hlt|Hgt].
  - rewrite Pos.compare_cont_spec. cbn [Pos.switch_Eq mag].
    pose proof (canonical_ge_emin _ _ _ _ (proj1 Hy)) as Hmin.
    assert (HK : 0 < 2 ^ (e' + scale_K)) by (apply pow2_pos; lia).
    rewrite Pos2Z.inj_compare.
    assert (Hsw : forall c, Pos.switch_Eq Eq c = c) by (intros []; reflexivity).
    rewrite Hsw. apply Zmult_compare_compat_r. lia.
  - symmetry. apply Z.compare_lt_iff.
    exact (lower_exponent_smaller false false m m' e e' Hx Hy Hlt).
  - symmetry. apply Z.compare_gt_iff.
    exact (lower_exponent_smaller false false m' m e' e Hy Hx Hgt).
Qed.
End Exact.

(** Two representations of a number have their leading bits at the same
    place. *)
Lemma same_mag_same_top (m m' : positive) (e e' : Z) :
  - scale_K <= e -> - scale_K <= e' ->
  Zpos m * 2 ^ (e + scale_K) = Zpos m' * 2 ^ (e' + scale_K) ->
  Zpos (digits2_pos m) + e = Zpos (digits2_pos m') + e'.
Proof.
  intros He He' Heq.
  pose proof (digits2_pos_spec m) as [H1 H2].
  pose proof (digits2_pos_spec m') as [H1' H2'].
  set (d := Zpos (digits2_pos m)) in *. set (d' := Zpos (digits2_pos m')) in *.
  assert (Hd : 1 <= d) by (subst d; lia).
  assert (Hd' : 1 <= d') by (subst d'; lia).
  assert (HK : 0 < 2 ^ (e + scale_K)) by (apply pow2_pos; lia).
  assert (HK' : 0 < 2 ^ (e' + scale_K)) by (apply pow2_pos; lia).
  assert (A : 2 ^ (d - 1 + (e + scale_K)) < 2 ^ (d' + (e' + scale_K))).
  { rewrite (Z.pow_add_r 2 (d - 1) (e + scale_K)) by lia.
    rewrite (Z.pow_add_r 2 d' (e' + scale_K)) by lia. nia. }
  assert (B : 2 ^ (d' - 1 + (e' + scale_K)) < 2 ^ (d + (e + scale_K))).
  { rewrite (Z.pow_add_r 2 (d' - 1) (e' + scale_K)) by lia.
    rewrite (Z.pow_add_r 2 d (e + scale_K)) by lia. nia. }
  apply Z.pow_lt_mono_r_iff in A; [|lia|lia].
  apply Z.pow_lt_mono_r_iff in B; [|lia|lia].
  lia.
Qed.

(** The promotion of a float to double is exact. *)
Lemma F2D_exact (x : float32) :
  in_format32 x ->
  in_format64 (F2D x) /\ sign_of (F2D x) = sign_of x /\ mag (F2D x) = mag x.
Proof.
  destruct x as [s|s| |s m e]; cbn [in_format]; try contradiction.
  - intros _. repeat split.
  - intros [Hc Hmax]. cbn [F2D SFconv sign_of mag].
    pose proof (canonical_ge_emin _ _ _ _ Hc) as Hmin.
    pose proof (canonical_digits_le _ _ _ _ Hc) as Hd.
    pose proof scale_K_eq as HK.
    unfold emin, F32.prec, F32.emax in *.
    apply (binary_round_exact F64.prec F64.emax fmt64 s m e).
    + lia.
    + unfold fexp, emin, F64.prec, F64.emax. lia.
    + unfold fexp, emin, F64.prec, F64.emax. lia.
Qed.

(** A float promoted to double and stored back is the float itself. *)
Lemma D2F_F2D (x : float32) (b : Z) :
  tame32 b x -> 0 < b < 2 ^ 24 -> D2F (F2D x) = x.
Proof.
  intros [Hf Hm] Hb.
  destruct x as [s|s| |s m e]; cbn [in_format] in Hf; try contradiction.
  { reflexivity. }
  destruct (F2D_exact (S754_finite s m e) Hf) as (Hyf & Hys & Hym).
  pose proof (in_format_exp_ge _ _ fmt32 s m e Hf) as He.
  pose proof (fexp_le_0 F32.prec F32.emax fmt32 m e b He Hb Hm) as He0.
  destruct Hf as [Hc Hmax].
  assert (Hce : fexp F32.prec F32.emax (Zpos (digits2_pos m) + e) = e).
  { unfold canonical_mantissa in Hc. apply Z.eqb_eq in Hc. exact Hc. }
  rewrite Hce in He0.
  pose proof scale_K_eq as HK.
  assert (HeK : 0 < 2 ^ (e + scale_K)) by (apply pow2_pos; lia).
  destruct (F2D (S754_finite s m e)) as [s'|s'| |s' m' e'] eqn:Hy;
    cbn [in_format] in Hyf; try contradiction.
  { cbn [mag] in Hym. lia. }
  cbn [sign_of] in Hys. subst s'. cbn [mag] in Hym.
  pose proof (in_format_exp_ge _ _ fmt64 s m' e' Hyf) as He'.
  pose proof (same_mag_same_top m' m e' e He' He Hym) as Htop.
  destruct Hyf as [Hc' Hmax'].
  assert (Hce' : fexp F64.prec F64.emax (Zpos (digits2_pos m') + e') = e').
  { unfold canonical_mantissa in Hc'. apply Z.eqb_eq in Hc'. exact Hc'. }
  assert (Hle : e' <= e).
  { rewrite <- Hce, <- Hce' at 1. rewrite Htop.
    unfold fexp, emin, F32.prec, F32.emax, F64.prec, F64.emax. lia. }
  assert (Hm' : Zpos m' = Zpos m * 2 ^ (e - e')).
  { assert (HeK' : 0 < 2 ^ (e' + scale_K)) by (apply pow2_pos; lia).
    replace (e + scale_K) with (e - e' + (e' + scale_K)) in Hym by lia.
    rewrite (Z.pow_add_r 2 (e - e') (e' + scale_K)), Z.mul_assoc in Hym by lia.
    apply Z.mul_cancel_r in Hym; [exact Hym|lia]. }
  cbn [D2F SFconv].
  destruct (binary_round_exact F32.prec F32.emax fmt32 s m' e') as (H1 & H2 & H3).
  - exact He'.
  - rewrite Htop, Hce. unfold F32.prec, F32.emax. lia.
  - rewrite Htop, Hce. intros _. rewrite Hm'. apply Z.mod_mul.
    assert (0 < 2 ^ (e - e')) by (apply pow2_pos; lia). lia.
  - destruct (binary_round F32.prec F32.emax s m' e') as [s3|s3| |s3 m3 e3];
      cbn [in_format] in H1; try contradiction.
    + cbn [mag] in H3. lia.
    + cbn [sign_of] in H2. subst s3.
      assert (Heq : mag (S754_finite s m3 e3) = mag (S754_finite s m e)).
      { rewrite H3. cbn [mag]. exact Hym. }
      destruct (canonical_unique F32.prec F32.emax fmt32 s s m3 m e3 e H1
                  (conj Hc Hmax) Heq) as [-> ->].
      reflexivity.
Qed.

(** ** The nearer hit *)

Lemma hit_distance_ltb (x y : float32) :
  hit_distance x -> hit_distance y ->
  F32.ltb x y = (mag x <? mag y).
Proof.
  destruct x as [| | |[|] m e]; try contradiction.
  destruct y as [| | |[|] m' e']; try contradiction.
  intros [Hx _] [Hy _]. unfold F32.ltb, SFltb.
  rewrite (SFcompare_canonical F32.prec F32.emax fmt32 m m' e e' Hx Hy).
  unfold Z.ltb. reflexivity.
Qed.

Lemma hit_distance_bound : 0 < 2 ^ 24 - 1 < 2 ^ 24.
Proof. change (2 ^ 24) with 16777216. lia. Qed.

Lemma hit_distance_F2D (x : float32) :
  hit_distance x ->
  exists m e, F2D x = S754_finite false m e /\
              in_format64 (S754_finite false m e) /\
              mag (S754_finite false m e) = mag x.
Proof.
  destruct x as [| | |[|] m e]; try contradiction.
  intros [Hf Hm].
  destruct (F2D_exact (S754_finite false m e) Hf) as (H1 & H2 & H3).
  pose proof (in_format_exp_ge _ _ fmt32 false m e Hf) as He.
  assert (0 < 2 ^ (e + scale_K)) by (apply pow2_pos; lia).
  destruct (F2D (S754_finite false m e)) as [s'|s'| |s' m' e'];
    cbn [in_format] in H1; try contradiction.
  - cbn [mag] in H3. lia.
  - cbn [sign_of] in H2. subst s'. exists m', e'. repeat split; try apply H1. exact H3.
Qed.

Lemma hit_distance_eq (x y : float32) :
  hit_distance x -> hit_distance y -> mag x = mag y -> x = y.
Proof.
  destruct x as [| | |[|] m e]; try contradiction.
  destruct y as [| | |[|] m' e']; try contradiction.
  intros [Hx _] [Hy _] Hm.
  destruct (canonical_unique F32.prec F32.emax fmt32 _ _ _ _ _ _ Hx Hy Hm) as [-> ->].
  reflexivity.
Qed.

(** When both hit distances are distances to a wall, the selection is
    consistent: the distance returned is the smaller of the two and
    belongs to the side whose offset and direction are returned. *)
Lemma select_hit_nearer (v h : Search) :
  hit_distance (s_hitDis v) -> hit_distance (s_hitDis h) ->
  (mag (s_hitDis v) < mag (s_hitDis h) /\
   d_result (select_hit v h) = s_hitDis v /\
   d_hitDirection (select_hit v h) = 1 /\
   d_hitOffset (select_hit v h) = s_rayY v) \/
  (mag (s_hitDis h) <= mag (s_hitDis v) /\
   d_result (select_hit v h) = s_hitDis h /\
   d_hitDirection (select_hit v h) = 0 /\
   d_hitOffset (select_hit v h) = s_rayX h).
Proof.
  intros Hv Hh.
  pose proof (hit_distance_ltb _ _ Hv Hh) as Hlt.
  destruct (hit_distance_F2D _ Hv) as (mv & ev & Ev & Fv & Mv).
  destruct (hit_distance_F2D _ Hh) as (mh & eh & Eh & Fh & Mh).
  assert (Tv : tame32 (2 ^ 24 - 1) (s_hitDis v)).
  { destruct (s_hitDis v) as [| | |[|] ? ?]; try contradiction. exact Hv. }
  assert (Th : tame32 (2 ^ 24 - 1) (s_hitDis h)).
  { destruct (s_hitDis h) as [| | |[|] ? ?]; try contradiction. exact Hh. }
  pose proof (D2F_F2D _ _ Tv hit_distance_bound) as Rv.
  pose proof (D2F_F2D _ _ Th hit_distance_bound) as Rh.
  assert (Hmin : c_fmin (F2D (s_hitDis v)) (F2D (s_hitDis h)) =
                 if mag (s_hitDis h) <? mag (s_hitDis v)
                 then F2D (s_hitDis h) else F2D (s_hitDis v)).
  { rewrite Ev, Eh. unfold c_fmin, F64.ltb, SFltb.
    rewrite (SFcompare_canonical F64.prec F64.emax fmt64 mh mv eh ev Fh Fv).
    rewrite Mv, Mh. unfold Z.ltb. reflexivity. }
  rewrite select_hit_result, Hmin.
  destruct (select_hit_texture v h) as [(Hc & -> & ->)|(Hc & -> & ->)];
    rewrite Hlt in Hc.
  - apply Z.ltb_lt in Hc. left.
    replace (mag (s_hitDis h) <? mag (s_hitDis v)) with false
      by (symmetry; apply Z.ltb_ge; lia).
    repeat split; try assumption.
  - apply Z.ltb_ge in Hc. right.
    destruct (Z.ltb_spec (mag (s_hitDis h)) (mag (s_hitDis v))) as [Hs|Hs].
    + repeat split; try assumption.
    + rewrite Rv. repeat split; try assumption.
      apply hit_distance_eq; try assumption. lia.
Qed.

(** When both searches of Distance hit a wall, at distances that are
    positive floats below 2^24, the call returns the smaller of the two
    hit distances, exactly, together with the offset and the direction
    of the side that has it: the vertical hit (direction 1, offset its
    y) when its distance is strictly smaller, the horizontal hit
    (direction 0, offset its x) otherwise. *)
Theorem Distance_returns_nearer (libm : Libm) (g_map : list Z) (fuel : nat)
    (px py a : float32) (run : DistanceRun) :
  distance_run libm g_map fuel px py a = Some run ->
  hit_distance (s_hitDis (d_vert run)) ->
  hit_distance (s_hitDis (d_hori run)) ->
  RayCasterFloatDistance libm g_map fuel px py a
    = Some (d_result run, d_hitOffset run, d_hitDirection run) /\
  ((mag (s_hitDis (d_vert run)) < mag (s_hitDis (d_hori run)) /\
    d_result run = s_hitDis (d_vert run) /\
    d_hitDirection run = 1 /\
    d_hitOffset run = s_rayY (d_vert run)) \/
   (mag (s_hitDis (d_hori run)) <= mag (s_hitDis (d_vert run)) /\
    d_result run = s_hitDis (d_hori run) /\
    d_hitDirection run = 0 /\
    d_hitOffset run = s_rayX (d_hori run))).
Proof.
  intros Hrun Hv Hh.
  split; [unfold RayCasterFloatDistance; rewrite Hrun; reflexivity|].
  apply distance_run_inv in Hrun as (a1 & a2 & v & h & _ & _ & _ & _ & ->).
  destruct (select_hit_searches v h) as [Ev Eh].
  rewrite Ev, Eh in *.
  apply select_hit_nearer; assumption.
Qed.

Lemma Distance_returns_nearer_witness :
  exists run,
    distance_run libm_sample zero_map 101 (playerX (corner_pose 588))
      (playerY (corner_pose 588)) (playerA (corner_pose 588)) = Some run /\
    ((mag (s_hitDis (d_vert run)) < mag (s_hitDis (d_hori run)) /\
      d_result run = s_hitDis (d_vert run) /\
      d_hitDirection run = 1 /\
      d_hitOffset run = s_rayY (d_vert run)) \/
     (mag (s_hitDis (d_hori run)) <= mag (s_hitDis (d_vert run)) /\
      d_result run = s_hitDis (d_hori run) /\
      d_hitDirection run = 0 /\
      d_hitOffset run = s_rayX (d_hori run))).
Proof.
  destruct (distance_run libm_sample zero_map 101 (playerX (corner_pose 588))
              (playerY (corner_pose 588)) (playerA (corner_pose 588)))
    as [run|] eqn:Hr; [|vm_compute in Hr; discriminate].
  exists run. split; [reflexivity|].
  assert (Hv : s_hitDis (d_vert run) = S754_finite false 9474790 (-17)).
  { vm_compute in Hr. injection Hr as <-. reflexivity. }
  assert (Hh : s_hitDis (d_hori run) = S754_finite false 9318153 (-17)).
  { vm_compute in Hr. injection Hr as <-. reflexivity. }
  apply (Distance_returns_nearer libm_sample zero_map 101 _ _ _ run Hr).
  - rewrite Hv. split; [split; [reflexivity|vm_compute; discriminate]|].
    vm_compute. discriminate.
  - rewrite Hh. split; [split; [reflexivity|vm_compute; discriminate]|].
    vm_compute. discriminate.
Defined.

(** ** The normalised angle *)

Lemma TWO_PI_format : in_format64 TWO_PI.
Proof. rewrite TWO_PI_eq. split; [reflexivity|vm_compute; discriminate]. Qed.

Lemma leb_TWO_PI_mag (y : float64) :
  in_format64 y -> sign_of y = false ->
  F64.leb TWO_PI y = (sval TWO_PI <=? mag y).
Proof.
  intros Hf Hs. pose proof TWO_PI_format as HT. pose proof TWO_PI_sval as HTv.
  rewrite TWO_PI_eq in *.
  destruct y as [s|s| |s m e]; cbn [in_format] in Hf; try contradiction.
  - cbn [mag]. symmetry. apply Z.leb_gt.
    pose proof pow2_K_pos. lia.
  - cbn [sign_of] in Hs. subst s. unfold F64.leb, SFleb.
    rewrite (SFcompare_canonical F64.prec F64.emax fmt64 _ _ _ _ HT Hf).
    rewrite sval_mag. cbn [cond_Zopp]. unfold Z.leb.
    destruct (_ ?= _); reflexivity.
Qed.

Lemma tame32_not_negative (b : Z) (x : float32) :
  tame32 b x -> sign_of x = false -> not_negative x.
Proof.
  intros [Hf _] Hs. destruct x as [s|s| |s m e]; try exact I; try contradiction.
  cbn [sign_of] in Hs. subst s. exact I.
Qed.

Lemma wrap_down_step (x : float32) (b : Z) :
  tame32 b x -> not_negative x -> 0 < b < 2 ^ 24 ->
  F64.leb TWO_PI (F2D x) = true ->
  tame32 b (D2F (F64.sub (F2D x) TWO_PI)) /\
  not_negative (D2F (F64.sub (F2D x) TWO_PI)).
Proof.
  intros Ht Hn Hb Hleb.
  destruct (F2D_bound x b Ht Hb) as (Hyf & Hys & Hym).
  assert (Hsx : sign_of (F2D x) = false).
  { destruct x as [s|s| |[|] m e]; try (exfalso; exact (proj1 Ht));
      try contradiction; try (cbn in Hleb; discriminate).
    rewrite Hys. reflexivity. }
  rewrite (leb_TWO_PI_mag _ Hyf Hsx) in Hleb. apply Z.leb_le in Hleb.
  pose proof TWO_PI_sval as HTv.
  pose proof pow2_K_pos as HKpos.
  destruct (F2D x) as [s|s| |s m e].
  1: exfalso; cbn [mag] in Hleb; lia.
  1, 2: exfalso; exact Hyf.
  cbn [sign_of] in Hsx. subst s.
  pose proof (in_format_exp_ge _ _ fmt64 false m e Hyf) as He.
  pose proof scale_K_eq as HK.
  change (2 ^ 24) with 16777216 in Hb.
  rewrite TWO_PI_eq in *.
  destruct (SFsub_bound F64.prec F64.emax fmt64 false false m 7074237752028440
              e (-50) b) as (H1 & H2 & H3).
  - exact He.
  - lia.
  - change (2 ^ F64.prec) with 9007199254740992. lia.
  - rewrite (sval_mag false m e). cbn [cond_Zopp].
    pose proof (mag_nonneg (S754_finite false m e)). lia.
  - fold (F64.sub (S754_finite false m e) (S754_finite false 7074237752028440 (-50)))
      in H1, H2, H3.
    rewrite (sval_mag false m e) in H2. cbn [cond_Zopp] in H2.
    replace (_ <? 0) with false in H2 by (symmetry; apply Z.ltb_ge; lia).
    destruct (D2F_bound _ b H1 H3 ltac:(change (2 ^ 24) with 16777216; lia))
      as [Hr Hrs].
    split; [exact Hr|]. apply (tame32_not_negative b); [exact Hr|].
    rewrite Hrs. exact H2.
Qed.

Lemma wrap_down_range (fuel : nat) :
  forall (x r : float32) (b : Z),
    tame32 b x -> not_negative x -> 0 < b < 2 ^ 24 ->
    wrap_down fuel x = Some r ->
    tame32 b r /\ not_negative r /\ F64.leb TWO_PI (F2D r) = false.
Proof.
  induction fuel as [|fuel IH]; intros x r b Ht Hn Hb; [discriminate|].
  rewrite wrap_down_S.
  destruct (F64.leb TWO_PI (F2D x)) eqn:Hleb.
  - destruct (wrap_down_step x b Ht Hn Hb Hleb) as [Ht' Hn'].
    apply IH; assumption.
  - intros [= <-]. repeat split; try assumption; apply Ht.
Qed.

Lemma wrap_up_result (fuel : nat) :
  forall x r : float32,
    wrap_up fuel x = Some r -> F32.ltb r (F32.of_Z 0) = false.
Proof.
  induction fuel as [|fuel IH]; intros x r; [discriminate|].
  cbn [wrap_up].
  destruct (F32.ltb x (F32.of_Z 0)) eqn:Hlt.
  - apply IH.
  - intros [= <-]. exact Hlt.
Qed.

Lemma ltb_zero_not_negative (b : Z) (x : float32) :
  tame32 b x -> F32.ltb x (F32.of_Z 0) = false -> not_negative x.
Proof.
  intros [Hf _] H. destruct x as [s|s| |[|] m e]; try exact I; try contradiction.
  cbv in H. discriminate H.
Qed.

Lemma wrap_up_tame (fuel : nat) (x : float32) (b : Z) :
  tame32 b x -> 7 <= b <= 6 * (Z.of_nat fuel - 1) -> b < 2 ^ 24 ->
  exists r, wrap_up fuel x = Some r /\ tame32 b r.
Proof.
  intros Ht Hb Hb24.
  destruct fuel as [|[|n]]; [lia|lia|].
  destruct x as [s|s| |s m e]; try (exfalso; exact (proj1 Ht)).
  - exists (S754_zero s). split; [reflexivity|exact Ht].
  - destruct s.
    + destruct (wrap_up_negative n m e b Ht ltac:(lia) Hb24) as (r & Hw & Hr).
      exists r. split; [exact Hw|].
      apply (tame32_mono (Z.max b 7)); [lia|exact Hr].
    + exists (S754_finite false m e). split; [reflexivity|exact Ht].
Qed.

(** The two loops at the head of Distance bring every float angle of
    magnitude at most b, 7 <= b < 2^24, into the range [0, 2 pi): given
    fuel for b / 6 + 1 turns they both exit, and the angle they leave is
    a float that is not below zero and is below 2.0f * M_PI as a
    double. *)
Theorem angle_normalised (fuel : nat) (a : float32) (b : Z) :
  tame32 b a -> 7 <= b <= 6 * (Z.of_nat fuel - 1) -> b < 2 ^ 24 ->
  exists a1 a2,
    wrap_up fuel a = Some a1 /\ wrap_down fuel a1 = Some a2 /\
    tame32 b a2 /\
    F32.ltb a2 (F32.of_Z 0) = false /\
    F64.leb TWO_PI (F2D a2) = false /\
    0 <= sval a2 < sval TWO_PI.
Proof.
  intros Ht Hb Hb24.
  destruct (wrap_up_tame fuel a b Ht Hb Hb24) as (a1 & H1 & Ht1).
  pose proof (wrap_up_result fuel a a1 H1) as Hlt1.
  pose proof (ltb_zero_not_negative b a1 Ht1 Hlt1) as Hn1.
  destruct (wrap_down_total fuel a1 b (or_intror Ht1) ltac:(lia) Hb24) as (a2 & H2).
  destruct (wrap_down_range fuel a1 a2 b Ht1 Hn1 ltac:(lia) H2) as (Ht2 & Hn2 & Hleb).
  exists a1, a2.
  split; [exact H1|]. split; [exact H2|]. split; [exact Ht2|].
  assert (Hshape : match a2 with
                   | S754_zero _ | S754_finite false _ _ => True
                   | _ => False
                   end).
  { destruct a2 as [s|s| |[|] m e]; try exact I; try contradiction;
      exact (proj1 Ht2). }
  split; [destruct a2 as [s|s| |[|] m e]; try contradiction; reflexivity|].
  split; [exact Hleb|].
  split.
  - destruct a2 as [s|s| |[|] m e]; try contradiction; cbn [sval cond_Zopp]; lia.
  - destruct (F2D_exact a2 (proj1 Ht2)) as (Hyf & Hys & Hym).
    destruct a2 as [s|s| |[|] m e]; try contradiction.
    + cbn [sval]. pose proof TWO_PI_sval. pose proof pow2_K_pos. lia.
    + rewrite (leb_TWO_PI_mag _ Hyf Hys) in Hleb. apply Z.leb_gt in Hleb.
      rewrite Hym in Hleb. rewrite sval_mag. exact Hleb.
Qed.

Lemma angle_normalised_witness :
  exists a1 a2,
    wrap_up 3 (F32.of_Z (-1)) = Some a1 /\ wrap_down 3 a1 = Some a2 /\
    tame32 7 a2 /\
    F32.ltb a2 (F32.of_Z 0) = false /\
    F64.leb TWO_PI (F2D a2) = false /\
    0 <= sval a2 < sval TWO_PI.
Proof.
  apply (angle_normalised 3 (F32.of_Z (-1)) 7).
  - split; [split; [reflexivity|vm_compute; discriminate]|].
    vm_compute. discriminate.
  - cbn. lia.
  - reflexivity.
Defined.

(** ** Exact products and quotients *)

Section Exact2.
Variables prec emax : Z.
Hypothesis Hfmt : format_ok prec emax.

Lemma binary_round_aux_exact (s : bool) (M : positive) (E : Z) :
  let e1 := fexp prec emax (Zpos (digits2_pos M) + E) in
  E <= e1 -> - scale_K <= E -> e1 < emax - prec ->
  Zpos M mod 2 ^ (e1 - E) = 0 ->
  let r := binary_round_aux prec emax s (Zpos M) E loc_Exact in
  in_format prec emax r /\ sign_of r = s /\ mag r = Zpos M * 2 ^ (E + scale_K).
Proof.
  intros e1 HE HK He1 Hmod r. subst r.
  pose proof Hfmt as (Hprec & Hemax & Hemin).
  destruct (binary_round_aux_spec prec emax Hprec s M E loc_Exact HE)
    as (m2 & Hm2 & Hr).
  fold e1 in Hm2, Hr.
  pose proof (fexp_ge_emin prec emax (Zpos (digits2_pos M) + E)) as Hge.
  fold e1 in Hge.
  destruct (rounded_to_mag prec emax Hfmt s m2 e1 _ Hr ltac:(lia)) as (H1 & H2 & H3).
  split; [exact H1|]. split; [exact H2|]. rewrite H3.
  destruct Hm2 as [Hm2|(_ & Hne)]; [|exfalso; apply Hne; [reflexivity|exact Hmod]].
  assert (Hp : 0 < 2 ^ (e1 - E)) by (apply pow2_pos; lia).
  pose proof (Z.div_mod (Zpos M) (2 ^ (e1 - E)) ltac:(lia)) as Hdm.
  rewrite Hmod, Z.add_0_r, <- Hm2 in Hdm. rewrite Hdm.
  replace (e1 + scale_K) with (e1 - E + (E + scale_K)) by lia.
  rewrite (Z.pow_add_r 2 (e1 - E) (E + scale_K)) by lia. ring.
Qed.

(** A number of the format is determined by its sign and magnitude. *)
Lemma in_format_eq (r : spec_float) (s : bool) (m : positive) (e : Z) :
  in_format prec emax r -> sign_of r = s ->
  mag r = mag (S754_finite s m e) ->
  in_format prec emax (S754_finite s m e) ->
  r = S754_finite s m e.
Proof.
  intros Hr Hs Hm Hx.
  pose proof (in_format_exp_ge prec emax Hfmt s m e Hx) as He.
  assert (0 < 2 ^ (e + scale_K)) by (apply pow2_pos; lia).
  destruct r as [s'|s'| |s' m' e']; cbn [in_format] in Hr; try contradiction.
  - cbn [mag] in Hm. lia.
  - cbn [sign_of] in Hs. subst s'.
    destruct (canonical_unique prec emax Hfmt s s m' m e' e Hr Hx Hm) as [-> ->].
    reflexivity.
Qed.
End Exact2.

Lemma of_Z_exact (z : Z) :
  z <> 0 -> Z.abs z < 2 ^ 24 ->
  exists m e,
    F32.of_Z z = S754_finite (z <? 0) m e /\
    in_format32 (S754_finite (z <? 0) m e) /\
    Zpos (digits2_pos m) = 24 /\ -23 <= e <= 0 /\
    mag (S754_finite (z <? 0) m e) = Z.abs z * 2 ^ scale_K.
Proof.
  intros Hz Hlt.
  destruct (of_Z_small z Hz Hlt) as (m & e & Hof & Hf & He & Hm).
  exists m, e. split; [exact Hof|]. split; [exact Hf|].
  pose proof scale_K_eq as HK.
  assert (Hd : Zpos (digits2_pos m) = 24).
  { apply (canonical_digits_eq F32.prec F32.emax m e (proj1 Hf)).
    unfold emin, F32.prec, F32.emax. lia. }
  split; [exact Hd|].
  assert (Hp : forall (s : bool) (p : positive), Zpos p < 2 ^ 24 ->
            mag (binary_round F32.prec F32.emax s p 0) = Zpos p * 2 ^ scale_K).
  { intros s p Hp.
    assert (Hdp : Zpos (digits2_pos p) <= 24) by (apply digits2_pos_le; lia).
    assert (Hdp1 : 1 <= Zpos (digits2_pos p)) by lia.
    destruct (binary_round_exact F32.prec F32.emax fmt32 s p 0) as (_ & _ & H3).
    - lia.
    - unfold fexp, emin, F32.prec, F32.emax. lia.
    - intros Hle.
      replace (fexp F32.prec F32.emax (Zpos (digits2_pos p) + 0) - 0) with 0
        by (revert Hle; unfold fexp, emin, F32.prec, F32.emax; lia).
      apply Z.mod_1_r.
    - rewrite H3. rewrite Z.add_0_l. reflexivity. }
  assert (Hmag : mag (F32.of_Z z) = Z.abs z * 2 ^ scale_K).
  { unfold F32.of_Z, binary_normalize.
    destruct z as [|p|p]; [congruence|apply Hp; lia|apply Hp; lia]. }
  rewrite Hof in Hmag. split; [|exact Hmag].
  split; [exact He|].
  (* the exponent is not above zero *)
  destruct (Z.le_gt_cases e 0) as [|Hgt]; [assumption|exfalso].
  cbn [mag] in Hmag.
  pose proof (digits2_pos_spec m) as [Hlo _]. rewrite Hd in Hlo.
  pose proof pow2_K_pos as HKp.
  assert (H1 : 2 ^ (1 + scale_K) <= 2 ^ (e + scale_K))
    by (apply Z.pow_le_mono_r; lia).
  rewrite (Z.pow_add_r 2 1 scale_K) in H1 by lia. change (2 ^ 1) with 2 in H1.
  change (2 ^ (24 - 1)) with 8388608 in Hlo. change (2 ^ 24) with 16777216 in Hlt.
  nia.
Qed.

(** The quotient of a normal float by a power of two, in the normal
    range, is the float with its exponent lowered. *)
Lemma F32_div_pow2 (s : bool) (m : positive) (e ey : Z) :
  in_format32 (S754_finite s m e) -> Zpos (digits2_pos m) = 24 ->
  -125 <= e - ey <= 126 ->
  F32.div (S754_finite s m e) (S754_finite false 8388608 ey)
  = S754_finite s m (e - ey - 23).
Proof.
  intros Hf Hd Ht.
  pose proof (in_format_exp_ge _ _ fmt32 s m e Hf) as HeK.
  pose proof scale_K_eq as HK.
  assert (Hc : in_format32 (S754_finite s m (e - ey - 23))).
  { split; [|unfold F32.prec, F32.emax; lia].
    unfold canonical_mantissa. apply Z.eqb_eq. rewrite Hd.
    unfold fexp, emin, F32.prec, F32.emax. lia. }
  unfold F32.div, SFdiv, SFdiv_core_binary. cbn [Zdigits2]. rewrite Hd.
  change (Zpos (digits2_pos 8388608)) with 24.
  replace (Z.min (fexp F32.prec F32.emax (24 + e - (24 + ey))) (e - ey))
    with (e - ey - 24) by (unfold fexp, emin, F32.prec, F32.emax; lia).
  replace (e - ey - (e - ey - 24)) with 24 by lia.
  cbn [xorb]. replace (xorb s false) with s by (destruct s; reflexivity).
  rewrite Z.shiftl_mul_pow2 by lia.
  assert (Hq : Z.div_eucl (Zpos m * 2 ^ 24) 8388608 = (Zpos (m~0), 0)).
  { pose proof (Z.div_mod (Zpos m * 2 ^ 24) 8388608 ltac:(lia)) as Hdm.
    pose proof (Z.mod_pos_bound (Zpos m * 2 ^ 24) 8388608 ltac:(lia)) as Hmb.
    assert (Hq1 : Zpos m * 2 ^ 24 / 8388608 = Zpos (m~0)).
    { change (2 ^ 24) with (2 * 8388608). rewrite Z.mul_assoc.
      rewrite Z.div_mul by lia. lia. }
    assert (Hr1 : (Zpos m * 2 ^ 24) mod 8388608 = 0).
    { change (2 ^ 24) with (2 * 8388608). rewrite Z.mul_assoc.
      apply Z.mod_mul. lia. }
    unfold Z.div in Hq1. unfold Z.modulo in Hr1.
    destruct (Z.div_eucl (Zpos m * 2 ^ 24) 8388608) as [q r].
    subst q r. reflexivity. }
  rewrite Hq.
  change (new_location 8388608 0) with loc_Exact.
  assert (Hd2 : Zpos (digits2_pos m~0) = 25).
  { cbn [digits2_pos]. rewrite Pos2Z.inj_succ. lia. }
  destruct (binary_round_aux_exact F32.prec F32.emax fmt32 s (m~0) (e - ey - 24))
    as (H1 & H2 & H3).
  - rewrite Hd2. unfold fexp, emin, F32.prec, F32.emax. lia.
  - lia.
  - rewrite Hd2. unfold fexp, emin, F32.prec, F32.emax. lia.
  - rewrite Hd2.
    replace (fexp F32.prec F32.emax (25 + (e - ey - 24)) - (e - ey - 24)) with 1
      by (unfold fexp, emin, F32.prec, F32.emax; lia).
    change (2 ^ 1) with 2. rewrite Pos2Z.inj_xO. rewrite Z.mul_comm.
    apply Z.mod_mul. lia.
  - apply (in_format_eq F32.prec F32.emax fmt32 _ s m (e - ey - 23) H1 H2); [|exact Hc].
    rewrite H3. cbn [mag]. rewrite Pos2Z.inj_xO.
    replace (e - ey - 23 + scale_K) with (1 + (e - ey - 24 + scale_K)) by lia.
    rewrite (Z.pow_add_r 2 1 (e - ey - 24 + scale_K)) by lia.
    change (2 ^ 1) with 2. ring.
Qed.

(** The product of a normal float with a power of two, in the normal
    range, is the float with its exponent raised. *)
Lemma F32_mul_pow2 (s : bool) (m : positive) (e ey : Z) :
  in_format32 (S754_finite s m e) -> Zpos (digits2_pos m) = 24 ->
  -149 <= e + ey + 23 < 104 ->
  F32.mul (S754_finite s m e) (S754_finite false 8388608 ey)
  = S754_finite s m (e + ey + 23).
Proof.
  intros Hf Hd Ht.
  pose proof (in_format_exp_ge _ _ fmt32 s m e Hf) as HeK.
  pose proof scale_K_eq as HK.
  assert (Hc : in_format32 (S754_finite s m (e + ey + 23))).
  { split; [|unfold F32.prec, F32.emax; lia].
    unfold canonical_mantissa. apply Z.eqb_eq. rewrite Hd.
    unfold fexp, emin, F32.prec, F32.emax. lia. }
  unfold F32.mul. cbn [SFmul].
  replace (xorb s false) with s by (destruct s; reflexivity).
  assert (Hd2 : Zpos (digits2_pos (m * 8388608)) = 47).
  { rewrite (digits2_pos_shift m 23 (m * 8388608)); [lia|lia|].
    rewrite Pos2Z.inj_mul. reflexivity. }
  destruct (binary_round_aux_exact F32.prec F32.emax fmt32 s (m * 8388608) (e + ey))
    as (H1 & H2 & H3).
  - rewrite Hd2. unfold fexp, emin, F32.prec, F32.emax. lia.
  - lia.
  - rewrite Hd2. unfold fexp, emin, F32.prec, F32.emax. lia.
  - rewrite Hd2.
    replace (fexp F32.prec F32.emax (47 + (e + ey)) - (e + ey)) with 23
      by (unfold fexp, emin, F32.prec, F32.emax; lia).
    rewrite Pos2Z.inj_mul. change (2 ^ 23) with 8388608.
    apply Z.mod_mul. lia.
  - apply (in_format_eq F32.prec F32.emax fmt32 _ s m (e + ey + 23) H1 H2); [|exact Hc].
    rewrite H3. cbn [mag]. rewrite Pos2Z.inj_mul.
    replace (e + ey + 23 + scale_K) with (23 + (e + ey + scale_K)) by lia.
    rewrite (Z.pow_add_r 2 23 (e + ey + scale_K)) by lia.
    change (2 ^ 23) with 8388608. ring.
Qed.

(** ** The position that Start stores *)

Lemma F32_of_Z_4 : F32.of_Z 4 = S754_finite false 8388608 (-21).
Proof. reflexivity. Qed.

(** The truncation of a float is its scaled magnitude without the
    scale. *)
Lemma trunc_Z_mag (m : positive) (e : Z) :
  - scale_K <= e ->
  trunc_Z (S754_finite false m e) = Some (mag (S754_finite false m e) / 2 ^ scale_K).
Proof.
  intros He. cbn [trunc_Z mag cond_Zopp]. f_equal.
  pose proof scale_K_eq as HK. pose proof pow2_K_pos as HKp.
  destruct e as [|p|p].
  - rewrite Z.shiftl_mul_pow2 by lia. change (2 ^ 0) with 1.
    rewrite Z.add_0_l, Z.mul_1_r. rewrite Z.div_mul by lia. reflexivity.
  - rewrite Z.shiftl_mul_pow2 by lia.
    rewrite (Z.pow_add_r 2 (Zpos p) scale_K) by lia.
    rewrite Z.mul_assoc. rewrite Z.div_mul by lia. reflexivity.
  - rewrite Z.shiftr_div_pow2 by lia.
    assert (Hs : 2 ^ scale_K = 2 ^ (Zneg p + scale_K) * 2 ^ Zpos p).
    { rewrite <- Z.pow_add_r by lia. f_equal. lia. }
    rewrite Hs.
    assert (0 < 2 ^ (Zneg p + scale_K)) by (apply pow2_pos; lia).
    assert (0 < 2 ^ Zpos p) by (apply pow2_pos; lia).
    rewrite (Z.mul_comm (2 ^ (Zneg p + scale_K)) (2 ^ Zpos p)).
    rewrite Z.div_mul_cancel_r by lia. reflexivity.
Qed.

Lemma float_to_int_of_Z (z : Z) :
  0 <= z < 2 ^ 24 -> float_to_int (F32.of_Z z) = z.
Proof.
  intros Hz. destruct (Z.eq_dec z 0) as [->|Hnz]; [reflexivity|].
  destruct (of_Z_exact z Hnz ltac:(lia)) as (m & e & -> & Hf & _ & He & Hm).
  replace (z <? 0) with false in * by (symmetry; apply Z.ltb_ge; lia).
  unfold float_to_int.
  rewrite trunc_Z_mag by (pose proof scale_K_eq; lia).
  rewrite Hm, Z.abs_eq by lia.
  pose proof pow2_K_pos. rewrite Z.div_mul by lia.
  unfold INT_MIN. change (2 ^ 24) with 16777216 in Hz.
  change (2 ^ 31) with 2147483648.
  change (- (2147483648)) with (-2147483648).
  destruct (Z.leb_spec (-2147483648) z); [|lia].
  destruct (Z.ltb_spec z 2147483648); [reflexivity|lia].
Qed.

Lemma tile_of_mag (m : positive) (e : Z) :
  - scale_K <= e ->
  0 <= mag (S754_finite false m e) / 2 ^ scale_K < 2 ^ 24 ->
  tile_of (S754_finite false m e) = mag (S754_finite false m e) / 2 ^ scale_K.
Proof.
  intros He Hr. unfold tile_of. cbn [modff snd].
  rewrite trunc_Z_mag by exact He.
  set (t := mag (S754_finite false m e) / 2 ^ scale_K) in *.
  destruct t as [|p|p] eqn:Ht; [reflexivity| |lia].
  rewrite <- Ht. apply float_to_int_of_Z. lia.
Qed.

Lemma Start_coordinate (p : Z) :
  0 <= p < 65536 ->
  let x := F32.mul (F32.div (F32.of_Z p) (F32.of_Z 1024)) (F32.of_Z 4) in
  in_format32 x /\ sign_of x = false /\
  mag x * 256 = p * 2 ^ scale_K /\ tile_of x = p / 256.
Proof.
  intros Hp x. subst x.
  pose proof scale_K_eq as HK. pose proof pow2_K_pos as HKp.
  destruct (Z.eq_dec p 0) as [->|Hnz].
  { repeat split. }
  destruct (of_Z_exact p Hnz ltac:(change (2 ^ 24) with 16777216; lia))
    as (m & e & -> & Hf & Hd & He & Hm).
  replace (p <? 0) with false in * by (symmetry; apply Z.ltb_ge; lia).
  rewrite F32_of_Z_1024, F32_of_Z_4.
  rewrite (F32_div_pow2 false m e (-13) Hf Hd) by lia.
  assert (Hf2 : in_format32 (S754_finite false m (e - -13 - 23))).
  { split; [|unfold F32.prec, F32.emax; lia].
    unfold canonical_mantissa. apply Z.eqb_eq. rewrite Hd.
    unfold fexp, emin, F32.prec, F32.emax. lia. }
  rewrite (F32_mul_pow2 false m _ (-21) Hf2 Hd) by lia.
  replace (e - -13 - 23 + -21 + 23) with (e - 8) by lia.
  assert (Hf3 : in_format32 (S754_finite false m (e - 8))).
  { split; [|unfold F32.prec, F32.emax; lia].
    unfold canonical_mantissa. apply Z.eqb_eq. rewrite Hd.
    unfold fexp, emin, F32.prec, F32.emax. lia. }
  assert (Hmag : mag (S754_finite false m (e - 8)) * 256 = p * 2 ^ scale_K).
  { cbn [mag] in *. rewrite Z.abs_eq in Hm by lia. rewrite <- Hm.
    replace (e + scale_K) with (8 + (e - 8 + scale_K)) by lia.
    rewrite (Z.pow_add_r 2 8 (e - 8 + scale_K)) by lia.
    change (2 ^ 8) with 256. ring. }
  split; [exact Hf3|]. split; [reflexivity|]. split; [exact Hmag|].
  assert (Hq : mag (S754_finite false m (e - 8)) / 2 ^ scale_K = p / 256).
  { symmetry.
    apply (Z.div_unique _ _ _
             (mag (S754_finite false m (e - 8)) - p / 256 * 2 ^ scale_K)).
    - left.
      pose proof (Z.div_mod p 256 ltac:(lia)) as Hdm.
      pose proof (Z.mod_pos_bound p 256 ltac:(lia)) as Hmb.
      set (M := mag (S754_finite false m (e - 8))) in *.
      set (X := 2 ^ scale_K) in *.
      set (q := p / 256) in *. set (r := p mod 256) in *.
      rewrite Hdm in Hmag.
      clearbody M X q r. clear - Hmag Hmb HKp.
      assert (H256 : 256 * (M - q * X) = r * X) by lia.
      assert (0 <= r * X) by (apply Z.mul_nonneg_nonneg; lia).
      assert (r * X < 256 * X) by (apply Z.mul_lt_mono_pos_r; lia).
      lia.
    - ring. }
  rewrite tile_of_mag; [exact Hq|lia|].
  rewrite Hq. change (2 ^ 24) with 16777216.
  pose proof (Z.div_pos p 256 ltac:(lia) ltac:(lia)).
  assert (p / 256 < 256) by (apply Z.div_lt_upper_bound; lia). lia.
Qed.

(** Start converts the position without error: for a 16-bit position
    (px, py) the stored playerX and playerY are exactly px / 256 and
    py / 256, and the tile that IsWall derives from them is
    (px >> 8, py >> 8). *)
Theorem Start_position_exact (rc : RayCasterFloat) (px py pa : Z) :
  0 <= px < 65536 -> 0 <= py < 65536 ->
  let pose := RayCasterFloatStart rc px py pa in
  in_format32 (playerX pose) /\ in_format32 (playerY pose) /\
  sval (playerX pose) * 256 = px * 2 ^ scale_K /\
  sval (playerY pose) * 256 = py * 2 ^ scale_K /\
  tile_of (playerX pose) = Z.shiftr px 8 /\
  tile_of (playerY pose) = Z.shiftr py 8.
Proof.
  intros Hx Hy pose. subst pose. cbn [RayCasterFloatStart playerX playerY].
  destruct (Start_coordinate px Hx) as (A1 & A2 & A3 & A4).
  destruct (Start_coordinate py Hy) as (B1 & B2 & B3 & B4).
  rewrite !Z.shiftr_div_pow2 by lia. change (2 ^ 8) with 256.
  assert (Hsv : forall x, in_format32 x -> sign_of x = false -> sval x = mag x).
  { intros x Hf Hs. destruct x as [s|s| |s m e]; try reflexivity.
    cbn [sign_of] in Hs. subst s. reflexivity. }
  rewrite (Hsv _ A1 A2), (Hsv _ B1 B2).
  repeat split; assumption.
Qed.

Lemma Start_position_exact_witness :
  in_format32 (playerX (corner_pose 0)) /\ in_format32 (playerY (corner_pose 0)) /\
  sval (playerX (corner_pose 0)) * 256 = 16000 * 2 ^ scale_K /\
  sval (playerY (corner_pose 0)) * 256 = 16000 * 2 ^ scale_K /\
  tile_of (playerX (corner_pose 0)) = Z.shiftr 16000 8 /\
  tile_of (playerY (corner_pose 0)) = Z.shiftr 16000 8.
Proof.
  apply (Start_position_exact uninit_RayCasterFloat 16000 16000 0).
  - lia.
  - lia.
Defined.

(** ** Probes on the grid lines *)

Lemma F32_of_Z_0 : F32.of_Z 0 = S754_zero false.
Proof. reflexivity. Qed.

(** The sum of two small non-negative integers is formed without error. *)
Lemma F32_add_of_Z (n k : Z) :
  0 <= n -> 0 < k -> n + k < 2 ^ 24 ->
  F32.add (F32.of_Z n) (F32.of_Z k) = F32.of_Z (n + k).
Proof.
  intros Hn Hk Hnk.
  pose proof scale_K_eq as HK. pose proof pow2_K_pos as HKp.
  destruct (of_Z_exact k ltac:(lia) ltac:(lia)) as (my & ey & Ek & Fy & Dy & Hey & My).
  replace (k <? 0) with false in * by (symmetry; apply Z.ltb_ge; lia).
  destruct (Z.eq_dec n 0) as [->|Hnz].
  { rewrite F32_of_Z_0, Z.add_0_l, Ek. reflexivity. }
  destruct (of_Z_exact n Hnz ltac:(lia)) as (mx & ex & En & Fx & Dx & Hex & Mx).
  replace (n <? 0) with false in * by (symmetry; apply Z.ltb_ge; lia).
  destruct (of_Z_exact (n + k) ltac:(lia) ltac:(lia))
    as (mz & ez & Ez & Fz & Dz & Hez & Mz).
  replace (n + k <? 0) with false in * by (symmetry; apply Z.ltb_ge; lia).
  rewrite En, Ek, Ez. unfold F32.add. cbn [SFadd cond_Zopp].
  set (e0 := Z.min ex ey).
  pose proof (aligned_sval false mx ex e0 ltac:(lia) ltac:(lia)) as Ax.
  pose proof (aligned_sval false my ey e0 ltac:(lia) ltac:(lia)) as Ay.
  cbn [cond_Zopp] in Ax, Ay.
  rewrite (sval_mag false mx ex) in Ax. rewrite (sval_mag false my ey) in Ay.
  cbn [cond_Zopp] in Ax, Ay. rewrite Mx in Ax. rewrite My in Ay.
  rewrite Z.abs_eq in Ax, Ay, Mz by lia.
  set (a := fst (shl_align mx ex e0)) in *.
  set (b := fst (shl_align my ey e0)) in *.
  change (Zpos a + Zpos b) with (Zpos (a + b)). cbn [binary_normalize].
  assert (Hsum : Zpos (a + b) * 2 ^ (e0 + scale_K) = Zpos mz * 2 ^ (ez + scale_K)).
  { cbn [mag] in Mz. rewrite Mz, Pos2Z.inj_add. lia. }
  pose proof (same_mag_same_top (a + b) mz e0 ez ltac:(lia) ltac:(lia) Hsum) as Htop.
  assert (He1 : fexp F32.prec F32.emax (Zpos (digits2_pos (a + b)) + e0) = ez).
  { rewrite Htop, Dz. unfold fexp, emin, F32.prec, F32.emax. lia. }
  destruct (binary_round_exact F32.prec F32.emax fmt32 false (a + b) e0)
    as (H1 & H2 & H3).
  - lia.
  - rewrite He1. unfold F32.prec, F32.emax. lia.
  - rewrite He1. intros Hle.
    assert (Hab : Zpos (a + b) = Zpos mz * 2 ^ (ez - e0)).
    { assert (0 < 2 ^ (e0 + scale_K)) by (apply pow2_pos; lia).
      replace (ez + scale_K) with (ez - e0 + (e0 + scale_K)) in Hsum by lia.
      rewrite (Z.pow_add_r 2 (ez - e0) (e0 + scale_K)), Z.mul_assoc in Hsum by lia.
      apply Z.mul_cancel_r in Hsum; [exact Hsum|lia]. }
    rewrite Hab. apply Z.mod_mul.
    assert (0 < 2 ^ (ez - e0)) by (apply pow2_pos; lia). lia.
  - apply (in_format_eq F32.prec F32.emax fmt32 _ false mz ez H1 H2); [|exact Fz].
    rewrite H3. cbn [mag]. exact Hsum.
Qed.

Lemma float_to_int_mag (m : positive) (e : Z) :
  - scale_K <= e ->
  0 <= mag (S754_finite false m e) / 2 ^ scale_K < 2 ^ 31 ->
  float_to_int (S754_finite false m e) = mag (S754_finite false m e) / 2 ^ scale_K.
Proof.
  intros He Hr. unfold float_to_int. rewrite trunc_Z_mag by exact He.
  unfold INT_MIN. change (2 ^ 31) with 2147483648 in *.
  change (- (2147483648)) with (-2147483648).
  destruct (Z.leb_spec (-2147483648) (mag (S754_finite false m e) / 2 ^ scale_K)); [|lia].
  destruct (Z.ltb_spec (mag (S754_finite false m e) / 2 ^ scale_K) 2147483648);
    [reflexivity|lia].
Qed.

Lemma tile_of_of_Z (n : Z) : 0 <= n < 2 ^ 24 -> tile_of (F32.of_Z n) = n.
Proof.
  intros Hn. destruct (Z.eq_dec n 0) as [->|Hnz]; [reflexivity|].
  destruct (of_Z_exact n Hnz ltac:(lia)) as (m & e & -> & Hf & _ & He & Hm).
  replace (n <? 0) with false in * by (symmetry; apply Z.ltb_ge; lia).
  pose proof scale_K_eq as HK. pose proof pow2_K_pos as HKp.
  assert (Hq : mag (S754_finite false m e) / 2 ^ scale_K = n).
  { rewrite Hm, Z.abs_eq by lia. apply Z.div_mul. lia. }
  rewrite tile_of_mag; [exact Hq|lia|rewrite Hq; exact Hn].
Qed.

(** A search that steps by +1 along an axis from an integer coordinate
    [n] probes the integers in turn and ends on a solid cell before the
    coordinate passes MAP_X - 1. *)
Lemma search_loop_east (g_map : list Z) (px py yo : float32) (k : nat) :
  forall (fuel : nat) (n : Z) (ry : float32) (depth : Z) (iters : nat) (r : Search),
    0 <= n -> MAP_X - 1 <= n + Z.of_nat k < 2 ^ 24 ->
    0 <= depth -> depth + Z.of_nat k < maxDepth ->
    search_loop g_map fuel px py (F32.of_Z 1) yo (F32.of_Z n) ry depth iters
      = Some r ->
    depth <= s_depth r <= depth + Z.of_nat k /\
    s_rayX r = F32.of_Z (n + (s_depth r - depth)) /\
    RayCasterFloatIsWall g_map (s_rayX r) (s_rayY r) = true /\
    s_hitDis r = P2P_DISTANCE px py (s_rayX r) (s_rayY r).
Proof.
  induction k as [|k IH]; intros fuel n ry depth iters r Hn Hk Hd Hdk;
    (destruct fuel as [|fuel]; [discriminate|]); cbn [search_loop];
    (destruct (Z.ltb_spec depth maxDepth) as [_|Hge]; [|lia]);
    destruct (RayCasterFloatIsWall g_map (F32.of_Z n) ry) eqn:Hw.
  - intros [= <-]. cbn [s_depth s_rayX s_rayY s_hitDis].
    replace (n + (depth - depth)) with n by lia. repeat split; try lia; assumption.
  - exfalso. rewrite IsWall_out_of_bounds in Hw; [discriminate|].
    right. right. left. rewrite tile_of_of_Z by lia. lia.
  - intros [= <-]. cbn [s_depth s_rayX s_rayY s_hitDis].
    replace (n + (depth - depth)) with n by lia. repeat split; try lia; assumption.
  - rewrite F32_add_of_Z by lia. intros Hr.
    destruct (IH fuel (n + 1) _ (depth + 1) (S iters) r ltac:(lia) ltac:(lia)
                ltac:(lia) ltac:(lia) Hr) as (H1 & H2 & H3 & H4).
    split; [lia|]. split; [|split; assumption].
    rewrite H2. f_equal. lia.
Qed.

(** The same along the other axis. *)
Lemma search_loop_north (g_map : list Z) (px py xo : float32) (k : nat) :
  forall (fuel : nat) (n : Z) (rx : float32) (depth : Z) (iters : nat) (r : Search),
    0 <= n -> MAP_Y - 1 <= n + Z.of_nat k < 2 ^ 24 ->
    0 <= depth -> depth + Z.of_nat k < maxDepth ->
    search_loop g_map fuel px py xo (F32.of_Z 1) rx (F32.of_Z n) depth iters
      = Some r ->
    depth <= s_depth r <= depth + Z.of_nat k /\
    s_rayY r = F32.of_Z (n + (s_depth r - depth)) /\
    RayCasterFloatIsWall g_map (s_rayX r) (s_rayY r) = true /\
    s_hitDis r = P2P_DISTANCE px py (s_rayX r) (s_rayY r).
Proof.
  induction k as [|k IH]; intros fuel n rx depth iters r Hn Hk Hd Hdk;
    (destruct fuel as [|fuel]; [discriminate|]); cbn [search_loop];
    (destruct (Z.ltb_spec depth maxDepth) as [_|Hge]; [|lia]);
    destruct (RayCasterFloatIsWall g_map rx (F32.of_Z n)) eqn:Hw.
  - intros [= <-]. cbn [s_depth s_rayX s_rayY s_hitDis].
    replace (n + (depth - depth)) with n by lia. repeat split; try lia; assumption.
  - exfalso. rewrite IsWall_out_of_bounds in Hw; [discriminate|].
    right. right. right. rewrite tile_of_of_Z by lia. lia.
  - intros [= <-]. cbn [s_depth s_rayX s_rayY s_hitDis].
    replace (n + (depth - depth)) with n by lia. repeat split; try lia; assumption.
  - rewrite F32_add_of_Z by lia. intros Hr.
    destruct (IH fuel (n + 1) _ (depth + 1) (S iters) r ltac:(lia) ltac:(lia)
                ltac:(lia) ltac:(lia) Hr) as (H1 & H2 & H3 & H4).
    split; [lia|]. split; [|split; assumption].
    rewrite H2. f_equal. lia.
Qed.

(** ** Rounding from below *)

Section Lower.
Variables prec emax : Z.
Hypothesis Hfmt : format_ok prec emax.

(** Rounding does not cross an integer: a number at least [c] rounds to
    a number at least [c]. *)
Lemma binary_round_lower (s : bool) (p : positive) (e b c : Z) :
  - scale_K <= e -> 0 < b < 2 ^ prec ->
  Zpos p * 2 ^ (e + scale_K) <= b * 2 ^ scale_K ->
  0 <= c -> c * 2 ^ scale_K <= Zpos p * 2 ^ (e + scale_K) ->
  c * 2 ^ scale_K <= mag (binary_round prec emax s p e).
Proof.
  intros He Hb Hle Hc Hge.
  pose proof Hfmt as (Hprec & Hemax & Hemin).
  pose proof (fexp_le_0 prec emax Hfmt p e b He Hb Hle) as He1.
  destruct (binary_round_spec prec emax Hprec s p e) as (m2 & Hm2 & Hr).
  set (e1 := fexp prec emax (Zpos (digits2_pos p) + e)) in *.
  destruct (rounded_to_mag prec emax Hfmt s m2 e1 _ Hr ltac:(lia)) as (_ & _ & ->).
  assert (HeK : 0 < 2 ^ (e + scale_K)) by (apply pow2_pos; lia).
  assert (He1K : 0 < 2 ^ (e1 + scale_K)) by (apply pow2_pos; lia).
  destruct Hm2 as [(Hee & Hm2)|(Hgt & ->)].
  - rewrite (bound_at_exponent c e1) by lia.
    apply Z.mul_le_mono_nonneg_r; [lia|].
    set (n := e1 - e) in *.
    assert (Hn : 0 < 2 ^ n) by (apply pow2_pos; lia).
    assert (Hq : c * 2 ^ (- e1) <= Zpos p / 2 ^ n).
    { apply Z.div_le_lower_bound; [lia|].
      rewrite (bound_at_exponent c e1) in Hge by lia.
      assert (HeKs : 2 ^ (e1 + scale_K) = 2 ^ n * 2 ^ (e + scale_K)).
      { rewrite <- Z.pow_add_r by lia. f_equal. lia. }
      rewrite HeKs in Hge.
      apply (Z.mul_le_mono_pos_r _ _ (2 ^ (e + scale_K))); [lia|]. lia. }
    destruct Hm2 as [->|[-> _]]; lia.
  - replace (Zpos p * 2 ^ (e - e1) * 2 ^ (e1 + scale_K))
      with (Zpos p * 2 ^ (e + scale_K)); [exact Hge|].
    rewrite <- Z.mul_assoc, <- Z.pow_add_r by lia. do 2 f_equal. lia.
Qed.

Lemma binary_normalize_between (z e b lo hi : Z) :
  - scale_K <= e -> 0 < b < 2 ^ prec ->
  Z.abs z * 2 ^ (e + scale_K) <= b * 2 ^ scale_K ->
  0 <= lo -> hi <= b ->
  lo * 2 ^ scale_K <= Z.abs z * 2 ^ (e + scale_K) <= hi * 2 ^ scale_K ->
  lo * 2 ^ scale_K <= mag (binary_normalize prec emax z e false) <= hi * 2 ^ scale_K.
Proof.
  intros He Hb Hle Hlo Hhi Hbt.
  assert (HK : 0 < 2 ^ scale_K) by (apply pow2_pos; pose proof scale_K_pos; lia).
  assert (HeK : 0 < 2 ^ (e + scale_K)) by (apply pow2_pos; lia).
  destruct z as [|p|p]; cbn [binary_normalize].
  - cbn [mag]. cbn in Hbt. lia.
  - rewrite Z.abs_eq in * by lia. split.
    + apply (binary_round_lower false p e b lo); try assumption. lia.
    + assert (0 < hi) by nia.
      apply (binary_round_bound prec emax Hfmt false p e hi); try lia.
  - change (Z.abs (Zneg p)) with (Zpos p) in *. split.
    + apply (binary_round_lower true p e b lo); try assumption. lia.
    + assert (0 < hi) by nia.
      apply (binary_round_bound prec emax Hfmt true p e hi); try lia.
Qed.

(** The sum of two numbers of the format lies between the integers that
    enclose the exact sum. *)
Theorem SFadd_between (sx sy : bool) (mx my : positive) (ex ey b lo hi : Z) :
  - scale_K <= ex -> - scale_K <= ey -> 0 < b < 2 ^ prec ->
  let S := sval (S754_finite sx mx ex) + sval (S754_finite sy my ey) in
  Z.abs S <= b * 2 ^ scale_K ->
  0 <= lo -> hi <= b ->
  lo * 2 ^ scale_K <= Z.abs S <= hi * 2 ^ scale_K ->
  let r := SFadd prec emax (S754_finite sx mx ex) (S754_finite sy my ey) in
  lo * 2 ^ scale_K <= mag r <= hi * 2 ^ scale_K.
Proof.
  intros Hex Hey Hb S HS Hlo Hhi Hbt r. subst r. cbn [SFadd].
  set (ez := Z.min ex ey).
  set (z := cond_Zopp sx (Zpos (fst (shl_align mx ex ez))) +
            cond_Zopp sy (Zpos (fst (shl_align my ey ez)))).
  assert (HzS : z * 2 ^ (ez + scale_K) = S).
  { subst z S. rewrite Z.mul_add_distr_r.
    rewrite !aligned_sval by (subst ez; lia). reflexivity. }
  assert (HeK : 0 < 2 ^ (ez + scale_K)) by (apply pow2_pos; subst ez; lia).
  assert (Habs : Z.abs z * 2 ^ (ez + scale_K) = Z.abs S).
  { rewrite <- HzS, Z.abs_mul. rewrite (Z.abs_eq (2 ^ _)) by lia. reflexivity. }
  apply (binary_normalize_between z ez b lo hi); try assumption.
  - subst ez. lia.
  - rewrite Habs. exact HS.
  - rewrite Habs. exact Hbt.
Qed.
End Lower.

(** ** Stepping down by one *)

Lemma F32_of_Z_m1 : F32.of_Z (-1) = S754_finite true 8388608 (-23).
Proof. reflexivity. Qed.

Lemma sval_le_mag (x : spec_float) : sval x <= mag x.
Proof.
  destruct x as [s|s| |[|] m e]; cbn [sval mag cond_Zopp]; lia.
Qed.

(** One step of a search toward lower coordinates: the coordinate goes
    down by one, up to rounding, and does not cross an integer the
    wrong way. *)
Lemma F32_add_minus_one (x : float32) (B c : Z) :
  tame32 B x -> sval x <= c * 2 ^ scale_K -> 0 < B -> B + 1 < 2 ^ 24 ->
  tame32 (B + 1) (F32.add x (F32.of_Z (-1))) /\
  sval (F32.add x (F32.of_Z (-1))) <= (c - 1) * 2 ^ scale_K.
Proof.
  intros [Hf Hm] Hc HB HB1. rewrite F32_of_Z_m1.
  pose proof scale_K_eq as HK. pose proof pow2_K_pos as HKp.
  assert (H1 : mag (S754_finite true 8388608 (-23)) = 2 ^ scale_K)
    by (vm_compute; reflexivity).
  assert (Hs1 : sval (S754_finite true 8388608 (-23)) = - 2 ^ scale_K)
    by (vm_compute; reflexivity).
  destruct x as [s|s| |sx mx ex]; cbn [in_format] in Hf; try contradiction.
  - (* a zero *)
    cbn [F32.add SFadd]. unfold F32.add. cbn [SFadd].
    cbn [sval] in Hc.
    split; [split; [split; [reflexivity|vm_compute; discriminate]|]|].
    + rewrite H1. nia.
    + rewrite Hs1. nia.
  - pose proof (in_format_exp_ge _ _ fmt32 sx mx ex Hf) as Hex.
    set (S := sval (S754_finite sx mx ex) + sval (S754_finite true 8388608 (-23))).
    assert (HSle : S <= (c - 1) * 2 ^ scale_K) by (subst S; rewrite Hs1; lia).
    assert (HSabs : Z.abs S <= (B + 1) * 2 ^ scale_K).
    { subst S. rewrite Hs1, sval_mag.
      pose proof (mag_nonneg (S754_finite sx mx ex)).
      destruct sx; cbn [cond_Zopp]; lia. }
    destruct (SFadd_bound F32.prec F32.emax fmt32 sx true mx 8388608 ex (-23) (B + 1))
      as (R1 & R2 & R3); [exact Hex|lia|change (2 ^ F32.prec) with (2 ^ 24); lia|
                          exact HSabs|].
    fold S in R2.
    fold (F32.add (S754_finite sx mx ex) (S754_finite true 8388608 (-23))) in R1, R2, R3.
    set (r := F32.add (S754_finite sx mx ex) (S754_finite true 8388608 (-23))) in *.
    split; [split; assumption|].
    assert (Hsv : sval r = if S <? 0 then - mag r else mag r).
    { destruct r as [s'|s'| |s' m' e']; cbn [in_format] in R1; try contradiction.
      - cbn. destruct (S <? 0); reflexivity.
      - cbn [sign_of] in R2. rewrite sval_mag, R2.
        destruct (S <? 0); reflexivity. }
    rewrite Hsv.
    destruct (Z.ltb_spec S 0) as [Hneg|Hpos].
    + (* the sum is below zero *)
      destruct (Z.le_gt_cases 0 (c - 1)) as [Hc0|Hc0].
      * pose proof (mag_nonneg r). nia.
      * destruct (SFadd_between F32.prec F32.emax fmt32 sx true mx 8388608 ex (-23)
                    (B + 1) (1 - c) (B + 1)) as [Hlow _];
          [exact Hex|lia|change (2 ^ F32.prec) with (2 ^ 24); lia|exact HSabs|
           lia|lia| |].
        { fold S. split; [|exact HSabs]. rewrite Z.abs_neq by lia. lia. }
        fold (F32.add (S754_finite sx mx ex) (S754_finite true 8388608 (-23))) in Hlow.
        fold r in Hlow. lia.
    + (* the sum is not below zero *)
      assert (Hc1 : 0 <= c - 1) by nia.
      destruct (SFadd_between F32.prec F32.emax fmt32 sx true mx 8388608 ex (-23)
                  (B + 1) 0 (Z.min (c - 1) (B + 1))) as [_ Hup];
        [exact Hex|lia|change (2 ^ F32.prec) with (2 ^ 24); lia|exact HSabs|
         lia|lia| |].
      { fold S. rewrite Z.abs_eq in * by lia. split; [lia|].
        destruct (Z.min_spec (c - 1) (B + 1)) as [[_ ->]|[_ ->]]; lia. }
      fold (F32.add (S754_finite sx mx ex) (S754_finite true 8388608 (-23))) in Hup.
      fold r in Hup.
      assert (Z.min (c - 1) (B + 1) * 2 ^ scale_K <= (c - 1) * 2 ^ scale_K).
      { apply Z.mul_le_mono_nonneg_r; lia. }
      lia.
Qed.

Lemma trunc_Z_mag_neg (m : positive) (e : Z) :
  - scale_K <= e ->
  trunc_Z (S754_finite true m e) = Some (- (mag (S754_finite true m e) / 2 ^ scale_K)).
Proof.
  intros He. pose proof (trunc_Z_mag m e He) as H.
  cbn [trunc_Z cond_Zopp mag] in *. injection H as H. rewrite H. reflexivity.
Qed.

(** A float at or below -1 lies in a tile left of (below) the map. *)
Lemma tile_of_negative (x : float32) (B : Z) :
  tame32 B x -> 0 < B < 2 ^ 24 -> sval x <= - 2 ^ scale_K -> tile_of x < 0.
Proof.
  intros [Hf Hm] HB Hs.
  pose proof scale_K_eq as HK. pose proof pow2_K_pos as HKp.
  destruct x as [s|s| |[|] m e].
  - exfalso. cbn [sval] in Hs. lia.
  - exfalso. exact Hf.
  - exfalso. exact Hf.
  - pose proof (in_format_exp_ge _ _ fmt32 true m e Hf) as He.
    rewrite sval_mag in Hs. cbn [cond_Zopp] in Hs.
    set (M := mag (S754_finite true m e)) in *.
    assert (Hq1 : 1 <= M / 2 ^ scale_K).
    { apply Z.div_le_lower_bound; lia. }
    assert (Hq2 : M / 2 ^ scale_K <= B).
    { apply Z.div_le_upper_bound; [lia|]. lia. }
    unfold tile_of. cbn [modff snd].
    rewrite trunc_Z_mag_neg by exact He. fold M.
    destruct (- (M / 2 ^ scale_K)) as [|p|p] eqn:Hz; [lia|lia|].
    destruct (of_Z_exact (Zneg p) ltac:(lia) ltac:(lia))
      as (m' & e' & -> & Hf' & _ & He' & Hm').
    change (Zneg p <? 0) with true in *.
    unfold float_to_int. rewrite trunc_Z_mag_neg by lia.
    rewrite Hm'. change (Z.abs (Zneg p)) with (Zpos p).
    rewrite Z.div_mul by lia.
    unfold INT_MIN. change (2 ^ 31) with 2147483648.
    change (- (2147483648)) with (-2147483648).
    change (2 ^ 24) with 16777216 in HB.
    destruct (Z.leb_spec (-2147483648) (- Zpos p)); [|lia].
    destruct (Z.ltb_spec (- Zpos p) 2147483648); cbn [andb]; lia.
  - exfalso. rewrite sval_mag in Hs. cbn [cond_Zopp] in Hs.
    pose proof (mag_nonneg (S754_finite false m e)). lia.
Qed.

(** A search that steps by -1 along the x axis from a coordinate at most
    [c] ends on a solid cell within [c + 2] probes: at the latest when
    the coordinate has reached -1. *)
Lemma search_loop_west (g_map : list Z) (px py yo : float32) (k : nat) :
  forall (fuel : nat) (x : float32) (B c : Z) (ry : float32) (depth : Z)
         (iters : nat) (r : Search),
    tame32 B x -> sval x <= c * 2 ^ scale_K ->
    0 < B -> B + Z.of_nat k < 2 ^ 24 -> c + 1 <= Z.of_nat k ->
    0 <= depth -> depth + Z.of_nat k < maxDepth ->
    search_loop g_map fuel px py (F32.of_Z (-1)) yo x ry depth iters = Some r ->
    depth <= s_depth r <= depth + Z.of_nat k /\
    RayCasterFloatIsWall g_map (s_rayX r) (s_rayY r) = true /\
    s_hitDis r = P2P_DISTANCE px py (s_rayX r) (s_rayY r).
Proof.
  pose proof pow2_K_pos as HKp.
  induction k as [|k IH]; intros fuel x B c ry depth iters r Ht Hc HB HBk Hck Hd Hdk;
    (destruct fuel as [|fuel]; [discriminate|]); cbn [search_loop];
    (destruct (Z.ltb_spec depth maxDepth) as [_|Hge]; [|lia]);
    destruct (RayCasterFloatIsWall g_map x ry) eqn:Hw.
  - intros [= <-]. cbn [s_depth s_rayX s_rayY s_hitDis].
    repeat split; try lia; assumption.
  - exfalso. rewrite IsWall_out_of_bounds in Hw; [discriminate|].
    left. apply (tile_of_negative x B Ht); [lia|]. nia.
  - intros [= <-]. cbn [s_depth s_rayX s_rayY s_hitDis].
    repeat split; try lia; assumption.
  - destruct (F32_add_minus_one x B c Ht Hc HB ltac:(lia)) as [Ht' Hc'].
    intros Hr.
    destruct (IH fuel _ (B + 1) (c - 1) _ (depth + 1) (S iters) r Ht' Hc'
                ltac:(lia) ltac:(lia) ltac:(lia) ltac:(lia) ltac:(lia) Hr)
      as (H1 & H2 & H3).
    split; [lia|]. split; assumption.
Qed.

(** The same along the y axis. *)
Lemma search_loop_south (g_map : list Z) (px py xo : float32) (k : nat) :
  forall (fuel : nat) (y : float32) (B c : Z) (rx : float32) (depth : Z)
         (iters : nat) (r : Search),
    tame32 B y -> sval y <= c * 2 ^ scale_K ->
    0 < B -> B + Z.of_nat k < 2 ^ 24 -> c + 1 <= Z.of_nat k ->
    0 <= depth -> depth + Z.of_nat k < maxDepth ->
    search_loop g_map fuel px py xo (F32.of_Z (-1)) rx y depth iters = Some r ->
    depth <= s_depth r <= depth + Z.of_nat k /\
    RayCasterFloatIsWall g_map (s_rayX r) (s_rayY r) = true /\
    s_hitDis r = P2P_DISTANCE px py (s_rayX r) (s_rayY r).
Proof.
  pose proof pow2_K_pos as HKp.
  induction k as [|k IH]; intros fuel y B c rx depth iters r Ht Hc HB HBk Hck Hd Hdk;
    (destruct fuel as [|fuel]; [discriminate|]); cbn [search_loop];
    (destruct (Z.ltb_spec depth maxDepth) as [_|Hge]; [|lia]);
    destruct (RayCasterFloatIsWall g_map rx y) eqn:Hw.
  - intros [= <-]. cbn [s_depth s_rayX s_rayY s_hitDis].
    repeat split; try lia; assumption.
  - exfalso. rewrite IsWall_out_of_bounds in Hw; [discriminate|].
    right. left. apply (tile_of_negative y B Ht); [lia|]. nia.
  - intros [= <-]. cbn [s_depth s_rayX s_rayY s_hitDis].
    repeat split; try lia; assumption.
  - destruct (F32_add_minus_one y B c Ht Hc HB ltac:(lia)) as [Ht' Hc'].
    intros Hr.
    destruct (IH fuel _ (B + 1) (c - 1) _ (depth + 1) (S iters) r Ht' Hc'
                ltac:(lia) ltac:(lia) ltac:(lia) ltac:(lia) ltac:(lia) Hr)
      as (H1 & H2 & H3).
    split; [lia|]. split; assumption.
Qed.

Lemma lit_0_001_eq : lit_0_001 = S754_finite false 4611686018427388 (-62).
Proof. reflexivity. Qed.

(** The first probe of a search toward lower coordinates,
    [(int) p - 0.001], is not above [(int) p]. *)
Lemma first_probe_down (t : Z) :
  0 <= t < 2 ^ 23 ->
  tame32 (Z.max t 1) (D2F (F64.sub (F64.of_Z t) lit_0_001)) /\
  sval (D2F (F64.sub (F64.of_Z t) lit_0_001)) <= t * 2 ^ scale_K.
Proof.
  intros Ht. pose proof scale_K_eq as HK. pose proof pow2_K_pos as HKp.
  change (2 ^ 23) with 8388608 in Ht.
  assert (Hzero : forall s,
            tame32 (Z.max t 1) (D2F (F64.sub (S754_zero s) lit_0_001)) /\
            sval (D2F (F64.sub (S754_zero s) lit_0_001)) <= t * 2 ^ scale_K).
  { intros s.
    replace (D2F (F64.sub (S754_zero s) lit_0_001))
      with (S754_finite true 8589935 (-33)) by (destruct s; reflexivity).
    split; [apply (tame32_mono 1); [lia|]|].
    - split; [split; [reflexivity|vm_compute; discriminate]|vm_compute; discriminate].
    - assert (sval (S754_finite true 8589935 (-33)) <= 0) by (vm_compute; discriminate).
      nia. }
  destruct (Z.eq_dec t 0) as [->|Hnz]; [exact (Hzero false)|].
  destruct (binary_normalize_bound F64.prec F64.emax fmt64 t 0 t)
    as (H1 & H2 & H3).
  - lia.
  - change (2 ^ F64.prec) with 9007199254740992. lia.
  - rewrite Z.add_0_l, Z.abs_eq by lia. lia.
  - fold (F64.of_Z t) in H1, H2, H3.
    replace (t <? 0) with false in H2 by (symmetry; apply Z.ltb_ge; lia).
    destruct (F64.of_Z t) as [s|s| |s m e]; cbn [in_format] in H1; try contradiction.
    + apply Hzero.
    + cbn [sign_of] in H2. subst s.
      pose proof (in_format_exp_ge _ _ fmt64 false m e H1) as He.
      rewrite lit_0_001_eq.
      assert (Hl : 0 < sval (S754_finite false 4611686018427388 (-62)) <= 2 ^ scale_K).
      { split; vm_compute; [reflexivity|discriminate]. }
      set (S := sval (S754_finite false m e)
                - sval (S754_finite false 4611686018427388 (-62))).
      assert (HSle : S <= t * 2 ^ scale_K).
      { subst S. pose proof (sval_le_mag (S754_finite false m e)). lia. }
      assert (HSabs : Z.abs S <= t * 2 ^ scale_K).
      { subst S. rewrite (sval_mag false m e). cbn [cond_Zopp].
        pose proof (mag_nonneg (S754_finite false m e)).
        apply Z.abs_le. nia. }
      destruct (SFsub_bound F64.prec F64.emax fmt64 false false m 4611686018427388
                  e (-62) t) as (R1 & R2 & R3);
        [exact He|lia|change (2 ^ F64.prec) with 9007199254740992; lia|exact HSabs|].
      fold (F64.sub (S754_finite false m e) (S754_finite false 4611686018427388 (-62)))
        in R1, R2, R3.
      destruct (D2F_bound _ t R1 R3 ltac:(change (2 ^ 24) with 16777216; lia))
        as [Hr _].
      split; [apply (tame32_mono t); [lia|exact Hr]|].
      pose proof (sval_le_mag (D2F (F64.sub (S754_finite false m e)
                                      (S754_finite false 4611686018427388 (-62))))).
      destruct Hr as [_ Hrm]. lia.
Qed.

(** ** The sealed map *)

(** A search of Distance that is not skipped ends on a solid cell, not
    by running out of depth, for every player whose integer coordinate
    along the search axis is between 0 and 98: toward higher coordinates
    it probes the integers (int) p + 1, (int) p + 2, ... and is stopped
    at MAP_X - 1 at the latest; toward lower coordinates it is stopped
    at -1 at the latest. *)
Lemma vertical_search_hits (libm : Libm) (g_map : list Z) (fuel : nat)
    (px py rayA cotA : float32) (r : Search) :
  0 <= float_to_int px <= 98 ->
  F64.ltb lit_0_001 (c_sin libm (F2D rayA)) = true \/
  F64.ltb (c_sin libm (F2D rayA)) (SFopp lit_0_001) = true ->
  vertical_search libm g_map fuel px py rayA cotA = Some r ->
  0 <= s_depth r < maxDepth /\
  RayCasterFloatIsWall g_map (s_rayX r) (s_rayY r) = true /\
  s_hitDis r = P2P_DISTANCE px py (s_rayX r) (s_rayY r).
Proof.
  intros Ht Hsin. unfold vertical_search.
  set (t := float_to_int px) in *.
  destruct (F64.ltb lit_0_001 (c_sin libm (F2D rayA))) eqn:H1.
  - intros Hr.
    apply (search_loop_east g_map px py _ (Z.to_nat (Z.max 0 (62 - t)))) in Hr
      as (A & _ & B & C);
      try (unfold MAP_X, maxDepth; change (2 ^ 24) with 16777216; lia).
    split; [|split; assumption]. unfold maxDepth. lia.
  - destruct Hsin as [Hs|Hs]; [discriminate|]. rewrite Hs. intros Hr.
    destruct (first_probe_down t ltac:(change (2 ^ 23) with 8388608; lia)) as [Hx Hc].
    apply (search_loop_west g_map px py _ (Z.to_nat (t + 1)) fuel _ (Z.max t 1) t)
      in Hr as (A & B & C);
      try assumption;
      try (unfold maxDepth; change (2 ^ 24) with 16777216; lia).
    split; [|split; assumption]. unfold maxDepth. lia.
Qed.

Lemma horizontal_search_hits (libm : Libm) (g_map : list Z) (fuel : nat)
    (px py rayA tanA : float32) (r : Search) :
  0 <= float_to_int py <= 98 ->
  F64.ltb lit_0_001 (c_cos libm (F2D rayA)) = true \/
  F64.ltb (c_cos libm (F2D rayA)) (SFopp lit_0_001) = true ->
  horizontal_search libm g_map fuel px py rayA tanA = Some r ->
  0 <= s_depth r < maxDepth /\
  RayCasterFloatIsWall g_map (s_rayX r) (s_rayY r) = true /\
  s_hitDis r = P2P_DISTANCE px py (s_rayX r) (s_rayY r).
Proof.
  intros Ht Hcos. unfold horizontal_search.
  set (t := float_to_int py) in *.
  destruct (F64.ltb lit_0_001 (c_cos libm (F2D rayA))) eqn:H1.
  - intros Hr.
    apply (search_loop_north g_map px py _ (Z.to_nat (Z.max 0 (62 - t)))) in Hr
      as (A & _ & B & C);
      try (unfold MAP_Y, maxDepth; change (2 ^ 24) with 16777216; lia).
    split; [|split; assumption]. unfold maxDepth. lia.
  - destruct Hcos as [Hs|Hs]; [discriminate|]. rewrite Hs. intros Hr.
    destruct (first_probe_down t ltac:(change (2 ^ 23) with 8388608; lia)) as [Hy Hc].
    apply (search_loop_south g_map px py _ (Z.to_nat (t + 1)) fuel _ (Z.max t 1) t)
      in Hr as (A & B & C);
      try assumption;
      try (unfold maxDepth; change (2 ^ 24) with 16777216; lia).
    split; [|split; assumption]. unfold maxDepth. lia.
Qed.

Lemma search_runs_cases (v : float64) :
  (search_runs v = true /\
   (F64.ltb lit_0_001 v = true \/ F64.ltb v (SFopp lit_0_001) = true)) \/
  (search_runs v = false /\
   F64.ltb lit_0_001 v = false /\ F64.ltb v (SFopp lit_0_001) = false).
Proof.
  unfold search_runs.
  destruct (F64.ltb lit_0_001 v), (F64.ltb v (SFopp lit_0_001)); cbn [orb]; auto.
Qed.

Lemma skipped_loop (g_map : list Z) (fuel : nat) (px py xo yo : float32) (r : Search) :
  search_loop g_map fuel px py xo yo px py maxDepth 0 = Some r ->
  r = skipped_search px py.
Proof.
  destruct fuel as [|fuel]; [discriminate|]. cbn [search_loop].
  change (maxDepth <? maxDepth) with false. cbn iota. intros [= <-]. reflexivity.
Qed.

(** The map is sealed for the searches of Distance.  For a player whose
    integer coordinates (int) playerX and (int) playerY are between 0 and
    98, whatever the angle, the map and the C library deliver: a search
    that runs (|sin| or |cos| of the normalised angle above 0.001) ends
    on a solid cell with depth below maxDepth and the distance to that
    cell; a search that is skipped leaves the player's position, depth
    maxDepth and the zero sentinel.  The sentinel so never comes from a
    search that ran out of depth. *)
Theorem Distance_sealed (libm : Libm) (g_map : list Z) (fuel : nat)
    (px py a : float32) (run : DistanceRun) :
  distance_run libm g_map fuel px py a = Some run ->
  0 <= float_to_int px <= 98 -> 0 <= float_to_int py <= 98 ->
  exists a1 a2,
    wrap_up fuel a = Some a1 /\ wrap_down fuel a1 = Some a2 /\
    (if search_runs (c_sin libm (F2D a2))
     then search_hit g_map px py (d_vert run)
     else d_vert run = skipped_search px py) /\
    (if search_runs (c_cos libm (F2D a2))
     then search_hit g_map px py (d_hori run)
     else d_hori run = skipped_search px py).
Proof.
  intros Hrun Hx Hy.
  apply distance_run_inv in Hrun as (a1 & a2 & v & h & H1 & H2 & Hv & Hh & ->).
  destruct (select_hit_searches v h) as [-> ->].
  exists a1, a2. split; [exact H1|]. split; [exact H2|]. split.
  - destruct (search_runs_cases (c_sin libm (F2D a2))) as [[-> Hs]|(-> & Hs1 & Hs2)].
    + exact (vertical_search_hits libm g_map fuel px py a2 _ v Hx Hs Hv).
    + revert Hv. unfold vertical_search. rewrite Hs1, Hs2. apply skipped_loop.
  - destruct (search_runs_cases (c_cos libm (F2D a2))) as [[-> Hs]|(-> & Hs1 & Hs2)].
    + exact (horizontal_search_hits libm g_map fuel px py a2 _ h Hy Hs Hh).
    + revert Hh. unfold horizontal_search. rewrite Hs1, Hs2. apply skipped_loop.
Qed.

Lemma Distance_sealed_witness :
  exists run a1 a2,
    distance_run libm_sample zero_map 101 (playerX (corner_pose 588))
      (playerY (corner_pose 588)) (playerA (corner_pose 588)) = Some run /\
    wrap_up 101 (playerA (corner_pose 588)) = Some a1 /\
    wrap_down 101 a1 = Some a2 /\
    (if search_runs (c_sin libm_sample (F2D a2))
     then search_hit zero_map (playerX (corner_pose 588))
            (playerY (corner_pose 588)) (d_vert run)
     else d_vert run = skipped_search (playerX (corner_pose 588))
                         (playerY (corner_pose 588))) /\
    (if search_runs (c_cos libm_sample (F2D a2))
     then search_hit zero_map (playerX (corner_pose 588))
            (playerY (corner_pose 588)) (d_hori run)
     else d_hori run = skipped_search (playerX (corner_pose 588))
                         (playerY (corner_pose 588))).
Proof.
  destruct (distance_run libm_sample zero_map 101 (playerX (corner_pose 588))
              (playerY (corner_pose 588)) (playerA (corner_pose 588)))
    as [run|] eqn:Hr; [|vm_compute in Hr; discriminate].
  exists run.
  destruct (Distance_sealed libm_sample zero_map 101 _ _ _ run Hr)
    as (a1 & a2 & H); [vm_compute; split; discriminate|
                       vm_compute; split; discriminate|].
  exists a1, a2. split; [reflexivity|exact H].
Defined.

(** ** The texture column *)

Lemma F32_of_Z_256 : F32.of_Z 256 = S754_finite false 8388608 (-15).
Proof. reflexivity. Qed.

(** The fractional part that [modff] delivers for a float that is not
    negative is exact. *)
Lemma modff_frac (m : positive) (e : Z) :
  in_format32 (S754_finite false m e) ->
  mag (S754_finite false m e) < 2 ^ 24 * 2 ^ scale_K ->
  let fr := fst (modff (S754_finite false m e)) in
  in_format32 fr /\ sign_of fr = false /\
  mag fr = mag (S754_finite false m e) mod 2 ^ scale_K.
Proof.
  intros Hf Hlt fr. subst fr.
  pose proof scale_K_eq as HK. pose proof pow2_K_pos as HKp.
  pose proof (in_format_exp_ge _ _ fmt32 false m e Hf) as He.
  pose proof (mag_nonneg (S754_finite false m e)) as HM0.
  cbn [modff fst]. rewrite (trunc_Z_mag m e He).
  set (M := mag (S754_finite false m e)) in *.
  pose proof (Z.div_mod M (2 ^ scale_K) ltac:(lia)) as Hdm.
  pose proof (Z.mod_pos_bound M (2 ^ scale_K) ltac:(lia)) as Hmb.
  assert (Ht0 : 0 <= M / 2 ^ scale_K) by (apply Z.div_pos; lia).
  assert (Ht1 : M / 2 ^ scale_K < 2 ^ 24).
  { apply Z.div_lt_upper_bound; lia. }
  destruct (M / 2 ^ scale_K) as [|t|t] eqn:Ht; [| |lia].
  - (* below one: the float is its own fractional part *)
    unfold F32.sub. cbn [SFsub].
    split; [exact Hf|]. split; [reflexivity|]. fold M. lia.
  - destruct (of_Z_exact (Zpos t) ltac:(lia) ltac:(lia))
      as (mi & ei & -> & Hfi & Hdi & Hei & Hmi).
    change (Zpos t <? 0) with false in *. change (Z.abs (Zpos t)) with (Zpos t) in Hmi.
    unfold F32.sub. cbn [SFsub cond_Zopp].
    set (ez := Z.min e ei).
    pose proof (aligned_sval false m e ez ltac:(lia) ltac:(lia)) as Ax.
    pose proof (aligned_sval false mi ei ez ltac:(lia) ltac:(lia)) as Ai.
    cbn [cond_Zopp] in Ax, Ai.
    rewrite (sval_mag false m e) in Ax. rewrite (sval_mag false mi ei) in Ai.
    cbn [cond_Zopp] in Ax, Ai. fold M in Ax. rewrite Hmi in Ai.
    set (a := Zpos (fst (shl_align m e ez))) in *.
    set (b := Zpos (fst (shl_align mi ei ez))) in *.
    assert (HezK : 0 < 2 ^ (ez + scale_K)) by (apply pow2_pos; lia).
    assert (Hz : (a - b) * 2 ^ (ez + scale_K) = M mod 2 ^ scale_K) by lia.
    destruct (a - b) as [|p|p] eqn:Hab; cbn [binary_normalize].
    + split; [exact I|]. split; [reflexivity|]. cbn [mag]. lia.
    + (* the difference is a number of the format *)
      assert (He0 : e <= 0).
      { destruct (Z.le_gt_cases e 0) as [|Hgt]; [assumption|exfalso].
        assert (Hm0 : M mod 2 ^ scale_K = 0).
        { subst M. cbn [mag]. rewrite (Z.pow_add_r 2 e scale_K) by lia.
          rewrite Z.mul_assoc. apply Z.mod_mul. lia. }
        lia. }
      assert (HeK : 0 < 2 ^ (e + scale_K)) by (apply pow2_pos; lia).
      assert (Hne : 0 < 2 ^ (- e)) by (apply pow2_pos; lia).
      assert (HKs : 2 ^ scale_K = 2 ^ (- e) * 2 ^ (e + scale_K)).
      { rewrite <- Z.pow_add_r by lia. f_equal. lia. }
      set (f := Zpos m - Zpos t * 2 ^ (- e)).
      assert (Hf1 : M mod 2 ^ scale_K = f * 2 ^ (e + scale_K)).
      { subst f. rewrite Z.mul_sub_distr_r.
        replace (Zpos t * 2 ^ (- e) * 2 ^ (e + scale_K)) with (Zpos t * 2 ^ scale_K)
          by (rewrite HKs; ring).
        change (Zpos m * 2 ^ (e + scale_K)) with M. lia. }
      assert (Hfpos : 0 < f) by nia.
      assert (Hfm : f <= Zpos m) by (subst f; nia).
      destruct f as [|fp|fp] eqn:Hfe; [lia| |lia].
      assert (Hsame : Zpos p * 2 ^ (ez + scale_K) = Zpos fp * 2 ^ (e + scale_K)) by lia.
      pose proof (same_mag_same_top p fp ez e ltac:(lia) ltac:(lia) Hsame) as Htop.
      pose proof (canonical_digits_le _ _ _ _ (proj1 Hf)) as Hdm24.
      assert (Hdf : Zpos (digits2_pos fp) <= 24).
      { apply digits2_pos_le; [lia|].
        pose proof (digits2_pos_spec m) as [_ Hhi].
        assert (2 ^ Zpos (digits2_pos m) <= 2 ^ 24)
          by (apply Z.pow_le_mono_r; unfold F32.prec in Hdm24; lia).
        lia. }
      pose proof (canonical_ge_emin _ _ _ _ (proj1 Hf)) as Hemin.
      unfold emin, F32.prec, F32.emax in Hemin.
      set (e1 := fexp F32.prec F32.emax (Zpos (digits2_pos p) + ez)).
      assert (He1 : e1 <= e /\ -149 <= e1).
      { subst e1. rewrite Htop. unfold fexp, emin, F32.prec, F32.emax. lia. }
      destruct (binary_round_exact F32.prec F32.emax fmt32 false p ez)
        as (H1 & H2 & H3).
      * lia.
      * fold e1. unfold F32.prec, F32.emax. lia.
      * fold e1. intros Hle.
        assert (Hp : Zpos p = Zpos fp * 2 ^ (e - ez)).
        { replace (e + scale_K) with (e - ez + (ez + scale_K)) in Hsame by lia.
          rewrite (Z.pow_add_r 2 (e - ez) (ez + scale_K)), Z.mul_assoc in Hsame by lia.
          apply Z.mul_cancel_r in Hsame; [exact Hsame|lia]. }
        rewrite Hp.
        replace (e - ez) with (e - e1 + (e1 - ez)) by lia.
        rewrite (Z.pow_add_r 2 (e - e1) (e1 - ez)), Z.mul_assoc by lia.
        apply Z.mod_mul.
        assert (0 < 2 ^ (e1 - ez)) by (apply pow2_pos; lia). lia.
      * assert (Hmag : mag (binary_round F32.prec F32.emax false p ez)
                       = M mod 2 ^ scale_K) by lia.
        destruct (binary_round F32.prec F32.emax false p ez) as [s'|s'| |s' m' e'];
          cbn [in_format] in H1; try contradiction.
        -- split; [exact I|]. split; [reflexivity|exact Hmag].
        -- split; [exact H1|]. split; [exact H2|exact Hmag].
    + exfalso. lia.
Qed.

(** The product of 256 with a float below one is exact. *)
Lemma F32_mul_256 (x : float32) :
  in_format32 x -> sign_of x = false -> mag x < 2 ^ scale_K ->
  in_format32 (F32.mul (F32.of_Z 256) x) /\
  sign_of (F32.mul (F32.of_Z 256) x) = false /\
  mag (F32.mul (F32.of_Z 256) x) = 256 * mag x.
Proof.
  intros Hf Hs Hlt. rewrite F32_of_Z_256.
  pose proof scale_K_eq as HK. pose proof pow2_K_pos as HKp.
  destruct x as [s|s| |s m e]; cbn [in_format] in Hf; try contradiction.
  - cbn [sign_of] in Hs. subst s. repeat split.
  - cbn [sign_of] in Hs. subst s.
    pose proof (in_format_exp_ge _ _ fmt32 false m e Hf) as He.
    pose proof (canonical_ge_emin _ _ _ _ (proj1 Hf)) as Hemin.
    pose proof (canonical_digits_le _ _ _ _ (proj1 Hf)) as Hd.
    unfold emin, F32.prec, F32.emax in Hemin, Hd.
    pose proof (digits2_pos_spec m) as [Hlo _].
    set (d := Zpos (digits2_pos m)) in *.
    assert (Hd1 : 1 <= d) by (subst d; lia).
    assert (Hde : d + e <= 0).
    { cbn [mag] in Hlt.
      destruct (Z.le_gt_cases (d + e) 0) as [|Hgt]; [assumption|exfalso].
      assert (H1 : 2 ^ scale_K <= 2 ^ (d - 1 + (e + scale_K)))
        by (apply Z.pow_le_mono_r; lia).
      rewrite (Z.pow_add_r 2 (d - 1) (e + scale_K)) in H1 by lia.
      assert (0 < 2 ^ (e + scale_K)) by (apply pow2_pos; lia). nia. }
    unfold F32.mul. cbn [SFmul xorb].
    assert (Hd2 : Zpos (digits2_pos (8388608 * m)) = d + 23).
    { apply (digits2_pos_shift m 23 (8388608 * m)); [lia|].
      rewrite Pos2Z.inj_mul. change (2 ^ 23) with 8388608. lia. }
    set (e1 := fexp F32.prec F32.emax (Zpos (digits2_pos (8388608 * m)) + (-15 + e))).
    assert (He1 : 0 <= e1 - (-15 + e) <= 23 /\ e1 <= 0).
    { subst e1. rewrite Hd2. unfold fexp, emin, F32.prec, F32.emax. lia. }
    destruct (binary_round_aux_exact F32.prec F32.emax fmt32 false (8388608 * m)
                (-15 + e)) as (H1 & H2 & H3).
    + fold e1. lia.
    + lia.
    + fold e1. unfold F32.prec, F32.emax. lia.
    + fold e1. rewrite Pos2Z.inj_mul.
      set (n := e1 - (-15 + e)) in *.
      replace 8388608 with (2 ^ (23 - n) * 2 ^ n)
        by (rewrite <- Z.pow_add_r by lia; replace (23 - n + n) with 23 by lia;
            reflexivity).
      rewrite (Z.mul_comm (2 ^ (23 - n) * 2 ^ n) (Zpos m)), Z.mul_assoc.
      apply Z.mod_mul.
      assert (0 < 2 ^ n) by (apply pow2_pos; lia). lia.
    + split; [exact H1|]. split; [exact H2|]. rewrite H3. cbn [mag].
      rewrite Pos2Z.inj_mul.
      replace (-15 + e + scale_K) with (e + scale_K - 15) by lia.
      assert (H256 : 2 ^ (e + scale_K) = 2 ^ 15 * 2 ^ (e + scale_K - 15)).
      { rewrite <- Z.pow_add_r by lia. f_equal. lia. }
      rewrite H256. change (2 ^ 15) with 32768. lia.
Qed.

(** For a hit offset that is a float of the format, not negative and
    below 2^24, the narrowing of [256.0f * modff(hitOffset, &dum)] to
    uint8_t is defined, and it yields the texel column
    floor (256 * frac (hitOffset)). *)
Lemma textureX_texel (hitOffset : float32) :
  in_format32 hitOffset -> sign_of hitOffset = false ->
  mag hitOffset < 2 ^ 24 * 2 ^ scale_K ->
  fits_uint8 (textureX_float hitOffset) = true /\
  float_to_uint8 (textureX_float hitOffset)
  = 256 * (mag hitOffset mod 2 ^ scale_K) / 2 ^ scale_K /\
  0 <= float_to_uint8 (textureX_float hitOffset) <= 255.
Proof.
  intros Hf Hs Hlt.
  pose proof scale_K_eq as HK. pose proof pow2_K_pos as HKp.
  assert (Hfr : in_format32 (fst (modff hitOffset)) /\
                sign_of (fst (modff hitOffset)) = false /\
                mag (fst (modff hitOffset)) = mag hitOffset mod 2 ^ scale_K).
  { destruct hitOffset as [s|s| |s m e]; cbn [in_format] in Hf; try contradiction.
    - cbn [sign_of] in Hs. subst s. cbn [modff fst mag]. repeat split.
    - cbn [sign_of] in Hs. subst s. apply modff_frac; assumption. }
  destruct Hfr as (F1 & F2 & F3).
  set (F := mag hitOffset mod 2 ^ scale_K) in *.
  pose proof (Z.mod_pos_bound (mag hitOffset) (2 ^ scale_K) ltac:(lia)) as HF.
  fold F in HF.
  destruct (F32_mul_256 _ F1 F2 ltac:(lia)) as (R1 & R2 & R3).
  fold (textureX_float hitOffset) in R1, R2, R3.
  set (q := 256 * F / 2 ^ scale_K).
  assert (Hq : 0 <= q < 256).
  { subst q. split; [apply Z.div_pos; lia|apply Z.div_lt_upper_bound; lia]. }
  assert (Htr : trunc_Z (textureX_float hitOffset) = Some q).
  { destruct (textureX_float hitOffset) as [s|s| |s m e]; cbn [in_format] in R1;
      try contradiction.
    - cbn [mag] in R3. cbn [trunc_Z]. f_equal. subst q.
      replace F with 0 by lia. reflexivity.
    - cbn [sign_of] in R2. subst s.
      rewrite trunc_Z_mag by exact (in_format_exp_ge _ _ fmt32 false m e R1).
      rewrite R3, F3. reflexivity. }
  unfold fits_uint8, float_to_uint8, float_to_int. rewrite Htr.
  unfold INT_MIN. change (2 ^ 31) with 2147483648.
  change (- (2147483648)) with (-2147483648).
  destruct (Z.leb_spec 0 q); [|lia]. destruct (Z.ltb_spec q 256); [|lia].
  destruct (Z.leb_spec (-2147483648) q); [|lia].
  destruct (Z.ltb_spec q 2147483648); [|lia]. cbn [andb].
  rewrite Z.mod_small by lia. repeat split; lia.
Qed.

(** textureX, as Trace returns it, is the texel column
    floor (256 * frac (hitOffset)), between 0 and 255, and the narrowing
    that produces it is defined, whenever the selected hit offset is a
    float of the format that is not negative and is below 2^24. *)
Theorem Trace_textureX_texel (libm : Libm) (g_map : list Z) (fuel : nat)
    (rc rc' : RayCasterFloat) (screenX : Z) (out : TraceResult) (ray : Ray) :
  RayCasterFloatTrace libm g_map fuel rc screenX = Some (out, rc') ->
  cast_ray libm g_map fuel rc screenX = Some ray ->
  let hitOffset := d_hitOffset (r_run ray) in
  in_format32 hitOffset -> sign_of hitOffset = false ->
  mag hitOffset < 2 ^ 24 * 2 ^ scale_K ->
  fits_uint8 (textureX_float hitOffset) = true /\
  textureX out = 256 * (mag hitOffset mod 2 ^ scale_K) / 2 ^ scale_K /\
  0 <= textureX out <= 255.
Proof.
  intros Ht Hc hitOffset Hf Hs Hlt.
  apply Trace_inv in Ht as [-> (ray' & Hc' & ->)].
  rewrite Hc in Hc'. injection Hc' as <-.
  destruct (textureX_texel hitOffset Hf Hs Hlt) as (H1 & H2 & H3).
  assert (Hx : textureX (project (d_hitOffset (r_run ray))
                           (d_hitDirection (r_run ray)) (r_distance ray))
               = float_to_uint8 (textureX_float hitOffset)).
  { unfold project. destruct (F32.ltb _ _); [|reflexivity].
    destruct (negb _); [|reflexivity]. destruct (F32.ltb _ _); reflexivity. }
  rewrite Hx. repeat split; try assumption; lia.
Qed.

Lemma Trace_textureX_texel_witness :
  exists out ray,
    RayCasterFloatTrace libm_sample zero_map 101 (corner_pose 0) 160
      = Some (out, corner_pose 0) /\
    cast_ray libm_sample zero_map 101 (corner_pose 0) 160 = Some ray /\
    fits_uint8 (textureX_float (d_hitOffset (r_run ray))) = true /\
    textureX out
    = 256 * (mag (d_hitOffset (r_run ray)) mod 2 ^ scale_K) / 2 ^ scale_K /\
    0 <= textureX out <= 255.
Proof.
  destruct (RayCasterFloatTrace libm_sample zero_map 101 (corner_pose 0) 160)
    as [[out rc']|] eqn:Ht; [|vm_compute in Ht; discriminate].
  destruct (cast_ray libm_sample zero_map 101 (corner_pose 0) 160)
    as [ray|] eqn:Hc; [|vm_compute in Hc; discriminate].
  assert (Hrc : rc' = corner_pose 0).
  { vm_compute in Ht. injection Ht as _ <-. reflexivity. }
  assert (Ho : d_hitOffset (r_run ray) = S754_finite false 16384000 (-18)).
  { vm_compute in Hc. injection Hc as <-. reflexivity. }
  subst rc'. exists out, ray.
  split; [reflexivity|]. split; [reflexivity|].
  apply (Trace_textureX_texel libm_sample zero_map 101 (corner_pose 0)
           (corner_pose 0) 160 out ray Ht Hc).
  - rewrite Ho. split; [reflexivity|vm_compute; discriminate].
  - rewrite Ho. reflexivity.
  - rewrite Ho. vm_compute. reflexivity.
Defined.

(** ** The zero sentinel in Trace *)

Lemma binary_round_shape (prec emax : Z) (m : positive) (e : Z) :
  nonneg_shape (binary_round prec emax false m e).
Proof.
  unfold binary_round. destruct (shl_align m e _) as [mz ez].
  apply binary_round_aux_shape.
Qed.

Lemma SFconv_nonneg_shape (prec emax : Z) (x : spec_float) :
  nonneg_shape x -> nonneg_shape (SFconv prec emax x).
Proof.
  intros []; cbn [SFconv]; try constructor. apply binary_round_shape.
Qed.

Lemma square_shape (u : float32) : nonneg_shape (F32.mul u u).
Proof.
  unfold F32.mul. destruct u as [[|]|[|]| |[|] m e]; cbn [SFmul xorb];
    try constructor; apply binary_round_aux_shape.
Qed.

Lemma add_shape (x y : float32) :
  nonneg_shape x -> nonneg_shape y -> nonneg_shape (F32.add x y).
Proof.
  unfold F32.add. intros [| | |mx ex] [| | |my ey]; cbn [SFadd cond_Zopp];
    try constructor.
  change (Zpos (fst (shl_align mx ex (Z.min ex ey)))
          + Zpos (fst (shl_align my ey (Z.min ex ey))))
    with (Zpos (fst (shl_align mx ex (Z.min ex ey))
                + fst (shl_align my ey (Z.min ex ey)))).
  cbn [binary_normalize]. apply binary_round_shape.
Qed.

Lemma sqrt_shape (x : float64) : nonneg_shape x -> nonneg_shape (F64.sqrt x).
Proof.
  unfold F64.sqrt, SFsqrt. intros [| | |m e]; try constructor.
  destruct (SFsqrt_core_binary _ _ _ _) as [[mz ez] l].
  apply binary_round_aux_shape.
Qed.

(** A hit distance is never a negative zero, a negative number or minus
    infinity. *)
Lemma P2P_DISTANCE_shape (x1 y1 x2 y2 : float32) :
  nonneg_shape (P2P_DISTANCE x1 y1 x2 y2).
Proof.
  unfold P2P_DISTANCE.
  apply SFconv_nonneg_shape, sqrt_shape, SFconv_nonneg_shape, add_shape;
    apply square_shape.
Qed.

Lemma search_loop_shape (g_map : list Z) (fuel : nat)
    (px py xo yo rx ry : float32) (depth : Z) (iters : nat) (r : Search) :
  search_loop g_map fuel px py xo yo rx ry depth iters = Some r ->
  nonneg_shape (s_hitDis r).
Proof.
  revert rx ry depth iters.
  induction fuel as [|fuel IH]; intros rx ry depth iters; [discriminate|].
  cbn [search_loop].
  destruct (depth <? maxDepth).
  - destruct (RayCasterFloatIsWall g_map rx ry).
    + intros [= <-]. apply P2P_DISTANCE_shape.
    + apply IH.
  - intros [= <-]. constructor.
Qed.

Lemma searches_shape (libm : Libm) (g_map : list Z) (fuel : nat)
    (px py a c : float32) (r : Search) :
  vertical_search libm g_map fuel px py a c = Some r \/
  horizontal_search libm g_map fuel px py a c = Some r ->
  nonneg_shape (s_hitDis r).
Proof.
  unfold vertical_search, horizontal_search. intros [H|H]; revert H;
    (destruct (F64.ltb _ _); [apply search_loop_shape|]);
    (destruct (F64.ltb _ _); apply search_loop_shape).
Qed.

Lemma zero_times_not_positive (y : float64) :
  F32.ltb (F32.of_Z 0) (D2F (F64.mul (F2D (S754_zero false)) y)) = false.
Proof. destruct y as [[|]|[|]| |[|] m e]; reflexivity. Qed.

(** Whenever one of the two searches leaves the zero sentinel for its
    hit distance (as a skipped search does), Distance returns 0 and
    Trace reports no wall for the column: screenY, textureY and
    textureStep are 0, whatever the other search has found and whatever
    the cosine of the column angle is. *)
Theorem Trace_blank_on_sentinel (libm : Libm) (g_map : list Z) (fuel : nat)
    (rc rc' : RayCasterFloat) (screenX : Z) (out : TraceResult) (ray : Ray) :
  RayCasterFloatTrace libm g_map fuel rc screenX = Some (out, rc') ->
  cast_ray libm g_map fuel rc screenX = Some ray ->
  s_hitDis (d_vert (r_run ray)) = F32.of_Z 0 \/
  s_hitDis (d_hori (r_run ray)) = F32.of_Z 0 ->
  d_result (r_run ray) = F32.of_Z 0 /\
  screenY out = 0 /\ textureY out = 0 /\ textureStep out = 0.
Proof.
  intros Ht Hc Hs.
  apply Trace_inv in Ht as [-> (ray' & Hc' & ->)].
  rewrite Hc in Hc'. injection Hc' as <-.
  revert Hc. unfold cast_ray.
  destruct (distance_run _ _ _ _ _ _) as [run|] eqn:Hrun; [|discriminate].
  cbn [mbind option_bind]. intros [= <-]. cbn [r_run r_distance] in *.
  apply distance_run_inv in Hrun as (a1 & a2 & v & h & _ & _ & Hv & Hh & ->).
  destruct (select_hit_searches v h) as [Ev Eh]. rewrite Ev, Eh in Hs.
  pose proof (searches_shape libm g_map fuel _ _ _ _ v (or_introl Hv)) as Sv.
  pose proof (searches_shape libm g_map fuel _ _ _ _ h (or_intror Hh)) as Sh.
  assert (Hres : d_result (select_hit v h) = S754_zero false).
  { rewrite select_hit_result.
    change (F32.of_Z 0) with (S754_zero false) in Hs.
    destruct Hs as [Hs|Hs]; rewrite Hs.
    - apply fmin_zero_nonneg_l, SFconv_nonneg_shape, Sh.
    - apply fmin_zero_nonneg_r, SFconv_nonneg_shape, Sv. }
  split; [exact Hres|].
  rewrite Hres. unfold project. rewrite zero_times_not_positive.
  repeat split.
Qed.

Lemma Trace_blank_on_sentinel_witness :
  exists out ray,
    RayCasterFloatTrace libm_sample zero_map 101 (corner_pose 0) 160
      = Some (out, corner_pose 0) /\
    cast_ray libm_sample zero_map 101 (corner_pose 0) 160 = Some ray /\
    d_result (r_run ray) = F32.of_Z 0 /\
    screenY out = 0 /\ textureY out = 0 /\ textureStep out = 0.
Proof.
  destruct (RayCasterFloatTrace libm_sample zero_map 101 (corner_pose 0) 160)
    as [[out rc']|] eqn:Ht; [|vm_compute in Ht; discriminate].
  destruct (cast_ray libm_sample zero_map 101 (corner_pose 0) 160)
    as [ray|] eqn:Hc; [|vm_compute in Hc; discriminate].
  assert (Hrc : rc' = corner_pose 0).
  { vm_compute in Ht. injection Ht as _ <-. reflexivity. }
  assert (Hv : s_hitDis (d_vert (r_run ray)) = F32.of_Z 0).
  { vm_compute in Hc. injection Hc as <-. reflexivity. }
  subst rc'. exists out, ray.
  split; [reflexivity|]. split; [reflexivity|].
  exact (Trace_blank_on_sentinel libm_sample zero_map 101 (corner_pose 0)
           (corner_pose 0) 160 out ray Ht Hc (or_introl Hv)).
Defined.

(** ** The frames of the main loop *)

Lemma process_event_goes_on (event : SDL_Event) (m r : Z) :
  quits event = false ->
  exists m' r', process_event event m r = (false, (m', r')).
Proof.
  intros Hq. pose proof (process_event_quits event m r) as H. rewrite Hq in H.
  destruct (snd (process_event event m r)) as [m' r']. eauto.
Qed.

Lemma process_event_stops (event : SDL_Event) (m r : Z) :
  quits event = true -> process_event event m r = (true, (m, r)).
Proof.
  intros Hq. pose proof (process_event_quits event m r) as H. rewrite Hq in H.
  exact H.
Qed.

Lemma main_loop_goes_on (pre : list (option SDL_Event)) (m r : Z) :
  forallb goes_on pre = true ->
  length (main_loop pre m r) = length pre /\
  fst (poll_events pre m r) = false /\
  forall rest,
    main_loop (pre ++ rest) m r =
    main_loop pre m r
      ++ main_loop rest (fst (snd (poll_events pre m r)))
                        (snd (snd (poll_events pre m r))).
Proof.
  revert m r. induction pre as [|[event|] pre IH]; intros m r Hpre;
    cbn [forallb goes_on] in Hpre.
  - repeat split.
  - apply andb_prop in Hpre as [Hq Hpre]. apply negb_true_iff in Hq.
    destruct (process_event_goes_on event m r Hq) as (m' & r' & E).
    destruct (IH m' r' Hpre) as (H1 & H2 & H3).
    cbn [main_loop poll_events app]. rewrite E.
    split; [cbn [length]; lia|]. split; [exact H2|].
    intros rest. cbn [app]. rewrite H3. reflexivity.
  - destruct (IH m r Hpre) as (H1 & H2 & H3).
    cbn [main_loop poll_events app].
    split; [cbn [length]; lia|]. split; [exact H2|].
    intros rest. cbn [app]. rewrite H3. reflexivity.
Qed.

(** The main loop calls GameMove once in every frame, the frame of the
    quitting event included: when the first event that makes
    process_event return true arrives after n polls, GameMove has been
    called n + 1 times, the last time with the directions that the
    earlier events left, and no later event is polled. *)
Theorem main_loop_frames (pre rest : list (option SDL_Event))
    (event : SDL_Event) (m r : Z) :
  forallb goes_on pre = true -> quits event = true ->
  main_loop (pre ++ Some event :: rest) m r
  = main_loop pre m r ++ [snd (poll_events pre m r)] /\
  length (main_loop (pre ++ Some event :: rest) m r) = S (length pre) /\
  poll_events (pre ++ Some event :: rest) m r = (true, snd (poll_events pre m r)).
Proof.
  intros Hpre Hq.
  destruct (main_loop_goes_on pre m r Hpre) as (H1 & H2 & H3).
  assert (Hm : main_loop (pre ++ Some event :: rest) m r
               = main_loop pre m r ++ [snd (poll_events pre m r)]).
  { rewrite H3. f_equal. cbn [main_loop].
    rewrite (process_event_stops event _ _ Hq).
    destruct (snd (poll_events pre m r)); reflexivity. }
  split; [exact Hm|]. split.
  - rewrite Hm, length_app, H1. cbn [length]. lia.
  - clear H1 H2 H3 Hm. revert m r.
    induction pre as [|[e|] pre IH]; intros m r;
      cbn [forallb goes_on] in Hpre; cbn [poll_events app].
    + rewrite (process_event_stops event _ _ Hq). reflexivity.
    + apply andb_prop in Hpre as [Hq' Hpre]. apply negb_true_iff in Hq'.
      destruct (process_event_goes_on e m r Hq') as (m' & r' & ->).
      apply IH; assumption.
    + apply IH; assumption.
Qed.

Lemma main_loop_frames_witness :
  main_loop ([Some {| ev_type := SDL_KEYDOWN; key_repeat := 0; key_sym := SDLK_UP |};
              None]
             ++ Some {| ev_type := SDL_QUIT; key_repeat := 0; key_sym := SDLK_OTHER |}
                  :: [None]) 0 0
  = main_loop [Some {| ev_type := SDL_KEYDOWN; key_repeat := 0; key_sym := SDLK_UP |};
               None] 0 0
    ++ [snd (poll_events
               [Some {| ev_type := SDL_KEYDOWN; key_repeat := 0; key_sym := SDLK_UP |};
                None] 0 0)].
Proof.
  apply (main_loop_frames
           [Some {| ev_type := SDL_KEYDOWN; key_repeat := 0; key_sym := SDLK_UP |};
            None]
           [None]
           {| ev_type := SDL_QUIT; key_repeat := 0; key_sym := SDLK_OTHER |} 0 0).
  - reflexivity.
  - reflexivity.
Defined.

(** ** The tile of a coordinate *)

(** The conversion to int of a float of the format that holds the
    integer [z]. *)
Lemma float_to_int_exact (r : float32) (z : Z) :
  in_format32 r -> sign_of r = (z <? 0) ->
  mag r = Z.abs z * 2 ^ scale_K -> z <> 0 -> INT_MIN <= z < 2 ^ 31 ->
  float_to_int r = z.
Proof.
  intros Hf Hs Hm Hz Hr.
  pose proof scale_K_eq as HK. pose proof pow2_K_pos as HKp.
  assert (Htr : trunc_Z r = Some z).
  { destruct r as [s|s| |[|] m e]; cbn [in_format] in Hf; try contradiction.
    - cbn [mag] in Hm. lia.
    - rewrite trunc_Z_mag_neg by exact (in_format_exp_ge _ _ fmt32 true m e Hf).
      rewrite Hm, Z.div_mul by lia. cbn [sign_of] in Hs.
      symmetry in Hs. apply Z.ltb_lt in Hs. f_equal. lia.
    - rewrite trunc_Z_mag by exact (in_format_exp_ge _ _ fmt32 false m e Hf).
      rewrite Hm, Z.div_mul by lia. cbn [sign_of] in Hs.
      symmetry in Hs. apply Z.ltb_ge in Hs. f_equal. lia. }
  unfold float_to_int. rewrite Htr.
  destruct (Z.leb_spec INT_MIN z); [|lia].
  destruct (Z.ltb_spec z (2 ^ 31)); [reflexivity|lia].
Qed.

(** The integral part that [modff] delivers, converted back to a float,
    holds the truncated integer exactly. *)
Lemma of_Z_trunc (s : bool) (m : positive) (e z : Z) :
  in_format32 (S754_finite s m e) ->
  trunc_Z (S754_finite s m e) = Some z -> z <> 0 -> INT_MIN <= z < 2 ^ 31 ->
  in_format32 (F32.of_Z z) /\ sign_of (F32.of_Z z) = (z <? 0) /\
  mag (F32.of_Z z) = Z.abs z * 2 ^ scale_K.
Proof.
  intros Hf Ht Hz Hr.
  pose proof scale_K_eq as HK. pose proof pow2_K_pos as HKp.
  unfold INT_MIN in Hr. change (2 ^ 31) with 2147483648 in Hr.
  destruct (Z.lt_ge_cases (Z.abs z) (2 ^ 24)) as [Hsmall|Hbig].
  { destruct (of_Z_exact z Hz Hsmall) as (m' & e' & -> & Hf' & _ & _ & Hm').
    split; [exact Hf'|]. split; [reflexivity|exact Hm']. }
  (* a large integer: the exponent is not negative *)
  pose proof (canonical_digits_le _ _ _ _ (proj1 Hf)) as Hd.
  unfold F32.prec in Hd.
  pose proof (digits2_pos_spec m) as [Hlo Hhi].
  assert (Hm24 : Zpos m < 2 ^ 24).
  { eapply Z.lt_le_trans; [exact Hhi|]. apply Z.pow_le_mono_r; lia. }
  cbn [trunc_Z] in Ht. injection Ht as Ht.
  destruct e as [|pe|pe].
  - exfalso. rewrite Z.shiftl_0_r in Ht. destruct s; cbn [cond_Zopp] in Ht; lia.
  - rewrite Z.shiftl_mul_pow2 in Ht by lia.
    assert (Habs : Z.abs z = Zpos m * 2 ^ Zpos pe).
    { assert (0 < 2 ^ Zpos pe) by (apply pow2_pos; lia).
      destruct s; cbn [cond_Zopp] in Ht; nia. }
    assert (He31 : Zpos pe < 31).
    { destruct (Z.lt_ge_cases (Zpos pe) 31) as [|Hge]; [assumption|exfalso].
      assert (2 ^ 31 <= 2 ^ Zpos pe) by (apply Z.pow_le_mono_r; lia).
      assert (Hd24 : Zpos (digits2_pos m) = 24).
      { apply (canonical_digits_eq F32.prec F32.emax m (Zpos pe) (proj1 Hf)).
        unfold emin, F32.prec, F32.emax. lia. }
      rewrite Hd24 in Hlo. change (2 ^ (24 - 1)) with 8388608 in Hlo.
      change (2 ^ 31) with 2147483648 in *. nia. }
    assert (Hp : forall (s' : bool) (p : positive),
              Zpos p = Zpos m * 2 ^ Zpos pe ->
              in_format32 (binary_round F32.prec F32.emax s' p 0) /\
              sign_of (binary_round F32.prec F32.emax s' p 0) = s' /\
              mag (binary_round F32.prec F32.emax s' p 0) = Zpos p * 2 ^ scale_K).
    { intros s' p Hp.
      pose proof (digits2_pos_shift m (Zpos pe) p ltac:(lia) Hp) as Hdp.
      assert (Hd1 : 1 <= Zpos (digits2_pos m)) by lia.
      set (e1 := fexp F32.prec F32.emax (Zpos (digits2_pos p) + 0)).
      assert (He1 : e1 <= Zpos pe /\ e1 < 104).
      { subst e1. rewrite Hdp. unfold fexp, emin, F32.prec, F32.emax. lia. }
      destruct (binary_round_exact F32.prec F32.emax fmt32 s' p 0) as (H1 & H2 & H3).
      - lia.
      - fold e1. unfold F32.prec, F32.emax. lia.
      - fold e1. intros Hle. rewrite Z.sub_0_r, Hp.
        replace (Zpos pe) with (Zpos pe - e1 + e1) at 1 by lia.
        rewrite (Z.pow_add_r 2 (Zpos pe - e1) e1), Z.mul_assoc by lia.
        apply Z.mod_mul. assert (0 < 2 ^ e1) by (apply pow2_pos; lia). lia.
      - rewrite Z.add_0_l in H3. repeat split; assumption. }
    unfold F32.of_Z, binary_normalize.
    destruct z as [|p|p]; [congruence| |].
    + apply (Hp false p). exact Habs.
    + change (Zneg p <? 0) with true. change (Z.abs (Zneg p)) with (Zpos p).
      apply (Hp true p). exact Habs.
  - exfalso. rewrite Z.shiftr_div_pow2 in Ht by lia.
    assert (0 < 2 ^ Zpos pe) by (apply pow2_pos; lia).
    assert (Zpos m / 2 ^ Zpos pe <= Zpos m).
    { apply Z.div_le_upper_bound; [lia|]. nia. }
    assert (0 <= Zpos m / 2 ^ Zpos pe) by (apply Z.div_pos; lia).
    destruct s; cbn [cond_Zopp] in Ht; lia.
Qed.

(** The tile that IsWall derives from a coordinate, through [modff] and
    the cast to int, is the integer part of the coordinate truncated
    toward zero, whenever that integer fits an int. *)
Lemma tile_of_trunc (c : float32) (z : Z) :
  in_format32 c -> trunc_Z c = Some z -> INT_MIN <= z < 2 ^ 31 ->
  tile_of c = z.
Proof.
  intros Hf Ht Hr. unfold tile_of.
  destruct c as [s|s| |s m e]; cbn [in_format] in Hf; try contradiction.
  - cbn [trunc_Z] in Ht. injection Ht as <-. reflexivity.
  - cbn [modff snd]. rewrite Ht.
    destruct (Z.eq_dec z 0) as [->|Hz]; [reflexivity|].
    destruct (of_Z_trunc s m e z Hf Ht Hz Hr) as (H1 & H2 & H3).
    destruct z as [|p|p]; [congruence| |];
      apply float_to_int_exact; assumption.
Qed.

(** C5 (amended): the tile of a coordinate is its integer part truncated
    toward zero, and a point is solid, whatever the map holds, as soon
    as the truncated integer part of its x coordinate is below 0 or at
    least MAP_X - 1, or that of its y coordinate is below 0 or at least
    MAP_Y - 1; for every float coordinate whose truncated integer part
    fits an int. *)
Theorem IsWall_out_of_bounds_solid (g_map : list Z) (c other : float32) (z : Z) :
  in_format32 c -> trunc_Z c = Some z -> INT_MIN <= z < 2 ^ 31 ->
  tile_of c = z /\
  (z < 0 \/ MAP_X - 1 <= z -> RayCasterFloatIsWall g_map c other = true) /\
  (z < 0 \/ MAP_Y - 1 <= z -> RayCasterFloatIsWall g_map other c = true).
Proof.
  intros Hf Ht Hr.
  pose proof (tile_of_trunc c z Hf Ht Hr) as Htile.
  split; [exact Htile|]. split; intros Hz; apply IsWall_out_of_bounds;
    rewrite Htile.
  - destruct Hz; [left; assumption|right; right; left; lia].
  - destruct Hz; [right; left; assumption|right; right; right; lia].
Qed.

Lemma IsWall_out_of_bounds_solid_witness :
  tile_of (SFopp three_halves_f) = -1 /\
  RayCasterFloatIsWall zero_map (SFopp three_halves_f) half_f = true /\
  RayCasterFloatIsWall zero_map half_f (SFopp three_halves_f) = true.
Proof.
  destruct (IsWall_out_of_bounds_solid zero_map (SFopp three_halves_f) half_f (-1))
    as (H1 & H2 & H3).
  - split; [reflexivity|vm_compute; discriminate].
  - reflexivity.
  - vm_compute. split; [discriminate|reflexivity].
  - split; [exact H1|]. split; [apply H2|apply H3]; left; reflexivity.
Defined.
